(** * esy: build graph, path scheme and in-process builder

    A shallow embedding of the core of the esy build orchestrator
    (build-repr, build-config, util, the simple builder, the env and
    findlib renderers of the ejecting builder, and the hash helper
    scripts), together with the properties of its specification.

    Conventions.
    - JavaScript strings and Node buffers are byte strings ([string]).
    - A [Build] object is an immutable value; the [dependencies] array is
      a list of sub-values, so a shared dependency appears once per
      referrer and the graph below a root is finite and acyclic.  The
      code itself identifies builds by [id].
    - Asynchronous I/O is modelled by a state and error monad over a
      file system; every request is logged when it is issued and takes
      effect in issue order.  A promise chain that is started without
      being awaited is kept aside and runs once its starter suspends. *)

From Stdlib Require Import Ascii String ZArith Lia.
From stdpp Require Import base option list sets gmap strings.

Local Open Scope string_scope.
Local Open Scope list_scope.
Local Open Scope nat_scope.

(** ** Byte strings *)

Module Str.

(** [Array.prototype.join]. *)
Definition join (sep : string) (l : list string) : string :=
  String.concat sep l.

(** [String.prototype.split] on a one-character separator. *)
Fixpoint split (sep : ascii) (s : string) : list string :=
  match s with
  | EmptyString => [""]
  | String c rest =>
      if decide (c = sep) then "" :: split sep rest
      else match split sep rest with
           | [] => [String c ""]
           | h :: t => String c h :: t
           end
  end.

Fixpoint starts_with (p s : string) : bool :=
  match p, s with
  | EmptyString, _ => true
  | String a p', String b s' => if decide (a = b) then starts_with p' s' else false
  | String _ _, EmptyString => false
  end.

Fixpoint ends_with_char (c : ascii) (s : string) : bool :=
  match s with
  | EmptyString => false
  | String a EmptyString => if decide (a = c) then true else false
  | String _ rest => ends_with_char c rest
  end.

(** Position of the first occurrence of [needle] at or after the
    start of [hay], counted from [pos]. *)
Fixpoint find_from (needle hay : string) (pos : nat) : option nat :=
  if starts_with needle hay then Some pos
  else match hay with
       | EmptyString => None
       | String _ rest => find_from needle rest (S pos)
       end.

(** [indexOf] of strings and buffers: the first offset, or [-1]. *)
Definition indexOf (hay needle : string) : Z :=
  match find_from needle hay 0 with
  | Some n => Z.of_nat n
  | None => (-1)%Z
  end.

Definition includes (hay needle : string) : bool :=
  bool_decide (indexOf hay needle ≠ (-1)%Z).

Fixpoint take (n : nat) (s : string) : string :=
  match n, s with
  | S n', String c rest => String c (take n' rest)
  | _, _ => ""
  end.

Fixpoint drop (n : nat) (s : string) : string :=
  match n, s with
  | S n', String _ rest => drop n' rest
  | _, _ => s
  end.

Fixpoint replicate (n : nat) (c : ascii) : string :=
  match n with
  | 0 => ""
  | S n' => String c (replicate n' c)
  end.

Fixpoint forallb (p : ascii → bool) (s : string) : bool :=
  match s with
  | EmptyString => true
  | String c rest => p c && forallb p rest
  end.

(** [c] does not occur in [s]. *)
Definition free_of (c : ascii) (s : string) : bool :=
  forallb (λ x, negb (bool_decide (x = c))) s.

End Str.

(** ** Node's [path] module (POSIX flavour)

    [path.join] is a library function of the platform; it is modelled
    after its documented algorithm: the non-empty arguments are glued
    with [/] and the result is normalised segment by segment. *)

Module Path.

(** One step of [normalizeString]; [res] is the stack of kept
    segments, innermost first. *)
Definition normalize_step (allowAboveRoot : bool)
    (res : list string) (seg : string) : list string :=
  if decide (seg = "") then res
  else if decide (seg = ".") then res
  else if decide (seg = "..") then
    match res with
    | top :: below =>
        if decide (top = "..")
        then (if allowAboveRoot then ".." :: res else res)
        else below
    | [] => if allowAboveRoot then [".."] else []
    end
  else seg :: res.

Definition normalizeString (path : string) (allowAboveRoot : bool) : string :=
  Str.join "/"
    (rev (fold_left (normalize_step allowAboveRoot) (Str.split "/" path) [])).

Definition normalize (path : string) : string :=
  if decide (path = "") then "."
  else
    let isAbsolute := Str.starts_with "/" path in
    let trailingSeparator := Str.ends_with_char "/" path in
    let p := normalizeString path (negb isAbsolute) in
    if decide (p = "") then
      (if isAbsolute then "/" else if trailingSeparator then "./" else ".")
    else
      let p' := if trailingSeparator then p +:+ "/" else p in
      if isAbsolute then "/" +:+ p' else p'.

Definition join (args : list string) : string :=
  match filter (λ a, a ≠ "") args with
  | [] => "."
  | parts => normalize (Str.join "/" parts)
  end.

End Path.

(** ** build-repr: builds and their traversals *)

Record EnvironmentVar := mkEnvironmentVar {
  var_name : string;
  var_value : option string;
}.

Record EnvironmentVarExport := mkEnvironmentVarExport {
  val : string;
  scope : option string;
  exclusive : option bool;
  builtIn : option bool; (* __BUILT_IN_DO_NOT_USE_OR_YOU_WILL_BE_PIPd *)
}.

#[global] Instance EnvironmentVarExport_eq_dec : EqDecision EnvironmentVarExport.
Proof. solve_decision. Defined.

Local Unset Elimination Schemes.

Inductive Build := mkBuild {
  id : string;
  name : string;
  version : string;
  command : option (list string);
  exportedEnv : list (string * EnvironmentVarExport);
  sourcePath : string;
  mutatesSourcePath : bool;
  shouldBePersisted : bool;
  dependencies : list Build;
  errors : list string;
}.

Local Set Elimination Schemes.

(** Number of objects below (and including) a build, shared ones
    counted once per referrer. *)
Fixpoint Build_weight (b : Build) : nat :=
  S (list_sum (map Build_weight (dependencies b))).

(** All builds reachable from [b], [b] included. *)
Fixpoint nodes (b : Build) : list Build :=
  b :: flat_map nodes (dependencies b).

Definition reachable (root b : Build) : Prop := b ∈ nodes root.

(** Object identity [cur === build].  Builds are immutable values and
    no build is reachable from itself, so identity of two builds met
    during one traversal is equality of values. *)
Fixpoint Build_eqb (a b : Build) : bool :=
  bool_decide (id a = id b)
  && bool_decide (name a = name b)
  && bool_decide (version a = version b)
  && bool_decide (command a = command b)
  && bool_decide (exportedEnv a = exportedEnv b)
  && bool_decide (sourcePath a = sourcePath b)
  && bool_decide (mutatesSourcePath a = mutatesSourcePath b)
  && bool_decide (shouldBePersisted a = shouldBePersisted b)
  && bool_decide (errors a = errors b)
  && (fix all2 (xs ys : list Build) : bool :=
        match xs, ys with
        | [], [] => true
        | x :: xs', y :: ys' => Build_eqb x y && all2 xs' ys'
        | _, _ => false
        end) (dependencies a) (dependencies b).

Section Traversals.
(** The visitor [f] is a callback with effects; its effects are
    threaded as a state of type [S]. *)
Context {S : Type}.
Variable f : Build → S → S.

(** The [while (queue.length > 0)] loop of [traverse].  [fuel]
    bounds the number of iterations. *)
Fixpoint traverse_loop (fuel : nat) (seen : gset string)
    (queue : list Build) (s : S) : option S :=
  match queue with
  | [] => Some s
  | cur :: rest =>
      match fuel with
      | 0 => None
      | Datatypes.S fuel' =>
          if decide (id cur ∈ seen) then traverse_loop fuel' seen rest s
          else traverse_loop fuel' ({[id cur]} ∪ seen)
                 (rest ++ dependencies cur) (f cur s)
      end
  end.

(** BFS for build dep graph. *)
Definition traverse (build : Build) (s : S) : option S :=
  traverse_loop (Build_weight build) ∅ [build] s.

(** The inner recursive function of [traverseDeepFirst]; the pair is
    the [seen] set and the visitor state. *)
Fixpoint traverseDeepFirst_go (build : Build) (st : gset string * S)
    : gset string * S :=
  if decide (id build ∈ st.1) then st
  else
    let st1 := ({[id build]} ∪ st.1, st.2) in
    let st2 := fold_left (λ st d, traverseDeepFirst_go d st)
                 (dependencies build) st1 in
    (st2.1, f build st2.2).

Definition traverseDeepFirst (build : Build) (s : S) : S :=
  (traverseDeepFirst_go build (∅, s)).2.

End Traversals.

(** The sequence of visitor calls of each traversal. *)
Definition record_visit (b : Build) (log : list Build) : list Build := log ++ [b].

Definition bfs_order (build : Build) : option (list Build) :=
  traverse record_visit build [].

Definition dfs_order (build : Build) : list Build :=
  traverseDeepFirst record_visit build [].

(** Collect all transitive dependencies for a [build]. *)
Definition collectTransitiveDependencies (build : Build) : option (list Build) :=
  traverse (λ cur dependencies,
              (* Skip the root build *)
              if negb (Build_eqb cur build) then dependencies ++ [cur]
              else dependencies)
           build [].

(** ** util *)

Definition flattenArray {T} (arrayOfArrays : list (list T)) : list T :=
  concat arrayOfArrays.

Module Util.

(** [toLowerCase] on the ASCII range: [A-Z] become [a-z].  What
    [String.prototype.toLowerCase] does to letters outside ASCII is not
    part of the model. *)
Definition lower_char (c : ascii) : ascii :=
  let n := nat_of_ascii c in
  if Nat.leb 65 n && Nat.leb n 90 then ascii_of_nat (n + 32) else c.

Fixpoint toLowerCase (s : string) : string :=
  match s with
  | EmptyString => ""
  | String c rest => String (lower_char c) (toLowerCase rest)
  end.

(** [s.replace(/c/g, by)] for a single character [c]. *)
Fixpoint replace_char (c : ascii) (by_ : string) (s : string) : string :=
  match s with
  | EmptyString => ""
  | String x rest =>
      (if decide (x = c) then by_ else String x "") +:+ replace_char c by_ rest
  end.

(** [s.replace(/_+/g, matched => matched + '__')]: every maximal run
    of underscores is followed by two more. *)
Fixpoint extend_underscore_runs (s : string) : string :=
  match s with
  | EmptyString => ""
  | String x rest =>
      if decide (x = "_"%char) then
        match rest with
        | String y _ =>
            if decide (y = "_"%char) then String x (extend_underscore_runs rest)
            else String x ("__" +:+ extend_underscore_runs rest)
        | EmptyString => String x "__"
        end
      else String x (extend_underscore_runs rest)
  end.

Definition normalizePackageName (name : string) : string :=
  replace_char "-" "_"
    (replace_char "." "__dot__"
       (* Add two underscores to every group we see. *)
       (replace_char "/" "__slash__"
          (extend_underscore_runs
             (replace_char "@" "" (toLowerCase name))))).

End Util.

(** ** build-config *)

Record BuildConfig := mkBuildConfig {
  storePath : string;
  sandboxPath : string;
  getSourcePath : Build → list string → string;
  getRootPath : Build → list string → string;
  getBuildPath : Build → list string → string;
  getInstallPath : Build → list string → string;
  getFinalInstallPath : Build → list string → string;
}.

Definition createConfig (storePath sandboxPath : string) : BuildConfig :=
  let sandboxLocalStorePath := Path.join [sandboxPath; "_esy"; "store"] in
  let genPath (build : Build) (tree : string) (segments : list string) :=
    if shouldBePersisted build
    then Path.join (storePath :: tree :: id build :: segments)
    else Path.join (sandboxLocalStorePath :: tree :: id build :: segments) in
  {| storePath := storePath;
     sandboxPath := sandboxPath;
     getSourcePath := λ build segments,
       Path.join (sandboxPath :: sourcePath build :: segments);
     getRootPath := λ build segments,
       if mutatesSourcePath build then genPath build "_build" segments
       else Path.join (sandboxPath :: sourcePath build :: segments);
     getBuildPath := λ build segments, genPath build "_build" segments;
     getInstallPath := λ build segments, genPath build "_insttmp" segments;
     getFinalInstallPath := λ build segments, genPath build "_install" segments |}.

(** ** Renderers *)

Definition nl : string := String (ascii_of_nat 10) "".
Definition dq : string := String (ascii_of_nat 34) "".

Record EnvironmentGroup := mkEnvironmentGroup {
  envVars : list EnvironmentVar;
}.

Definition Environment := list EnvironmentGroup.

(** What a template literal prints for a nullable string. *)
Definition template_value (v : option string) : string := default "null" v.

Definition renderEnv (groups : Environment) : string :=
  let env := flattenArray (map envVars groups) in
  Str.join nl
    (map (λ env, "export " +:+ var_name env +:+ "=" +:+ dq
                  +:+ template_value (var_value env) +:+ dq +:+ ";")
         (filter (λ env, var_value env ≠ None) env)).

(** The [path] entry of the findlib configuration. *)
Definition findLibPath (build : Build) (config : BuildConfig) : option string :=
  allDependencies ← collectTransitiveDependencies build;
  let findLibDestination := getInstallPath config build ["lib"] in
  Some (Str.join ":"
          (map (λ dep, getFinalInstallPath config dep ["lib"]) allDependencies
           ++ [findLibDestination])).

Definition findlib_text (findLibPath findLibDestination : string) : string :=
  Str.join nl
    [ "path = " +:+ dq +:+ findLibPath +:+ dq;
      "destdir = " +:+ dq +:+ findLibDestination +:+ dq;
      "ldconf = " +:+ dq +:+ "ignore" +:+ dq;
      "ocamlc = " +:+ dq +:+ "ocamlc.opt" +:+ dq;
      "ocamldep = " +:+ dq +:+ "ocamldep.opt" +:+ dq;
      "ocamldoc = " +:+ dq +:+ "ocamldoc.opt" +:+ dq;
      "ocamllex = " +:+ dq +:+ "ocamllex.opt" +:+ dq;
      "ocamlopt = " +:+ dq +:+ "ocamlopt.opt" +:+ dq ].

Definition renderFindlibConf (build : Build) (config : BuildConfig) : option string :=
  findLibPath ← findLibPath build config;
  Some (findlib_text findLibPath (getInstallPath config build ["lib"])).

(** ** File system and asynchronous I/O

    The helpers of [util/fs] and [util/child] are thin wrappers around
    the platform; they are modelled on a file system that maps absolute
    or relative path strings to directories and regular files. *)

Module Fs.

Inductive node :=
| Dir
| File (mode : N) (content : string).

#[global] Instance node_eq_dec : EqDecision node.
Proof. solve_decision. Defined.

Definition isFile (n : node) : bool :=
  match n with File _ _ => true | Dir => false end.

Definition default_mode : N := 420 (* 0o644 *).

(** [p] is [dir] or lies below it. *)
Definition under (dir p : string) : bool :=
  bool_decide (p = dir) || Str.starts_with (dir +:+ "/") p.

Definition strictly_under (dir p : string) : bool :=
  Str.starts_with (dir +:+ "/") p.

Fixpoint inits {A} (l : list A) : list (list A) :=
  match l with
  | [] => []
  | x :: rest => [x] :: map (cons x) (inits rest)
  end.

(** [p] and the directories above it, outermost first. *)
Definition ancestors (p : string) : list string :=
  filter (λ a, a ≠ "") (map (Str.join "/") (inits (Str.split "/" p))).

Definition dirname (p : string) : option string :=
  match rev (ancestors p) with
  | _ :: parent :: _ => Some parent
  | _ => None
  end.

Definition exists_ (p : string) (d : gmap string node) : bool :=
  bool_decide (is_Some (d !! p)).

Definition rmtree (p : string) (d : gmap string node) : gmap string node :=
  filter (λ kv, under p kv.1 = false) d.

Definition mkdirp (p : string) (d : gmap string node) : option (gmap string node) :=
  if forallb (λ a, bool_decide (d !! a = None ∨ d !! a = Some Dir)) (ancestors p)
  then Some (fold_left (λ d a, <[a := Dir]> d) (ancestors p) d)
  else None.

Definition parent_is_dir (p : string) (d : gmap string node) : bool :=
  match dirname p with
  | Some parent => bool_decide (d !! parent = Some Dir)
  | None => true
  end.

(** Writing an existing file keeps its mode. *)
Definition writeFile (p content : string) (d : gmap string node)
    : option (gmap string node) :=
  match d !! p with
  | Some Dir => None
  | Some (File mode _) => Some (<[p := File mode content]> d)
  | None =>
      if parent_is_dir p d then Some (<[p := File default_mode content]> d)
      else None
  end.

Definition readFile (p : string) (d : gmap string node) : option string :=
  match d !! p with
  | Some (File _ content) => Some content
  | _ => None
  end.

(** Every path strictly below [p]. *)
Definition walk (p : string) (d : gmap string node) : list string :=
  filter (λ k, strictly_under p k = true) (map fst (map_to_list d)).

(** [rename]: the source exists, nothing lies below the target and
    the parent of the target is a directory; what is at the source or
    below it moves to the target. *)
Definition rename (p q : string) (d : gmap string node)
    : option (gmap string node) :=
  match d !! p with
  | None => None
  | Some _ =>
      if bool_decide (walk q d = []) && parent_is_dir q d then
        let moved :=
          map (λ kv, (q +:+ Str.drop (String.length p) kv.1, kv.2))
              (filter (λ kv, under p kv.1 = true) (map_to_list d)) in
        Some (list_to_map moved ∪ rmtree p (delete q d))
      else None
  end.

End Fs.

Inductive request :=
| ReqExists (p : string)
| ReqRmtree (p : string)
| ReqMkdirp (p : string)
| ReqSpawn (prog : string) (args : list string)
| ReqExec (command cwd : string)
| ReqWriteFile (p content : string)
| ReqWalk (p : string)
| ReqStat (p : string)
| ReqReadFile (p : string)
| ReqRename (p q : string).

#[global] Instance request_eq_dec : EqDecision request.
Proof. solve_decision. Defined.

Record walk_entry := mkEntry { relative : string; absolute : string }.

(** A promise chain that has been started and that nobody awaits: the
    rewrite of [job_files] from [job_orig] to [job_dest]. *)
Record rewrite_job := mkJob {
  job_orig : string;
  job_dest : string;
  job_files : list walk_entry;
}.

Record world := mkWorld {
  disk : gmap string Fs.node;
  issued : list request;
  detached : list rewrite_job;
}.

Inductive outcome (A : Type) :=
| Done (a : A)
| Failed (err : string).
Arguments Done {A} a.
Arguments Failed {A} err.

(** A promise-returning computation. *)
Definition io (A : Type) : Type := world → outcome A * world.

Definition ret {A} (a : A) : io A := λ w, (Done a, w).

Definition bind {A B} (m : io A) (k : A → io B) : io B :=
  λ w, match m w with
       | (Done a, w') => k a w'
       | (Failed e, w') => (Failed e, w')
       end.

#[global] Instance io_ret : MRet io := @ret.
#[global] Instance io_bind : MBind io := λ A B k m, bind m k.

Definition issue (r : request) (w : world) : world :=
  {| disk := disk w; issued := issued w ++ [r]; detached := detached w |}.

Definition settle {A} (r : option A) (err : string) : outcome A :=
  match r with Some a => Done a | None => Failed err end.

(** A request whose effect is a partial update of the disk. *)
Definition update (r : request) (err : string)
    (f : gmap string Fs.node → option (gmap string Fs.node)) : io unit :=
  λ w, match f (disk w) with
       | Some d' => (Done tt, {| disk := d'; issued := issued w ++ [r];
                                 detached := detached w |})
       | None => (Failed err, issue r w)
       end.

(** A request that only reads the disk. *)
Definition query {A} (r : request) (err : string)
    (f : gmap string Fs.node → option A) : io A :=
  λ w, (settle (f (disk w)) err, issue r w).

(** [Promise.all]: every member is started; the first failure is the
    result. *)
Fixpoint promise_all (ps : list (io unit)) (w : world) : outcome unit * world :=
  match ps with
  | [] => (Done tt, w)
  | p :: rest =>
      let '(r, w1) := p w in
      let '(r', w2) := promise_all rest w1 in
      (match r with Failed e => Failed e | Done _ => r' end, w2)
  end.

(** A sequential loop of awaited steps. *)
Fixpoint for_each {A} (l : list A) (step : A → io unit) : io unit :=
  match l with
  | [] => ret tt
  | a :: rest => step a;; for_each rest step
  end.

(** A promise that is started and never awaited: its effects happen,
    its failure is not observed. *)
Definition unawaited (m : io unit) : io unit :=
  λ w, (Done tt, (m w).2).

(** Modelled from the spec: the promise-returning helpers of [util/fs],
    which are not part of the sources; each is one request on the file
    system. *)
Module fs.
Definition exists_ (p : string) : io bool :=
  query (ReqExists p) "" (λ d, Some (Fs.exists_ p d)).
Definition mkdirp (p : string) : io unit :=
  update (ReqMkdirp p) "EEXIST" (Fs.mkdirp p).
Definition writeFile (p content : string) : io unit :=
  update (ReqWriteFile p content) "ENOENT" (Fs.writeFile p content).
Definition stat (p : string) : io Fs.node :=
  query (ReqStat p) "ENOENT" (λ d, d !! p).
Definition readFileBuffer (p : string) : io string :=
  query (ReqReadFile p) "ENOENT" (Fs.readFile p).
Definition rename (p q : string) : io unit :=
  update (ReqRename p q) "ENOENT" (Fs.rename p q).

(** Modelled from the spec: [util/fs.walk], which is not part of the
    sources, walks a directory recursively; it yields every entry
    below it. *)
Definition walk (p : string) : io (list walk_entry) :=
  query (ReqWalk p) "ENOENT"
    (λ d, match d !! p with
          | Some Fs.Dir =>
              Some (map (λ k, {| relative := Str.drop (Datatypes.S (String.length p)) k;
                                 absolute := k |})
                        (Fs.walk p d))
          | _ => None
          end).
End fs.

(** [Buffer.prototype.write(string, offset)]: overwrite in place, never
    past the end of the buffer. *)
Definition buffer_write (buf str : string) (offset : nat) : string :=
  Str.take offset buf
  +:+ Str.take (String.length buf - offset) str
  +:+ Str.drop (offset + String.length str) buf.

(** ** simple-builder *)

Record BuildSandbox := mkBuildSandbox {
  sandbox_env : list EnvironmentVar;
  root : Build;
}.

Definition INSTALL_DIRS : list string :=
  ["lib"; "bin"; "sbin"; "man"; "doc"; "share"; "stublibs"; "etc"].
Definition BUILD_DIRS : list string := ["_esy"].

Section Builder.
(** Collaborators that are not part of the sources: the environment
    composer, the processes started through [util/child], and the
    [rimraf] library.  Each of the last two may fail, and says what the
    disk is afterwards. *)
Variable calculateEnvironment :
  BuildConfig → Build → list EnvironmentVar → outcome Environment.
Variable run_process :
  request → gmap string Fs.node → outcome unit * gmap string Fs.node.
Variable rimraf :
  string → gmap string Fs.node → outcome unit * gmap string Fs.node.

(** [rmtree = promisify(rimraf)]: the promise is rejected when rimraf
    reports an error. *)
Definition rmtree (p : string) : io unit :=
  λ w, let '(res, d') := rimraf p (disk w) in
       (res, {| disk := d'; issued := issued w ++ [ReqRmtree p];
                detached := detached w |}).

Definition child (r : request) : io unit :=
  λ w, let '(res, d') := run_process r (disk w) in
       (res, {| disk := d'; issued := issued w ++ [r]; detached := detached w |}).

Definition rsync (from to : string) : io unit :=
  let from := if Str.ends_with_char "/" from then from else from +:+ "/" in
  let args := ["--archive"; from; to] in
  child (ReqSpawn "rsync" args).

Definition initStore (storePath : string) : io unit :=
  promise_all
    (map (λ p, fs.mkdirp (Path.join [storePath; p]))
         ["_build"; "_install"; "_insttmp"]).

(** One task of the rewrite chain. *)
Definition rewrite_task (origPath destPath : string) (file : walk_entry)
    : io unit :=
  st ← fs.stat (absolute file);
  if negb (Fs.isFile st) then mret tt
  else
    content ← fs.readFileBuffer (absolute file);
    let offset := Str.indexOf content origPath in
    if (offset >? -1)%Z then
      let content := buffer_write content destPath (Z.to_nat offset) in
      unawaited (fs.writeFile (absolute file) content)
    else mret tt.

(** The chain [rewriteInProgress]: one task after the other; a failing
    task ends the chain. *)
Definition run_job (job : rewrite_job) : io unit :=
  for_each (job_files job) (rewrite_task (job_orig job) (job_dest job)).

(** Start a chain without awaiting it. *)
Definition detach (job : rewrite_job) : io unit :=
  λ w, (Done tt, {| disk := disk w; issued := issued w;
                    detached := detached w ++ [job] |}).

(** Let the chains that were started run; their failures are not
    observed. *)
Definition settle_detached (w : world) : world :=
  fold_left (λ w job, (run_job job w).2) (detached w)
    {| disk := disk w; issued := issued w; detached := [] |}.

(** [performBuild] up to its [return].  The rewrite block only starts
    the [rewriteInProgress] chain ([detach]): the chain is built and
    the function goes on to the rename without awaiting it. *)
Definition performBuild (build : Build) (config : BuildConfig)
    (sandbox : BuildSandbox) : io unit :=
  let rootPath := getRootPath config build [] in
  let buildPath := getBuildPath config build [] in
  cached ← (if shouldBePersisted build
            then fs.exists_ (getFinalInstallPath config build [])
            else mret false);
  if (cached : bool) then
    (* that means build already cached in store *)
    mret tt
  else
    promise_all
      [ rmtree (getFinalInstallPath config build []);
        rmtree (getInstallPath config build []);
        rmtree (getBuildPath config build []) ];;
    promise_all
      (map (λ p, fs.mkdirp (getBuildPath config build [p])) BUILD_DIRS
       ++ map (λ p, fs.mkdirp (getInstallPath config build [p])) INSTALL_DIRS);;
    (if mutatesSourcePath build
     then rsync (Path.join [sandboxPath config; sourcePath build])
                (getBuildPath config build [])
     else mret tt);;
    env ← (λ w, (calculateEnvironment config build (sandbox_env sandbox), w));
    let envPath := Path.join [buildPath; "_esy"; "env"] in
    fs.writeFile envPath (renderEnv env);;
    conf ← (λ w, (settle (renderFindlibConf build config) "traverse", w));
    fs.writeFile (Path.join [buildPath; "_esy"; "findlib.conf"]) conf;;
    match command build with
    | Some commands =>
        for_each commands
          (λ c, child (ReqExec ("source " +:+ envPath +:+ ";" +:+ nl +:+ c)
                               rootPath));;
        files ← fs.walk (getInstallPath config build []);
        let origPath := getInstallPath config build [] in
        let destPath := getFinalInstallPath config build [] in
        detach {| job_orig := origPath; job_dest := destPath; job_files := files |}
    | None => mret tt
    end;;
    fs.rename (getInstallPath config build []) (getFinalInstallPath config build []);;
    mret tt.

(** [performBuild] together with the chain it leaves running.  The
    first callback of the chain runs when [performBuild] suspends at
    its next [await], which is the one of the rename: the chain's
    first request is issued right after the rename request. *)
Definition performBuild_settled (build : Build) (config : BuildConfig)
    (sandbox : BuildSandbox) : io unit :=
  λ w, let '(r, w') := performBuild build config sandbox w in
       (r, settle_detached w').

(** The builder: the store skeletons, then every build in post-order,
    chained on one promise. *)
Definition build (sandbox : BuildSandbox) (config : BuildConfig) : io unit :=
  initStore (storePath config);;
  initStore (Path.join [sandboxPath config; "_esy"; "store"]);;
  traverseDeepFirst
    (λ build buildInProgress,
       buildInProgress;; performBuild_settled build config sandbox)
    (root sandbox) (mret tt).

End Builder.

(** ** buildEjectCommand/getOldHash *)

Inductive script_result :=
| Threw (error message : string)
| Printed (text : string).

(** [new Exception(message)]: neither the script nor Node binds
    [Exception], so evaluating the expression raises a
    [ReferenceError] and [message] is never used. *)
Definition new_Exception (message : string) : script_result :=
  Threw "ReferenceError" "Exception is not defined".

Definition getOldHash (folderName : string) (d : gmap string Fs.node)
    : script_result :=
  let fileName := Path.join [folderName; ".esy_hash"] in
  if Fs.exists_ fileName d then new_Exception "Hash file not available"
  else
    match Fs.readFile fileName d with
    | Some fileContent => Printed fileContent
    | None => Threw "Error" "ENOENT"
    end.

(** ** The specification's reading of the path scheme and renderers *)

(** A path segment that [path.join] keeps as it is: it is not empty,
    it is neither [.] nor [..], and it holds no separator. *)
Definition plain_segment (s : string) : bool :=
  negb (bool_decide (s = "")) && negb (bool_decide (s = "."))
  && negb (bool_decide (s = "..")) && Str.free_of "/" s.

(** The path scheme as the specification writes it, [/] being the
    separator character. *)
Module PathSpec.
(** The segments [s] below a path: [/s1/s2/…]. *)
Fixpoint below (s : list string) : string :=
  match s with
  | [] => ""
  | x :: rest => "/" +:+ x +:+ below rest
  end.


Section Scheme.
Variables storePath sandboxPath : string.

Definition base (b : Build) : string :=
  if shouldBePersisted b then storePath
  else sandboxPath +:+ "/_esy/store".

Definition source (b : Build) (s : list string) : string :=
  sandboxPath +:+ "/" +:+ sourcePath b +:+ below s.
Definition build (b : Build) (s : list string) : string :=
  base b +:+ "/_build/" +:+ id b +:+ below s.
Definition install (b : Build) (s : list string) : string :=
  base b +:+ "/_insttmp/" +:+ id b +:+ below s.
Definition root (b : Build) (s : list string) : string :=
  if mutatesSourcePath b then build b s else source b s.
End Scheme.
End PathSpec.

Module EnvSpec.
Definition export_line (name value : string) : string :=
  "export " +:+ name +:+ "=" +:+ dq +:+ value +:+ dq +:+ ";".

(** One line per variable that has a value, in order. *)
Fixpoint var_lines (vars : list EnvironmentVar) : list string :=
  match vars with
  | [] => []
  | v :: rest =>
      match var_value v with
      | Some value => export_line (var_name v) value :: var_lines rest
      | None => var_lines rest
      end
  end.

Fixpoint lines (groups : Environment) : list string :=
  match groups with
  | [] => []
  | g :: rest => var_lines (envVars g) ++ lines rest
  end.

(** The lines of a text: the empty text has none; otherwise they are
    the pieces that the newline characters separate. *)
Definition text_lines (text : string) : list string :=
  if decide (text = "") then [] else Str.split (ascii_of_nat 10) text.
End EnvSpec.

Module NameSpec.
Definition is_lower (c : ascii) : bool :=
  Nat.leb 97 (nat_of_ascii c) && Nat.leb (nat_of_ascii c) 122.
Definition is_digit (c : ascii) : bool :=
  Nat.leb 48 (nat_of_ascii c) && Nat.leb (nat_of_ascii c) 57.

(** The alphabet [a-z0-9@/._-]. *)
Definition name_char (c : ascii) : bool :=
  is_lower c || is_digit c
  || bool_decide (c = "@"%char) || bool_decide (c = "/"%char)
  || bool_decide (c = "."%char) || bool_decide (c = "_"%char)
  || bool_decide (c = "-"%char).

(** The alphabet [a-z0-9/.]. *)
Definition plain_char (c : ascii) : bool :=
  is_lower c || is_digit c
  || bool_decide (c = "/"%char) || bool_decide (c = "."%char).

(** What one character of a plain name becomes. *)
Definition code (c : ascii) : string :=
  if decide (c = "/"%char) then "__slash__"
  else if decide (c = "."%char) then "__dot__"
  else String c "".

(** The ASCII range. *)
Definition ascii_char (c : ascii) : bool := Nat.ltb (nat_of_ascii c) 128.

(** [A-Z] to [a-z]. *)
Definition lower (c : ascii) : ascii :=
  if Nat.leb 65 (nat_of_ascii c) && Nat.leb (nat_of_ascii c) 90
  then ascii_of_nat (nat_of_ascii c + 32) else c.

(** Whether a run of underscores goes on in [s]: the first character
    of [s] that is not [@] is an underscore. *)
Fixpoint run_goes_on (s : string) : bool :=
  match s with
  | EmptyString => false
  | String c rest =>
      if decide (c = "@"%char) then run_goes_on rest
      else bool_decide (c = "_"%char)
  end.

(** The normalization as one pass over the name: [@] vanishes; an
    underscore stays, and the last one of a run is followed by two
    more; [/], [.] and [-] are replaced; any other character is
    lower-cased. *)
Fixpoint encode (s : string) : string :=
  match s with
  | EmptyString => ""
  | String c rest =>
      (if decide (c = "@"%char) then ""
       else if decide (c = "_"%char)
            then (if run_goes_on rest then "_" else "___")
       else if decide (c = "/"%char) then "__slash__"
       else if decide (c = "."%char) then "__dot__"
       else if decide (c = "-"%char) then "_"
       else String (lower c) "")
      +:+ encode rest
  end.
End NameSpec.

Module FindlibSpec.
(** The transitive dependencies of [b] in DFS post-order: the
    post-order visit of [b] without [b] itself, which comes last. *)
Definition transitive_deps_postorder (b : Build) : list Build :=
  removelast (dfs_order b).

Definition path (config : BuildConfig) (b : Build) : string :=
  Str.join ":"
    (map (λ d, getFinalInstallPath config d ["lib"]) (transitive_deps_postorder b)
     ++ [getInstallPath config b ["lib"]]).



(** [d] is reached from [b] along at most [k] dependency edges. *)
Inductive within (b : Build) : nat → Build → Prop :=
| within_here k : within b k b
| within_dep k c d :
    within b k c → d ∈ dependencies c → within b (Datatypes.S k) d.

End FindlibSpec.

(** In a visit sequence, every dependency of a build comes before the
    build. *)
Definition deps_first (order : list Build) : Prop :=
  ∀ before v after, order = before ++ v :: after →
    ∀ d, d ∈ dependencies v → d ∈ before.

(** Builds with equal [id] are the same build. *)
Definition ids_consistent (root : Build) : Prop :=
  ∀ x y, reachable root x → reachable root y → id x = id y → x = y.

(** Requests that belong to command execution or to the rewrite walk. *)
Definition setup_request (r : request) : bool :=
  match r with
  | ReqExec _ _ | ReqWalk _ | ReqStat _ | ReqReadFile _ => false
  | _ => true
  end.

(** The requests of the clean step of [performBuild], and those of
    its skeleton step. *)
Definition removal_requests (config : BuildConfig) (b : Build) : list request :=
  [ ReqRmtree (getFinalInstallPath config b []);
    ReqRmtree (getInstallPath config b []);
    ReqRmtree (getBuildPath config b []) ].

Definition creation_requests (config : BuildConfig) (b : Build) : list request :=
  map (λ p, ReqMkdirp (getBuildPath config b [p])) BUILD_DIRS
  ++ map (λ p, ReqMkdirp (getInstallPath config b [p])) INSTALL_DIRS.

Definition rsync_request (config : BuildConfig) (b : Build) : request :=
  let from := Path.join [sandboxPath config; sourcePath b] in
  ReqSpawn "rsync"
    ["--archive"; if Str.ends_with_char "/" from then from else from +:+ "/";
     getBuildPath config b []].

(** Two path segments that are equal or are the staging tree against
    the final tree. *)
Definition tree_related (x y : string) : Prop :=
  x = y ∨ (x = "_insttmp" ∧ y = "_install").

(** Requests that only a rewrite task issues. *)
Definition rewrite_request (r : request) : bool :=
  match r with ReqStat _ | ReqReadFile _ => true | _ => false end.

(** [w'] is [w] after the requests [l]; no chain was started. *)
Definition extends (w w' : world) (l : list request) : Prop :=
  issued w' = issued w ++ l ∧ detached w' = detached w.

(** ** A concrete build graph and store *)

Module Scenario.
Definition package (i : string) (cmd : option (list string))
    (mutates : bool) (deps : list Build) : Build :=
  {| id := i; name := i; version := "1.0"; command := cmd;
     exportedEnv := []; sourcePath := "node_modules/" +:+ i;
     mutatesSourcePath := mutates; shouldBePersisted := true;
     dependencies := deps; errors := [] |}.

Definition L := package "L" None false [].
Definition A := package "A" (Some ["make install"]) false [L].
Definition B := package "B" None false [L].
Definition R := package "R" None false [A; B].
(** A chain: [T] depends on [A], which depends on [L]. *)
Definition T := package "T" None false [A].
(** A package without command that builds in its source tree. *)
Definition M := package "M" None true [].

Definition config := createConfig "/store" "/sb".

Definition sandbox (root : Build) : BuildSandbox :=
  {| sandbox_env := [ {| var_name := "CI"; var_value := None |};
                      {| var_name := "OCAMLFIND_CONF"; var_value := Some "findlib.conf" |} ];
     root := root |}.

(** The composed environment: here just the sandbox's global group. *)
Definition calculateEnvironment (config : BuildConfig) (b : Build)
    (env : list EnvironmentVar) : outcome Environment :=
  Done [ {| envVars := env |} ].

(** The install command of [A] writes a script that mentions its
    staging prefix twice; every other process changes nothing. *)
Definition marker : string :=
  "PREFIX=/store/_insttmp/A; LIB=/store/_insttmp/A/lib".

Definition run_process (r : request) (d : gmap string Fs.node)
    : outcome unit * gmap string Fs.node :=
  match r with
  | ReqExec _ _ =>
      (Done tt, <["/store/_insttmp/A/bin/marker" := Fs.File 493 marker]> d)
  | _ => (Done tt, d)
  end.

(** No removal fails: the path and everything below it are gone. *)
Definition rimraf (p : string) (d : gmap string Fs.node)
    : outcome unit * gmap string Fs.node :=
  (Done tt, Fs.rmtree p d).

Definition empty_world : world := {| disk := ∅; issued := []; detached := [] |}.

(** The store after [initStore]. *)
Definition fresh_store : world :=
  {| disk := {[ "/store" := Fs.Dir; "/store/_build" := Fs.Dir;
                "/store/_install" := Fs.Dir; "/store/_insttmp" := Fs.Dir ]};
     issued := []; detached := [] |}.

(** A store in which [L] is already installed. *)
Definition store_with_L : world :=
  {| disk := <["/store/_install/L" := Fs.Dir]> (disk fresh_store);
     issued := []; detached := [] |}.

(** The staged install of [A] right after its command has run. *)
Definition staged_A : world :=
  {| disk := {[ "/store" := Fs.Dir; "/store/_insttmp" := Fs.Dir;
                "/store/_insttmp/A" := Fs.Dir;
                "/store/_insttmp/A/bin" := Fs.Dir;
                "/store/_insttmp/A/bin/marker" := Fs.File 493 marker ]};
     issued := []; detached := [] |}.

Definition hash_disk : gmap string Fs.node :=
  {[ "/home/omefire/Folder" := Fs.Dir;
     "/home/omefire/Folder/.esy_hash" := Fs.File 420 "424dsaew23sdfasd" ]}.
End Scenario.

(** ** Traversal invariants *)

Abbreviation ids l := (map id l).

Definition queue_weight (q : list Build) : nat := list_sum (map Build_weight q).

(** The visitor applied to a sequence of builds, first to last. *)
Definition replay {S : Type} (f : Build → S → S) (s : S) (log : list Build) : S :=
  fold_left (λ s b, f b s) log s.

(** Loop invariant of [traverse]: [log] are the builds visited so far. *)
Record bfs_inv (root : Build) (queue log : list Build) : Prop := {
  bfs_nodup : NoDup (ids log);
  bfs_log_reachable : ∀ b, b ∈ log → reachable root b;
  bfs_queue_reachable : ∀ b, b ∈ queue → reachable root b;
  bfs_deps : ∀ v d, v ∈ log → d ∈ dependencies v → id d ∈ ids log ∨ d ∈ queue;
  bfs_root : id root ∈ ids log ∨ root ∈ queue;
}.

(** Invariant of [traverseDeepFirst]: [stack] holds the ids of the
    builds whose visit is in progress. *)
Record dfs_inv (root : Build) (stack seen : gset string) (log : list Build) : Prop := {
  dfs_seen : seen = list_to_set (ids log) ∪ stack;
  dfs_nodup : NoDup (ids log);
  dfs_deps_first : deps_first log;
  dfs_reachable : ∀ b, b ∈ log → reachable root b;
}.

(** One call of the inner function extends the log by builds in [scope]. *)
Definition dfs_step (root : Build) (scope : Build → Prop) (stack : gset string)
    (st st' : gset string * list Build) : Prop :=
  ∃ new, st'.2 = st.2 ++ new
    ∧ st'.1 = st.1 ∪ list_to_set (ids new)
    ∧ (∀ n, n ∈ new → scope n)
    ∧ dfs_inv root stack st'.1 st'.2.


(** ** util: objects and maps *)

(** A plain object is a finite map from property names to values.
    [obj] holds the enumerable properties that [for (const k in obj)]
    meets, inherited ones included, each with the value that [obj[k]]
    reads; the result holds the own properties of [nextObj].
    [nextObj] starts as [{}], so the assignment [nextObj[k] = …]
    creates an own property for every name but ["__proto__"]: that
    name reaches the setter of [Object.prototype] and creates no
    property.  (The prototype that the setter may give [nextObj] is
    not part of the model.) *)
Definition mapObject {S F : Type} (obj : gmap string S) (f : S → string → F)
    : gmap string F :=
  map_fold (λ k v nextObj,
              if decide (k = "__proto__") then nextObj
              else <[k := f v k]> nextObj) ∅ obj.

(** A [Map] may hold [null] ([None]) as a value, and [map.get] of an
    absent key is [undefined]; [existingValue == null] holds of both. *)
Definition setDefaultToMap {K : Type} `{Countable K} {V : Type}
    (map : gmap K (option V)) (key : K) (makeDefaultValue : unit → option V)
    : option V * gmap K (option V) :=
  let existingValue := mjoin (map !! key) in
  match existingValue with
  | None =>
      let value := makeDefaultValue tt in
      (value, <[key := value]> map)
  | Some _ => (existingValue, map)
  end.

(** ** buildEjectCommand/doesHashExist and saveHash *)

Definition doesHashExist (folderName : string) (d : gmap string Fs.node)
    : script_result :=
  let doesFileExist := Fs.exists_ (Path.join [folderName; ".esy_hash"]) d in
  if doesFileExist then Printed "true" else Printed "false".

(** The script prints nothing; it ends with the file written, or with
    the error of [writeFileSync] ([None]). *)
Definition saveHash (folderName hashToSave : string) (d : gmap string Fs.node)
    : option (gmap string Fs.node) :=
  let fileName := Path.join [folderName; ".esy_hash"] in
  Fs.writeFile fileName hashToSave d.

(** ** Alphabets of names *)

(** The characters of package names, [A-Za-z0-9@/._-]. *)
Definition package_name_char (c : ascii) : bool :=
  NameSpec.name_char c
  || (Nat.leb 65 (nat_of_ascii c) && Nat.leb (nat_of_ascii c) 90).

(** The characters of a lower-case identifier, [a-z0-9_]. *)
Definition identifier_char (c : ascii) : bool :=
  NameSpec.is_lower c || NameSpec.is_digit c || bool_decide (c = "_"%char).

(** ** The trees of a build *)

(** The generators of the three trees of a build. *)
Definition tree_paths (config : BuildConfig) : list (Build → list string → string) :=
  [getBuildPath config; getInstallPath config; getFinalInstallPath config].

(** ** Collaborators that fail *)

Module Broken.
(** Every build command exits with an error; no process changes the
    disk. *)
Definition run_process (r : request) (d : gmap string Fs.node)
    : outcome unit * gmap string Fs.node :=
  match r with
  | ReqExec _ _ => (Failed "exit 1", d)
  | _ => (Done tt, d)
  end.

(** The environment of the build with id [A] cannot be composed. *)
Definition calculateEnvironment (config : BuildConfig) (b : Build)
    (env : list EnvironmentVar) : outcome Environment :=
  if decide (id b = "A") then Failed "bad environment"
  else Done [ {| envVars := env |} ].

(** What exists cannot be removed: the removal of an existing path
    fails and removes nothing. *)
Definition rimraf (p : string) (d : gmap string Fs.node)
    : outcome unit * gmap string Fs.node :=
  if Fs.exists_ p d then (Failed "EPERM", d) else (Done tt, d).

(** A development build, which is never served from the cache, and a
    sandbox that holds an old install of it. *)
Definition D : Build :=
  {| id := "D"; name := "D"; version := "1.0"; command := None;
     exportedEnv := []; sourcePath := "node_modules/D";
     mutatesSourcePath := false; shouldBePersisted := false;
     dependencies := []; errors := [] |}.

Definition old_install : world :=
  {| disk := {[ "/sb" := Fs.Dir; "/sb/_esy" := Fs.Dir; "/sb/_esy/store" := Fs.Dir;
                "/sb/_esy/store/_install" := Fs.Dir;
                "/sb/_esy/store/_install/D" := Fs.Dir ]};
     issued := []; detached := [] |}.
End Broken.

(** ** Disk invariants of the builder *)

(** Nothing exists at [q] or below it. *)
Definition absent_below (q : string) (d : gmap string Fs.node) : Prop :=
  ∀ k, Fs.under q k = true → d !! k = None.

(** The computation keeps an invariant of the disk, whatever its
    outcome. *)
Definition keeps (P : gmap string Fs.node → Prop) {A : Type} (m : io A) : Prop :=
  ∀ w, P (disk w) → P (disk (m w).2).

(** When the computation fails, the invariant still holds. *)
Definition fails_within (P : gmap string Fs.node → Prop) {A : Type} (m : io A) : Prop :=
  ∀ w e w', P (disk w) → m w = (Failed e, w') → P (disk w').

(** When the computation succeeds, it ends in a world with [Q]. *)
Definition succeeds_with (Q : world → Prop) {A : Type} (m : io A) : Prop :=
  ∀ w a w', m w = (Done a, w') → Q w'.

(** A process that creates nothing at [q] or below it. *)
Definition process_spares (q : string)
    (run_process : request → gmap string Fs.node → outcome unit * gmap string Fs.node)
    : Prop :=
  ∀ r d, absent_below q d → absent_below q (run_process r d).2.

(** What the builder relies on from [rimraf]: it creates nothing, and
    when it succeeds nothing is left at the path or below it. *)
Definition rimraf_removes
    (rimraf : string → gmap string Fs.node → outcome unit * gmap string Fs.node)
    : Prop :=
  ∀ p d, (∀ k, d !! k = None → (rimraf p d).2 !! k = None)
         ∧ ((rimraf p d).1 = Done tt → absent_below p (rimraf p d).2).

(** ** makefile-builder (the ejecting builder) *)

(** A backslash. *)
Definition bs : string := String (ascii_of_nat 92) "".

Fixpoint skip_while (p : ascii → bool) (l : list ascii) : list ascii :=
  match l with
  | c :: rest => if p c then skip_while p rest else l
  | [] => []
  end.

(** [path.dirname] (POSIX flavour), after Node's algorithm: scanning
    from the end down to the second character, trailing separators are
    skipped and the separator before the last segment ends the
    directory. *)
Definition path_dirname (path : string) : string :=
  match list_ascii_of_string path with
  | [] => "."
  | first :: rest =>
      let hasRoot := bool_decide (first = "/"%char) in
      let segment := skip_while (λ c, bool_decide (c = "/"%char)) (rev rest) in
      let found := skip_while (λ c, negb (bool_decide (c = "/"%char))) segment in
      match found with
      | _ :: before =>
          if hasRoot && bool_decide (before = []) then "//"
          else string_of_list_ascii (first :: rev before)
      | [] => if hasRoot then "/" else "."
      end
  end.

(** What the right-hand side of [value || fallback] gives for a
    nullable string: [null] and the empty string are falsy. *)
Definition js_or (value : option string) (fallback : string) : string :=
  match value with
  | Some s => if decide (s = "") then fallback else s
  | None => fallback
  end.

Definition STORE_PATH : string := "$ESY_EJECT__STORE".
Definition SANDBOX_PATH : string := "$ESY_EJECT__SANDBOX".

(** The config of ejected builds: the store and the sandbox are the
    placeholders that are resolved when the Makefile runs. *)
Definition buildConfig : BuildConfig := createConfig STORE_PATH SANDBOX_PATH.

(** The items handed to [Makefile.renderMakefile], as the object
    literals of the builder make them. *)
Inductive rule_command :=
| CommandLine (line : string)
| CommandLines (lines : list string).

Inductive define_part :=
| DefineEnv (bindings : list (string * option string))
| DefineLine (line : string).

Inductive MakeItem :=
| MakeRaw (value : string)
| MakeRule (target : string) (prerequisites : option (list string)) (phony : bool)
    (shell : option string) (commands : option rule_command)
| MakeDefine (name : string) (value : list define_part).

Definition rule_target (item : MakeItem) : option string :=
  match item with MakeRule target _ _ _ _ => Some target | _ => None end.

Definition rule_prerequisites (item : MakeItem) : list string :=
  match item with MakeRule _ (Some deps) _ _ _ => deps | _ => [] end.

(** The calls of the synchronous file system interface ([mkdirp.sync],
    [fs.writeFileSync], [fs.chmodSync]), in the order in which they are
    made; each call is taken to return. *)
Inductive sync_call :=
| SyncMkdirp (p : string)
| SyncWriteFile (p contents : string)
| SyncChmod (p : string) (mode : N).

Record file_to_emit := mkFileToEmit {
  filename : list string;
  contents : string;
  executable : bool;
}.

Definition S_IRWXU : N := 448.

Definition emitFile (outputPath : string) (file : file_to_emit) : list sync_call :=
  let filename := Path.join (outputPath :: filename file) in
  [SyncMkdirp (path_dirname filename); SyncWriteFile filename (contents file)]
  ++ (if executable file then [SyncChmod filename S_IRWXU] else []).

Definition renderBuildCommand (build : Build) : option string :=
  match command build with
  | None => None
  | Some command => Some (Str.join " && " command)
  end.

Definition createBuildRuleName (build : Build) (target : string) : string :=
  name build +:+ "." +:+ target.

Definition createBuildRule (build : Build) (target command : string)
    (withBuildEnv : bool) : MakeItem :=
  let commands :=
    (if withBuildEnv
     then [Str.join nl
             [ "$(shell_env_for__" +:+ Util.normalizePackageName (name build) +:+ ") source $(ESY_EJECT__ROOT)/bin/runtime.sh";
               "cd $esy_build__source_root" ]]
     else [])
    ++ [command] in
  MakeRule (createBuildRuleName build target)
    (Some ("esy-store" :: "esy-root"
           :: map (λ dep, createBuildRuleName dep "build") (dependencies build)))
    true None (Some (CommandLines commands)).

(** The rules with which [ruleSet] starts. *)
Definition initial_ruleSet (sandbox : BuildSandbox) : list MakeItem :=
  [ MakeRaw "SHELL := env -i /bin/bash --norc --noprofile";
    MakeRaw "ESY_EJECT__ROOT := $(dir $(realpath $(lastword $(MAKEFILE_LIST))))";
    MakeRaw "ESY_EJECT__STORE ?= $(HOME)/.esy";
    MakeRaw "ESY_EJECT__SANDBOX ?= $(CURDIR)";
    MakeRule "build" (Some [createBuildRuleName (root sandbox) "build"]) true None None;
    MakeRule "build-shell" (Some [createBuildRuleName (root sandbox) "shell"]) true
      None None;
    MakeRule "clean" None true None
      (Some (CommandLine
        "rm -rf $(ESY_EJECT__SANDBOX)/_build $(ESY_EJECT__SANDBOX)/_install $(ESY_EJECT__SANDBOX)/_insttmp"));
    MakeRule
      (Str.join " "
         [ "$(ESY_EJECT__STORE)/_install";
           "$(ESY_EJECT__STORE)/_build";
           "$(ESY_EJECT__STORE)/_insttmp";
           "$(ESY_EJECT__SANDBOX)/_esy/store/_install";
           "$(ESY_EJECT__SANDBOX)/_esy/store/_insttmp";
           "$(ESY_EJECT__SANDBOX)/_esy/store/_build" ])
      None false None (Some (CommandLine "mkdir -p $(@)"));
    MakeRule "esy-store"
      (Some [ "$(ESY_EJECT__STORE)/_install";
              "$(ESY_EJECT__STORE)/_build";
              "$(ESY_EJECT__STORE)/_insttmp";
              "$(ESY_EJECT__SANDBOX)/_esy/store/_install";
              "$(ESY_EJECT__SANDBOX)/_esy/store/_insttmp";
              "$(ESY_EJECT__SANDBOX)/_esy/store/_build" ])
      true None None;
    MakeRule "$(ESY_EJECT__ROOT)/bin/realpath" (Some ["$(ESY_EJECT__ROOT)/bin/realpath.c"])
      false (Some "/bin/bash") (Some (CommandLine "gcc -o $(@) -x c $(<) 2> /dev/null"));
    MakeRule "esy-root" (Some ["$(ESY_EJECT__ROOT)/bin/realpath"]) true None None ].

(** The contents of [bin/replace-string]. *)
Definition replace_string_script : string :=
  Str.join nl
    [ "#!/usr/bin/env python2";
      "";
      "import sys";
      "import os";
      "import stat";
      "";
      "filename, src, dest = sys.argv[1:4]";
      "filename_stage = filename + '.esy_rewrite'";
      "";
      "filestat = os.stat(filename)";
      "";
      "# TODO: we probably should handle symlinks too in a special way,";
      "# to modify their location to a rewritten path";
      "";
      "with open(filename, 'r') as input_file:";
      "  data = input_file.read()";
      "";
      "data = data.replace(src, dest)";
      "";
      "with open(filename_stage, 'w') as output_file:";
      "  output_file.write(data)";
      "";
      "os.rename(filename_stage, filename)";
      "os.chmod(filename, stat.S_IMODE(filestat.st_mode))" ].

(** The contents of [bin/render-env]. *)
Definition render_env_script : string :=
  Str.join nl
    [ "#!/bin/bash";
      "";
      "set -e";
      "set -o pipefail";
      "";
      "_TMPDIR_GLOBAL=$($ESY_EJECT__ROOT/bin/realpath " +:+ dq +:+ "/tmp" +:+ dq +:+ ")";
      "";
      "if [ -d " +:+ dq +:+ "$TMPDIR" +:+ dq +:+ " ]; then";
      "  _TMPDIR=$($ESY_EJECT__ROOT/bin/realpath " +:+ dq +:+ "$TMPDIR" +:+ dq +:+ ")";
      "else";
      "  _TMPDIR=" +:+ dq +:+ "/does/not/exist" +:+ dq;
      "fi";
      "";
      "sed " +:+ bs;
      "  -e " +:+ dq +:+ "s|" +:+ bs +:+ "$ESY_EJECT__STORE|$ESY_EJECT__STORE|g" +:+ dq +:+ "          " +:+ bs;
      "  -e " +:+ dq +:+ "s|" +:+ bs +:+ "$ESY_EJECT__SANDBOX|$ESY_EJECT__SANDBOX|g" +:+ dq +:+ "      " +:+ bs;
      "  -e " +:+ dq +:+ "s|" +:+ bs +:+ "$ESY_EJECT__ROOT|$ESY_EJECT__ROOT|g" +:+ dq +:+ "      " +:+ bs;
      "  -e " +:+ dq +:+ "s|" +:+ bs +:+ "$TMPDIR_GLOBAL|$_TMPDIR_GLOBAL|g" +:+ dq +:+ "   " +:+ bs;
      "  -e " +:+ dq +:+ "s|" +:+ bs +:+ "$TMPDIR|$_TMPDIR|g" +:+ dq +:+ "                 " +:+ bs;
      "  $1 > $2" ].

(** The contents of [bin/realpath.c]. *)
Definition realpath_source : string :=
  Str.join nl
    [ "#include<stdlib.h>";
      "";
      "main(int cc, char**vargs) {";
      "  puts(realpath(vargs[1], 0));";
      "  exit(0);";
      "}" ].

(** The state of one run of [renderToMakefile]: the rule set, the
    file system calls made so far, and the exception that ended the
    run, if any. *)
Record eject := mkEject {
  ruleSet : list MakeItem;
  calls : list sync_call;
  thrown : option string;
}.

(** A statement that runs only while no exception is pending. *)
Definition running (f : eject → eject) (st : eject) : eject :=
  match thrown st with
  | Some _ => st
  | None => f st
  end.

Definition throw (e : string) (st : eject) : eject :=
  {| ruleSet := ruleSet st; calls := calls st; thrown := Some e |}.

Definition emit (outputPath : string) (file : file_to_emit) (st : eject) : eject :=
  {| ruleSet := ruleSet st; calls := calls st ++ emitFile outputPath file;
     thrown := thrown st |}.

Definition push (item : MakeItem) (st : eject) : eject :=
  {| ruleSet := ruleSet st ++ [item]; calls := calls st; thrown := thrown st |}.

Section MakefileBuilder.
(** Collaborators that are not part of the sources: the environment
    composer, the [CI] variable of the process environment, the
    contents of [runtime.sh], and the Makefile writer. *)
Variable calculateEnvironment :
  BuildConfig → Build → list EnvironmentVar → outcome Environment.
Variable env_CI : option string.
Variable RUNTIME : string.
Variable renderMakefile : list MakeItem → string.

Definition packagePath (build : Build) : list string :=
  filter (λ s, s ≠ "") (Str.split "/" (sourcePath build)).

(** The [define] item of a build. *)
Definition shell_env_define (build : Build) : MakeItem :=
  MakeDefine ("shell_env_for__" +:+ Util.normalizePackageName (name build))
    [ DefineEnv
        [ ("CI", match env_CI with
                 | Some ci => if decide (ci = "") then None else Some ci
                 | None => None
                 end);
          ("TMPDIR", Some "$(TMPDIR)");
          ("ESY_EJECT__STORE", Some "$(ESY_EJECT__STORE)");
          ("ESY_EJECT__SANDBOX", Some "$(ESY_EJECT__SANDBOX)");
          ("ESY_EJECT__ROOT", Some "$(ESY_EJECT__ROOT)") ];
      DefineLine ("source $(ESY_EJECT__ROOT)/" +:+ Str.join "/" (packagePath build)
                  +:+ "/eject-env");
      DefineEnv
        [ ("esy_build__eject",
           Some ("$(ESY_EJECT__ROOT)/" +:+ Str.join "/" (packagePath build)));
          ("esy_build__type",
           Some (if mutatesSourcePath build then "in-source" else "out-of-source"));
          ("esy_build__key", Some (id build));
          ("esy_build__command", Some (js_or (renderBuildCommand build) "true"));
          ("esy_build__source_root",
           Some (Path.join [sandboxPath buildConfig; sourcePath build]));
          ("esy_build__install", Some (getFinalInstallPath buildConfig build [])) ] ].

Definition visitBuild (sandbox : BuildSandbox) (outputPath : string)
    (build : Build) (st : eject) : eject :=
  let emitBuildFile (filename contents : string) :=
    emit outputPath {| filename := packagePath build ++ [filename];
                       contents := contents; executable := false |} in
  (* Emit env *)
  match calculateEnvironment buildConfig build (sandbox_env sandbox) with
  | Failed e => throw e st
  | Done env =>
      let st := emitBuildFile "eject-env" (renderEnv env) st in
      (* Emit findlib.conf.in *)
      match collectTransitiveDependencies build with
      | None => throw "traverse" st
      | Some allDependencies =>
          let findLibDestination := getInstallPath buildConfig build ["lib"] in
          let findLibPath :=
            Str.join ":"
              (map (λ dep, getFinalInstallPath buildConfig dep ["lib"]) allDependencies
               ++ [findLibDestination]) in
          let st :=
            emitBuildFile "findlib.conf.in"
              (Str.join nl
                 [ "path = " +:+ dq +:+ findLibPath +:+ dq;
                   "destdir = " +:+ dq +:+ findLibDestination +:+ dq;
                   "ldconf = " +:+ dq +:+ "ignore" +:+ dq;
                   "ocamlc = " +:+ dq +:+ "ocamlc.opt" +:+ dq;
                   "ocamldep = " +:+ dq +:+ "ocamldep.opt" +:+ dq;
                   "ocamldoc = " +:+ dq +:+ "ocamldoc.opt" +:+ dq;
                   "ocamllex = " +:+ dq +:+ "ocamllex.opt" +:+ dq;
                   "ocamlopt = " +:+ dq +:+ "ocamlopt.opt" +:+ dq ]) st in
          let st :=
            emitBuildFile "sandbox.sb.in"
              (Str.join nl
                 [ "(version 1.0)";
                   "(allow default)";
                   "";
                   "(deny file-write*";
                   "  (subpath " +:+ dq +:+ "/" +:+ dq +:+ "))";
                   "";
                   "(allow file-write*";
                   "  (literal " +:+ dq +:+ "/dev/null" +:+ dq +:+ ")";
                   "";
                   "  (subpath " +:+ dq +:+ "$TMPDIR_GLOBAL" +:+ dq +:+ ")";
                   "  (subpath " +:+ dq +:+ "$TMPDIR" +:+ dq +:+ ")";
                   "";
                   "  ; cur__root";
                   "  ; We don't really need to write into cur__root but some build systems";
                   "  ; can put .merlin files there so we allow that.";
                   "  (subpath " +:+ dq +:+ getRootPath buildConfig build [] +:+ dq +:+ ")";
                   "";
                   "  ; cur__target_dir";
                   "  (subpath " +:+ dq +:+ getBuildPath buildConfig build [] +:+ dq +:+ ")";
                   "";
                   "  ; cur__install";
                   "  (subpath " +:+ dq +:+ getInstallPath buildConfig build [] +:+ dq +:+ ")";
                   ")";
                   "";
                   "(deny file-write*";
                   "  (subpath " +:+ dq +:+ getRootPath buildConfig build ["node_modules"] +:+ dq +:+ ")";
                   ")" ]) st in
          let st := push (shell_env_define build) st in
          let st := push (createBuildRule build "build" "esy-build" true) st in
          let st := push (createBuildRule build "shell" "esy-shell" true) st in
          push (createBuildRule build "clean" "esy-clean" false) st
      end
  end.

(** Render the builds of the sandbox as a Makefile and its related
    files into [outputPath]. *)
Definition renderToMakefile (sandbox : BuildSandbox) (outputPath : string)
    : option eject :=
  let st := {| ruleSet := initial_ruleSet sandbox; calls := []; thrown := None |} in
  (* Emit build artefacts for packages *)
  st ← traverse (λ build, running (visitBuild sandbox outputPath build))
         (root sandbox) st;
  (* Now emit all build-wise artefacts *)
  Some (running
    (λ st,
       let st := emit outputPath {| filename := ["bin/replace-string"];
                                    contents := replace_string_script;
                                    executable := true |} st in
       let st := emit outputPath {| filename := ["bin/render-env"];
                                    contents := render_env_script;
                                    executable := true |} st in
       let st := emit outputPath {| filename := ["bin"; "realpath.c"];
                                    contents := realpath_source;
                                    executable := false |} st in
       let st := emit outputPath {| filename := ["bin"; "runtime.sh"];
                                    contents := RUNTIME;
                                    executable := false |} st in
       emit outputPath {| filename := ["Makefile"];
                          contents := renderMakefile (ruleSet st);
                          executable := false |} st)
    st).

End MakefileBuilder.

(** The items pushed for one build. *)
Definition build_items (env_CI : option string) (build : Build) : list MakeItem :=
  [ shell_env_define env_CI build;
    createBuildRule build "build" "esy-build" true;
    createBuildRule build "shell" "esy-shell" true;
    createBuildRule build "clean" "esy-clean" false ].

(** The paths written and the paths made executable by a sequence of
    calls. *)
Definition written_paths (cs : list sync_call) : list string :=
  omap (λ c, match c with SyncWriteFile p _ => Some p | _ => None end) cs.

Definition chmod_paths (cs : list sync_call) : list (string * N) :=
  omap (λ c, match c with SyncChmod p mode => Some (p, mode) | _ => None end) cs.

(** The files of one build, and the files shared by all builds. *)
Definition build_file_paths (outputPath : string) (build : Build) : list string :=
  map (λ f, Path.join (outputPath :: packagePath build ++ [f]))
    ["eject-env"; "findlib.conf.in"; "sandbox.sb.in"].

Definition shared_file_paths (outputPath : string) : list string :=
  map (λ f, Path.join (outputPath :: f))
    [ ["bin/replace-string"]; ["bin/render-env"]; ["bin"; "realpath.c"];
      ["bin"; "runtime.sh"]; ["Makefile"] ].

(** The value bound to [key] in the environment parts of a [define]
    item. *)
Definition define_binding (key : string) (item : MakeItem) : option (option string) :=
  match item with
  | MakeDefine _ parts =>
      list_find (λ kv : string * option string, kv.1 = key)
        (flat_map (λ part, match part with
                           | DefineEnv bindings => bindings
                           | DefineLine _ => []
                           end) parts)
      ≫= λ found, Some found.2.2
  | _ => None
  end.

(** * Properties *)

#[local] Set Warnings "-clear-no-such-hyp".


Example path_join_ex1 : Path.join ["/store"; "_install"; "abc"; "lib"] = "/store/_install/abc/lib".
Proof. reflexivity. Qed.
Example path_join_ex2 : Path.join ["$ESY_EJECT__SANDBOX"; "_esy"; "store"] = "$ESY_EJECT__SANDBOX/_esy/store".
Proof. reflexivity. Qed.
Example path_join_ex3 : Path.join ["/a/b/"; "../c"; ""; "./d/"] = "/a/c/d/".
Proof. reflexivity. Qed.
Example path_join_ex4 : Path.join ["a"; ".."; ".."; "b"] = "../b".
Proof. reflexivity. Qed.
Example path_join_ex5 : Path.join ["/"; ".."; "x"] = "/x".
Proof. reflexivity. Qed.

(** ** Byte strings *)

Lemma str_app_cons (x : ascii) (a b : string) : String x a +:+ b = String x (a +:+ b).
Proof. reflexivity. Qed.

Lemma str_app_nil (b : string) : "" +:+ b = b.
Proof. reflexivity. Qed.

Lemma str_app_nil_r (a : string) : a +:+ "" = a.
Proof. induction a as [|x a IH]; [reflexivity|]. now rewrite str_app_cons, IH. Qed.

Lemma str_app_assoc (a b c : string) : (a +:+ b) +:+ c = a +:+ (b +:+ c).
Proof.
  induction a as [|x a IH]; [reflexivity|]. rewrite !str_app_cons. now rewrite IH.
Qed.

Lemma str_take_drop (n : nat) (s : string) : Str.take n s +:+ Str.drop n s = s.
Proof.
  revert s. induction n as [|n IH]; intros [|c s]; try reflexivity.
  cbn [Str.take Str.drop]. rewrite str_app_cons. now rewrite IH.
Qed.

Lemma str_take_all (n : nat) (s : string) : String.length s ≤ n → Str.take n s = s.
Proof.
  revert s. induction n as [|n IH]; intros [|c s] H; try reflexivity.
  - cbn in H. lia.
  - cbn [Str.take]. rewrite IH; [reflexivity|]. cbn in H. lia.
Qed.

Lemma str_length_app (a b : string) :
  String.length (a +:+ b) = String.length a + String.length b.
Proof.
  induction a as [|c a IH]; [reflexivity|]. rewrite str_app_cons. cbn. now rewrite IH.
Qed.

Lemma str_length_drop (n : nat) (s : string) :
  String.length (Str.drop n s) = String.length s - n.
Proof.
  revert s. induction n as [|n IH]; intros [|c s]; cbn; try lia. apply IH.
Qed.

Lemma str_drop_drop (n m : nat) (s : string) :
  Str.drop n (Str.drop m s) = Str.drop (m + n) s.
Proof.
  revert s. induction m as [|m IH]; intros s; [reflexivity|].
  destruct s as [|c s]; [now destruct n|]. cbn [Str.drop Nat.add]. apply IH.
Qed.

Lemma starts_with_split (needle s : string) :
  Str.starts_with needle s = true →
  s = needle +:+ Str.drop (String.length needle) s.
Proof.
  revert s. induction needle as [|a needle IH]; intros s H; [reflexivity|].
  destruct s as [|b s]; [discriminate H|]. cbn [Str.starts_with] in H.
  case_decide as E; [subst b|discriminate H].
  rewrite str_app_cons. cbn [String.length Str.drop]. now rewrite <- IH.
Qed.

Lemma starts_with_length (needle s : string) :
  Str.starts_with needle s = true → String.length needle ≤ String.length s.
Proof.
  revert s. induction needle as [|a needle IH]; intros s H; [cbn; lia|].
  destruct s as [|b s]; [discriminate H|]. cbn [Str.starts_with] in H.
  case_decide; [|discriminate H]. cbn. apply IH in H. lia.
Qed.

(** [find_from] returns the first position at which [needle] starts. *)
Lemma find_from_first (needle hay : string) : ∀ pos n,
  Str.find_from needle hay pos = Some n →
  ∃ k, n = pos + k
    ∧ Str.starts_with needle (Str.drop k hay) = true
    ∧ ∀ j, j < k → Str.starts_with needle (Str.drop j hay) = false.
Proof.
  induction hay as [|c hay IH]; intros pos n; cbn [Str.find_from].
  - destruct (Str.starts_with needle "") eqn:E; [|discriminate].
    intros [= <-]. exists 0. rewrite Nat.add_0_r. split; [reflexivity|].
    split; [exact E|]. intros j Hj. lia.
  - destruct (Str.starts_with needle (String c hay)) eqn:E.
    + intros [= <-]. exists 0. rewrite Nat.add_0_r. split; [reflexivity|].
      split; [exact E|]. intros j Hj. lia.
    + intros H. apply IH in H as (k & -> & Hk & Hfirst). exists (S k).
      split; [lia|]. split; [exact Hk|].
      intros [|j] Hj; [exact E|]. apply Hfirst. lia.
Qed.

Lemma find_from_none (needle hay : string) : ∀ pos,
  Str.find_from needle hay pos = None →
  ∀ j, Str.starts_with needle (Str.drop j hay) = false.
Proof.
  induction hay as [|c hay IH]; intros pos; cbn [Str.find_from].
  - destruct (Str.starts_with needle "") eqn:E; [discriminate|].
    intros _ [|j]; exact E.
  - destruct (Str.starts_with needle (String c hay)) eqn:E; [discriminate|].
    intros H [|j]; [exact E|]. cbn [Str.drop]. eapply IH; eauto.
Qed.

(** What [content.indexOf(origPath)] followed by
    [content.write(destPath, offset)] does when both paths have the
    same length: the first occurrence is replaced, every other byte
    stays. *)
Lemma buffer_write_first_occurrence (content orig dest : string) (k : nat) :
  Str.indexOf content orig = Z.of_nat k →
  String.length dest = String.length orig →
  content = Str.take k content +:+ orig
            +:+ Str.drop (k + String.length orig) content
  ∧ buffer_write content dest k
    = Str.take k content +:+ dest
      +:+ Str.drop (k + String.length orig) content
  ∧ ∀ j, j < k → Str.starts_with orig (Str.drop j content) = false.
Proof.
  unfold Str.indexOf. intros Hidx Hlen.
  destruct (Str.find_from orig content 0) as [n|] eqn:E; [|lia].
  apply Nat2Z.inj in Hidx as ->.
  apply find_from_first in E as (k' & -> & Hk & Hfirst). cbn [Nat.add] in *.
  pose proof (starts_with_split _ _ Hk) as Hsplit.
  pose proof (starts_with_length _ _ Hk) as Hl.
  rewrite str_drop_drop in Hsplit.
  split; [|split; [|exact Hfirst]].
  - rewrite <- Hsplit. symmetry. apply str_take_drop.
  - unfold buffer_write. rewrite Hlen. f_equal. f_equal.
    apply str_take_all.
    rewrite str_length_drop in Hl. lia.
Qed.

Lemma free_of_app c a b : Str.free_of c (a +:+ b) = Str.free_of c a && Str.free_of c b.
Proof.
  unfold Str.free_of. induction a as [|x a IH]; [reflexivity|].
  rewrite str_app_cons. cbn [Str.forallb]. now rewrite IH, andb_assoc.
Qed.

Lemma split_free c s : Str.free_of c s = true → Str.split c s = [s].
Proof.
  unfold Str.free_of. induction s as [|x s IH]; [reflexivity|].
  cbn [Str.forallb Str.split]. intros [Hx Hs]%andb_prop.
  rewrite decide_False by (intros ->; now rewrite bool_decide_eq_true_2 in Hx).
  now rewrite IH.
Qed.

Lemma split_app_sep c a rest :
  Str.free_of c a = true →
  Str.split c (a +:+ String c rest) = a :: Str.split c rest.
Proof.
  unfold Str.free_of. induction a as [|x a IH]; intros H.
  - rewrite str_app_nil. cbn [Str.split]. now rewrite decide_True.
  - cbn [Str.forallb] in H. apply andb_prop in H as [Hx Ha].
    rewrite str_app_cons. cbn [Str.split].
    rewrite decide_False by (intros ->; now rewrite bool_decide_eq_true_2 in Hx).
    now rewrite IH.
Qed.

Lemma split_join c (l : list string) :
  l ≠ [] → Forall (λ s, Str.free_of c s = true) l →
  Str.split c (Str.join (String c "") l) = l.
Proof.
  intros Hne Hall. induction Hall as [|x l Hx Hl IH]; [contradiction|].
  destruct l as [|y l].
  - cbn. now apply split_free.
  - change (Str.join (String c "") (x :: y :: l))
      with (x +:+ String c "" +:+ Str.join (String c "") (y :: l)).
    rewrite str_app_cons, str_app_nil, split_app_sep by exact Hx.
    now rewrite IH.
Qed.

(** ** Path scheme *)

(** *** Staging and final install paths have the same length *)

Lemma split_nonempty c s : Str.split c s ≠ [].
Proof.
  destruct s as [|x s]; cbn [Str.split]; [discriminate|].
  case_decide; [discriminate|]. destruct (Str.split c s); discriminate.
Qed.

(** Splitting at an explicit separator. *)
Lemma split_at_sep c a b :
  Str.split c (a +:+ String c b) = Str.split c a ++ Str.split c b.
Proof.
  induction a as [|x a IH].
  - rewrite str_app_nil. cbn [Str.split]. now rewrite decide_True.
  - rewrite str_app_cons. cbn [Str.split]. rewrite IH.
    case_decide; [reflexivity|].
    pose proof (split_nonempty c a). destruct (Str.split c a); [contradiction|reflexivity].
Qed.

Lemma normalize_step_related allow seg (s1 s2 : list string) :
  Forall2 tree_related s1 s2 →
  Forall2 tree_related (Path.normalize_step allow s1 seg)
                       (Path.normalize_step allow s2 seg).
Proof.
  intros H. unfold Path.normalize_step.
  destruct (decide (seg = "")); [exact H|].
  destruct (decide (seg = ".")); [exact H|].
  destruct (decide (seg = "..")).
  - destruct H as [|x y s1 s2 Hxy H]; [destruct allow; repeat constructor|].
    assert (x = ".." ↔ y = "..") as Hdd.
    { destruct Hxy as [->|[-> ->]]; [tauto|]. split; discriminate. }
    destruct (decide (x = "..")) as [Hx|Hx], (decide (y = "..")) as [Hy|Hy];
      try tauto.
    destruct allow; [|now constructor]. constructor; [now left|now constructor].
  - constructor; [now left|exact H].
Qed.

Lemma fold_normalize_related allow segs : ∀ s1 s2,
  Forall2 tree_related s1 s2 →
  Forall2 tree_related (fold_left (Path.normalize_step allow) segs s1)
                       (fold_left (Path.normalize_step allow) segs s2).
Proof.
  induction segs as [|seg segs IH]; intros s1 s2 H; [exact H|].
  cbn [fold_left]. apply IH. now apply normalize_step_related.
Qed.

Lemma Forall2_rev {A} (R : A → A → Prop) (l k : list A) :
  Forall2 R l k → Forall2 R (rev l) (rev k).
Proof.
  induction 1 as [|x y l k Hxy H IH]; [constructor|].
  cbn [rev]. apply Forall2_app; [exact IH|]. now repeat constructor.
Qed.

Lemma join_related_length (l1 l2 : list string) :
  Forall2 tree_related l1 l2 →
  String.length (Str.join "/" l1) = String.length (Str.join "/" l2).
Proof.
  induction 1 as [|x y l1 l2 Hxy H IH]; [reflexivity|].
  assert (String.length x = String.length y) as Hl
    by (destruct Hxy as [->|[-> ->]]; reflexivity).
  destruct H as [|x' y' l1 l2 Hxy' H]; [exact Hl|].
  change (Str.join "/" (x :: x' :: l1)) with (x +:+ "/" +:+ Str.join "/" (x' :: l1)).
  change (Str.join "/" (y :: y' :: l2)) with (y +:+ "/" +:+ Str.join "/" (y' :: l2)).
  rewrite !str_length_app, Hl, IH. reflexivity.
Qed.

Lemma head_char_app (a b : string) (c : ascii) :
  a ≠ "" → Str.starts_with (String c "") (a +:+ b) = Str.starts_with (String c "") a.
Proof. destruct a as [|x a]; [contradiction|]. intros _. reflexivity. Qed.

Lemma ends_with_char_app (a b : string) (c : ascii) :
  b ≠ "" → Str.ends_with_char c (a +:+ b) = Str.ends_with_char c b.
Proof.
  intros Hb. induction a as [|x a IH]; [reflexivity|].
  rewrite str_app_cons. cbn [Str.ends_with_char]. rewrite IH.
  destruct (a +:+ b) eqn:E; [|reflexivity].
  destruct a; [cbn in E; contradiction|discriminate E].
Qed.

(** The normalised join of [pre ++ tree ++ post] for the two trees. *)
Lemma normalize_tree_length (P Q : string) :
  (P = "" ∨ ∃ p, P = p +:+ "/") → (Q = "" ∨ ∃ q, Q = String "/" q) →
  String.length (Path.normalize (P +:+ "_insttmp" +:+ Q))
  = String.length (Path.normalize (P +:+ "_install" +:+ Q)).
Proof.
  intros HP HQ.
  assert (∃ SP SQ, ∀ tree, tree = "_insttmp" ∨ tree = "_install" →
            Str.split "/" (P +:+ tree +:+ Q) = SP ++ tree :: SQ)
    as (SP & SQ & Hsplit).
  { assert (∀ tree, tree = "_insttmp" ∨ tree = "_install" →
              Str.split "/" (tree +:+ Q) = tree :: tail (Str.split "/" Q)) as HtQ.
    { intros tree Htree. destruct HQ as [->|(q & ->)].
      - destruct Htree as [->| ->]; reflexivity.
      - rewrite split_at_sep. destruct Htree as [->| ->]; reflexivity. }
    destruct HP as [->|(p & ->)].
    - exists [], (tail (Str.split "/" Q)). intros tree Htree.
      rewrite str_app_nil. now apply HtQ.
    - exists (Str.split "/" p), (tail (Str.split "/" Q)). intros tree Htree.
      rewrite str_app_assoc, str_app_cons, str_app_nil, split_at_sep.
      now rewrite HtQ. }
  pose proof (Hsplit "_insttmp" ltac:(now left)) as E1.
  pose proof (Hsplit "_install" ltac:(now right)) as E2.
  clear Hsplit.
  assert (Str.starts_with "/" (P +:+ "_insttmp" +:+ Q)
          = Str.starts_with "/" (P +:+ "_install" +:+ Q)) as Habs.
  { destruct P; reflexivity. }
  assert (Str.ends_with_char "/" (P +:+ "_insttmp" +:+ Q)
          = Str.ends_with_char "/" (P +:+ "_install" +:+ Q)) as Htr.
  { destruct HQ as [->|(q & ->)].
    - change ("_insttmp" +:+ "") with "_insttmp".
      change ("_install" +:+ "") with "_install".
      rewrite !ends_with_char_app by discriminate. reflexivity.
    - rewrite <- !str_app_assoc.
      rewrite (ends_with_char_app _ (String "/" q)), (ends_with_char_app _ (String "/" q))
        by discriminate. reflexivity. }
  assert (∀ allow,
            String.length (Path.normalizeString (P +:+ "_insttmp" +:+ Q) allow)
            = String.length (Path.normalizeString (P +:+ "_install" +:+ Q) allow)) as Hns.
  { intros allow. unfold Path.normalizeString. rewrite E1, E2.
    apply join_related_length.
    apply Forall2_rev. rewrite !fold_left_app. cbn [fold_left].
    apply fold_normalize_related.
    unfold Path.normalize_step at 1 3.
    repeat (rewrite decide_False by discriminate).
    constructor; [right; split; reflexivity|].
    apply Forall_Forall2_diag, Forall_forall. intros x _. now left. }
  unfold Path.normalize.
  rewrite (decide_False (P := P +:+ "_insttmp" +:+ Q = "")) by (destruct P; discriminate).
  rewrite (decide_False (P := P +:+ "_install" +:+ Q = "")) by (destruct P; discriminate).
  cbn zeta. rewrite Habs, Htr.
  specialize (Hns (negb (Str.starts_with "/" (P +:+ "_install" +:+ Q)))).
  set (abs := Str.starts_with "/" (P +:+ "_install" +:+ Q)) in *.
  set (tr := Str.ends_with_char "/" (P +:+ "_install" +:+ Q)) in *.
  set (n1 := Path.normalizeString (P +:+ "_insttmp" +:+ Q) (negb abs)) in *.
  set (n2 := Path.normalizeString (P +:+ "_install" +:+ Q) (negb abs)) in *.
  clearbody n1 n2 abs tr.
  destruct (decide (n1 = "")) as [->|N1], (decide (n2 = "")) as [->|N2].
  - reflexivity.
  - destruct n2; [contradiction|discriminate Hns].
  - destruct n1; [contradiction|discriminate Hns].
  - destruct abs, tr; rewrite ?str_app_cons, ?str_app_nil; cbn [String.length];
      rewrite ?str_length_app, Hns; reflexivity.
Qed.

Lemma filter_nonempty3 (base tree i : string) :
  tree ≠ "" →
  filter (λ a : string, a ≠ "") [base; tree; i]
  = (if decide (base = "") then [] else [base]) ++ [tree]
    ++ (if decide (i = "") then [] else [i]).
Proof.
  intros Ht.
  destruct (decide (base = "")) as [->|Hb], (decide (i = "")) as [->|Hi];
    repeat first [ rewrite filter_cons_True by assumption
                 | rewrite filter_cons_False by tauto
                 | rewrite filter_nil ];
    reflexivity.
Qed.

Lemma join_tree_length (base i : string) :
  String.length (Path.join [base; "_insttmp"; i])
  = String.length (Path.join [base; "_install"; i]).
Proof.
  unfold Path.join. rewrite !filter_nonempty3 by discriminate.
  destruct (decide (base = "")) as [->|Hb], (decide (i = "")) as [->|Hi];
    cbn [app].
  - reflexivity.
  - change (Str.join "/" ["_insttmp"; i]) with ("" +:+ "_insttmp" +:+ String "/" i).
    change (Str.join "/" ["_install"; i]) with ("" +:+ "_install" +:+ String "/" i).
    apply normalize_tree_length; [now left|right; eauto].
  - replace (Str.join "/" [base; "_insttmp"]) with ((base +:+ "/") +:+ "_insttmp" +:+ "")
      by (cbn; now rewrite str_app_assoc).
    replace (Str.join "/" [base; "_install"]) with ((base +:+ "/") +:+ "_install" +:+ "")
      by (cbn; now rewrite str_app_assoc).
    apply normalize_tree_length; [right; eauto|now left].
  - replace (Str.join "/" [base; "_insttmp"; i])
      with ((base +:+ "/") +:+ "_insttmp" +:+ String "/" i)
      by (cbn; now rewrite !str_app_assoc).
    replace (Str.join "/" [base; "_install"; i])
      with ((base +:+ "/") +:+ "_install" +:+ String "/" i)
      by (cbn; now rewrite !str_app_assoc).
    apply normalize_tree_length; [right; eauto|right; eauto].
Qed.

(** The staging and the final install path of a build have the same
    length, so the in-place overwrite of the rewrite step covers
    exactly the occurrence it found. *)
Lemma install_paths_same_length (store sandbox : string) (b : Build) :
  String.length (getInstallPath (createConfig store sandbox) b [])
  = String.length (getFinalInstallPath (createConfig store sandbox) b []).
Proof.
  cbn [createConfig getInstallPath getFinalInstallPath].
  destruct (shouldBePersisted b); apply join_tree_length.
Qed.

Lemma createConfig_paths (store sandbox : string) :
  storePath (createConfig store sandbox) = store
  ∧ sandboxPath (createConfig store sandbox) = sandbox.
Proof. split; reflexivity. Qed.

(** ** Environment rendering *)

Lemma var_lines_filter_map (vars : list EnvironmentVar) :
  map (λ env, "export " +:+ var_name env +:+ "=" +:+ dq
               +:+ template_value (var_value env) +:+ dq +:+ ";")
      (filter (λ env, var_value env ≠ None) vars)
  = EnvSpec.var_lines vars.
Proof.
  induction vars as [|v vars IH]; [reflexivity|].
  destruct v as [n [x|]]; cbn [EnvSpec.var_lines var_value var_name].
  - rewrite filter_cons_True by (cbn; congruence).
    cbn [map var_name var_value template_value default].
    unfold EnvSpec.export_line. now rewrite IH.
  - rewrite filter_cons_False by (cbn; tauto). exact IH.
Qed.

Lemma var_lines_app (xs ys : list EnvironmentVar) :
  EnvSpec.var_lines (xs ++ ys) = EnvSpec.var_lines xs ++ EnvSpec.var_lines ys.
Proof.
  induction xs as [|x xs IH]; [reflexivity|].
  cbn [app EnvSpec.var_lines]. destruct (var_value x); rewrite IH; reflexivity.
Qed.

Lemma lines_flatten (groups : Environment) :
  EnvSpec.var_lines (flattenArray (map envVars groups)) = EnvSpec.lines groups.
Proof.
  induction groups as [|g groups IH]; [reflexivity|].
  unfold flattenArray in *. cbn [map concat EnvSpec.lines].
  now rewrite var_lines_app, IH.
Qed.

Lemma renderEnv_join (groups : Environment) :
  renderEnv groups = Str.join nl (EnvSpec.lines groups).
Proof. unfold renderEnv. now rewrite var_lines_filter_map, lines_flatten. Qed.

(** When no name and no value contains a newline, the rendering has
    exactly one line per variable with a value. *)
Lemma renderEnv_one_line_each (groups : Environment) :
  (∀ v, v ∈ concat (map envVars groups) →
        Str.free_of (ascii_of_nat 10) (var_name v) = true
        ∧ ∀ value, var_value v = Some value → Str.free_of (ascii_of_nat 10) value = true) →
  EnvSpec.lines groups ≠ [] →
  Str.split (ascii_of_nat 10) (renderEnv groups) = EnvSpec.lines groups.
Proof.
  intros Hfree Hne.
  rewrite renderEnv_join.
  apply split_join; [exact Hne|].
  rewrite <- lines_flatten. unfold flattenArray.
  induction (concat (map envVars groups)) as [|v vars IH]; [constructor|].
  cbn [EnvSpec.var_lines].
  assert (Forall (λ s, Str.free_of (ascii_of_nat 10) s = true) (EnvSpec.var_lines vars)) as Hrest
    by (apply IH; intros v' Hv'; apply Hfree; now right).
  destruct (var_value v) as [value|] eqn:E; [|exact Hrest].
  constructor; [|exact Hrest].
  destruct (Hfree v ltac:(left)) as [Hn Hv]. specialize (Hv value E).
  unfold EnvSpec.export_line. rewrite !free_of_app, Hn, Hv. reflexivity.
Qed.

Lemma var_lines_nonempty (vars : list EnvironmentVar) :
  Forall (λ l, l ≠ "") (EnvSpec.var_lines vars).
Proof.
  induction vars as [|v vars IH]; cbn [EnvSpec.var_lines]; [constructor|].
  destruct (var_value v); [|exact IH]. constructor; [discriminate|exact IH].
Qed.

Lemma renderEnv_empty_lines (groups : Environment) :
  renderEnv groups = "" ↔ EnvSpec.lines groups = [].
Proof.
  rewrite renderEnv_join.
  pose proof (var_lines_nonempty (flattenArray (map envVars groups))) as H.
  rewrite lines_flatten in H.
  destruct (EnvSpec.lines groups) as [|l ls]; [split; reflexivity|].
  split; [|discriminate]. intros E. exfalso.
  apply Forall_cons in H as [Hl _].
  destruct l as [|c l]; [now apply Hl|]. destruct ls; discriminate E.
Qed.

(** C8 (amended): when no variable name and no value contains a
    newline, the lines of the rendered environment are exactly the
    entries [export NAME="VALUE";] of the variables that have a
    value, one line each, in composition order (groups flattened in
    order); a variable without value gives no line, and an
    environment without any valued variable renders as the empty
    text. *)
Theorem renderEnv_lines (groups : Environment) :
  (∀ v, v ∈ concat (map envVars groups) →
        Str.free_of (ascii_of_nat 10) (var_name v) = true
        ∧ ∀ value, var_value v = Some value → Str.free_of (ascii_of_nat 10) value = true) →
  EnvSpec.text_lines (renderEnv groups) = EnvSpec.lines groups
  ∧ length (EnvSpec.text_lines (renderEnv groups))
    = length (filter (λ v, var_value v ≠ None) (concat (map envVars groups)))
  ∧ EnvSpec.lines groups
    = map (λ v, "export " +:+ var_name v +:+ "=" +:+ String (ascii_of_nat 34) ""
                 +:+ default "" (var_value v) +:+ String (ascii_of_nat 34) "" +:+ ";")
          (filter (λ v, var_value v ≠ None) (concat (map envVars groups))).
Proof.
  intros Hfree.
  assert (EnvSpec.text_lines (renderEnv groups) = EnvSpec.lines groups) as E.
  { unfold EnvSpec.text_lines. destruct (decide (renderEnv groups = "")) as [H|H].
    - symmetry. now apply renderEnv_empty_lines.
    - apply renderEnv_one_line_each; [exact Hfree|].
      intros Hl. apply H. now apply renderEnv_empty_lines. }
  assert (EnvSpec.lines groups
          = map (λ v, "export " +:+ var_name v +:+ "=" +:+ String (ascii_of_nat 34) ""
                       +:+ default "" (var_value v) +:+ String (ascii_of_nat 34) "" +:+ ";")
                (filter (λ v, var_value v ≠ None) (concat (map envVars groups)))) as E'.
  { rewrite <- lines_flatten. unfold flattenArray. clear.
    induction (concat (map envVars groups)) as [|v vars IH]; [reflexivity|].
    destruct v as [n [x|]]; cbn [EnvSpec.var_lines var_value var_name].
    - rewrite filter_cons_True by (cbn; congruence).
      cbn [map var_name var_value default]. now rewrite IH.
    - rewrite filter_cons_False by (cbn; tauto). exact IH. }
  split; [exact E|]. split; [|exact E'].
  rewrite E, E'. now rewrite length_map.
Qed.

Lemma renderEnv_lines_witness :
  EnvSpec.text_lines
    (renderEnv [ {| envVars := [ {| var_name := "PATH"; var_value := Some "/bin" |};
                                 {| var_name := "CI"; var_value := None |} ] |};
                 {| envVars := [ {| var_name := "cur__lib"; var_value := Some "lib" |} ] |} ])
  = [ "export PATH=" +:+ dq +:+ "/bin" +:+ dq +:+ ";";
      "export cur__lib=" +:+ dq +:+ "lib" +:+ dq +:+ ";" ].
Proof.
  refine (proj1 (renderEnv_lines
           [ {| envVars := [ {| var_name := "PATH"; var_value := Some "/bin" |};
                             {| var_name := "CI"; var_value := None |} ] |};
             {| envVars := [ {| var_name := "cur__lib"; var_value := Some "lib" |} ] |} ]
           _)).
  intros v Hv. cbn in Hv.
  repeat (apply elem_of_cons in Hv as [->|Hv]); [| | |inversion Hv];
    (split; [reflexivity|]); intros value [= <-]; reflexivity.
Defined.

(** C8, as stated, fails: a variable whose value contains a newline
    gives two lines. *)
Lemma renderEnv_lines_counterexample :
  let groups := [ {| envVars := [ {| var_name := "A";
                                     var_value := Some ("1" +:+ nl +:+ "2") |} ] |} ] in
  length (filter (λ v, var_value v ≠ None) (concat (map envVars groups))) = 1
  ∧ EnvSpec.text_lines (renderEnv groups)
    = [ "export A=" +:+ dq +:+ "1"; "2" +:+ dq +:+ ";" ].
Proof. split; vm_compute; reflexivity. Qed.

(** ** The hash helper *)

Lemma getOldHash_never_prints (folderName : string) (d : gmap string Fs.node)
    (text : string) :
  getOldHash folderName d ≠ Printed text.
Proof.
  unfold getOldHash, Fs.exists_, Fs.readFile, new_Exception.
  case_bool_decide as Hex.
  - discriminate.
  - destruct (d !! Path.join [folderName; ".esy_hash"]) as [n|] eqn:E.
    + exfalso. apply Hex. eauto.
    + discriminate.
Qed.

Lemma getOldHash_reads_only_when_absent (folderName : string)
    (d : gmap string Fs.node) :
  (is_Some (d !! Path.join [folderName; ".esy_hash"]) →
     getOldHash folderName d = Threw "ReferenceError" "Exception is not defined")
  ∧ (d !! Path.join [folderName; ".esy_hash"] = None →
     getOldHash folderName d = Threw "Error" "ENOENT").
Proof.
  unfold getOldHash, Fs.exists_, Fs.readFile, new_Exception. split; intros H.
  - now rewrite bool_decide_eq_true_2.
  - rewrite bool_decide_eq_false_2, H; [reflexivity|].
    rewrite H. intros [? ?]; discriminate.
Qed.

(** C10: with [.esy_hash] present in the folder the helper fails, but
    not with the message [Hash file not available]: the error is the
    [ReferenceError] raised by the unbound constructor. *)
Theorem getOldHash_existing_hash :
  getOldHash "/home/omefire/Folder" Scenario.hash_disk
  = Threw "ReferenceError" "Exception is not defined"
  ∧ ∀ error, getOldHash "/home/omefire/Folder" Scenario.hash_disk
             ≠ Threw error "Hash file not available".
Proof.
  assert (getOldHash "/home/omefire/Folder" Scenario.hash_disk
          = Threw "ReferenceError" "Exception is not defined") as E
    by (vm_compute; reflexivity).
  split; [exact E|]. intros error. rewrite E. discriminate.
Qed.

(** ** The in-process builder *)

Lemma bind_inv {A B} (m : io A) (k : A → io B) (w w' : world) (r : outcome B) :
  (m ≫= k) w = (r, w') →
  (∃ a w1, m w = (Done a, w1) ∧ k a w1 = (r, w'))
  ∨ (∃ e, m w = (Failed e, w') ∧ r = Failed e).
Proof.
  unfold mbind, io_bind, bind. destruct (m w) as [[a|e] w1]; intros H.
  - left. eauto.
  - right. inversion H; subst. eauto.
Qed.

Lemma extends_refl (w : world) : extends w w [].
Proof. split; [now rewrite app_nil_r|reflexivity]. Qed.

Lemma extends_trans (w1 w2 w3 : world) (l1 l2 : list request) :
  extends w1 w2 l1 → extends w2 w3 l2 → extends w1 w3 (l1 ++ l2).
Proof.
  intros [H1 D1] [H2 D2]. split; [|congruence].
  now rewrite H2, H1, <- app_assoc.
Qed.

Lemma update_extends r e f w res w' :
  update r e f w = (res, w') → extends w w' [r].
Proof.
  unfold update, issue.
  destruct (f (disk w)); intros H; inversion H; split; reflexivity.
Qed.

Lemma query_extends {A} r e (f : gmap string Fs.node → option A) w res w' :
  query r e f w = (res, w') → extends w w' [r].
Proof. unfold query, issue. intros H; inversion H; split; reflexivity. Qed.

Lemma promise_all_extends (ps : list (io unit)) (rs : list request) :
  Forall2 (λ p r, ∀ w, extends w (p w).2 [r]) ps rs →
  ∀ w, extends w (promise_all ps w).2 rs.
Proof.
  induction 1 as [|p r ps rs Hp _ IH]; intros w; cbn [promise_all].
  - apply extends_refl.
  - specialize (Hp w). destruct (p w) as [res w1]. cbn [snd] in Hp.
    specialize (IH w1). destruct (promise_all ps w1) as [res' w2]. cbn [snd] in *.
    exact (extends_trans _ _ _ _ _ Hp IH).
Qed.

Lemma update_extends_snd r e f w : extends w (update r e f w).2 [r].
Proof. destruct (update r e f w) eqn:E. eapply update_extends; eauto. Qed.

Section BuilderProperties.
Variable calculateEnvironment :
  BuildConfig → Build → list EnvironmentVar → outcome Environment.
Variable run_process :
  request → gmap string Fs.node → outcome unit * gmap string Fs.node.
Variable rimraf :
  string → gmap string Fs.node → outcome unit * gmap string Fs.node.

Lemma child_extends r w res w' :
  child run_process r w = (res, w') → extends w w' [r].
Proof.
  unfold child. destruct (run_process r (disk w)); intros H; inversion H.
  split; reflexivity.
Qed.

Lemma removals_extends (ps : list string) (w : world) :
  extends w (promise_all (map (rmtree rimraf) ps) w).2 (map ReqRmtree ps).
Proof.
  apply promise_all_extends. induction ps as [|p ps IH]; constructor; [|exact IH].
  intros w0. unfold rmtree. destruct (rimraf p (disk w0)). split; reflexivity.
Qed.

(** The outcome of the removals depends on the disk only. *)
Lemma removals_disk_only (ps : list string) : ∀ w1 w2,
  disk w1 = disk w2 →
  (promise_all (map (rmtree rimraf) ps) w1).1
  = (promise_all (map (rmtree rimraf) ps) w2).1.
Proof.
  enough (∀ w1 w2, disk w1 = disk w2 →
            (promise_all (map (rmtree rimraf) ps) w1).1
            = (promise_all (map (rmtree rimraf) ps) w2).1
            ∧ disk (promise_all (map (rmtree rimraf) ps) w1).2
              = disk (promise_all (map (rmtree rimraf) ps) w2).2)
    by (intros w1 w2 Hd; now apply H).
  induction ps as [|p ps IH]; intros w1 w2 Hd; cbn [map promise_all].
  - split; [reflexivity|exact Hd].
  - unfold rmtree at 1 3 5 7. rewrite Hd.
    destruct (rimraf p (disk w2)) as [r d'].
    match goal with
    | |- context [promise_all _ ?a] =>
        match goal with
        | |- context [promise_all _ ?c] =>
            lazymatch c with a => fail | _ => destruct (IH a c eq_refl) as [I1 I2] end
        end
    end.
    destruct (promise_all _ _) as [ra wa], (promise_all _ _) as [rb wb].
    cbn [fst snd] in *. now subst.
Qed.

(** C5: for a persisted build whose final install path exists,
    [performBuild] returns at once: its only request is the existence
    check, so no process is started and nothing is removed or written;
    the disk is unchanged and no rewrite chain is started. *)
Theorem performBuild_cached (b : Build) (config : BuildConfig)
    (sandbox : BuildSandbox) (w : world) :
  shouldBePersisted b = true →
  is_Some (disk w !! getFinalInstallPath config b []) →
  performBuild calculateEnvironment run_process rimraf b config sandbox w
  = (Done tt, {| disk := disk w;
                 issued := issued w
                           ++ [ReqExists (getFinalInstallPath config b [])];
                 detached := detached w |}).
Proof.
  intros Hp Hex. unfold performBuild. rewrite Hp.
  unfold mbind, io_bind, bind, fs.exists_, query, Fs.exists_, settle.
  rewrite bool_decide_eq_true_2 by exact Hex. reflexivity.
Qed.

(** C9 (amended): for a build without command that is not served from
    the cache, [performBuild] issues the three removals, never a build
    command, a walk, a stat or a read, and starts no rewrite chain; the
    only process it may start is the rsync of a build that mutates its
    sources.  When one of the removals fails, [performBuild] fails with
    that error and issues nothing more; otherwise the [mkdirp] of
    [_esy] under the build path and of the eight install directories
    under the staging install follow.  When [performBuild] succeeds,
    its last request is the rename of the staging install to the final
    install. *)
Theorem performBuild_null_command (b : Build) (config : BuildConfig)
    (sandbox : BuildSandbox) (w w' : world) (r : outcome unit) :
  command b = None →
  shouldBePersisted b = false ∨ disk w !! getFinalInstallPath config b [] = None →
  performBuild calculateEnvironment run_process rimraf b config sandbox w = (r, w') →
  ∃ rest,
    issued w' = issued w
                ++ (if shouldBePersisted b
                    then [ReqExists (getFinalInstallPath config b [])] else [])
                ++ removal_requests config b ++ rest
    ∧ detached w' = detached w
    ∧ forallb setup_request rest = true
    ∧ (∀ q, q ∈ rest → (∃ prog args, q = ReqSpawn prog args) →
            mutatesSourcePath b = true ∧ q = rsync_request config b)
    ∧ match (promise_all
               [ rmtree rimraf (getFinalInstallPath config b []);
                 rmtree rimraf (getInstallPath config b []);
                 rmtree rimraf (getBuildPath config b []) ] w).1 with
      | Failed e => rest = [] ∧ r = Failed e
      | Done _ => ∃ rest', rest = creation_requests config b ++ rest'
      end
    ∧ (r = Done tt →
         ∃ mid, rest = mid ++ [ReqRename (getInstallPath config b [])
                                         (getFinalInstallPath config b [])]).
Proof.
  intros Hcmd Hnc Hrun. unfold performBuild in Hrun. rewrite Hcmd in Hrun.
  apply bind_inv in Hrun as [(cached & w0 & Hc & Hrun)|(e & Hc & _)].
  2:{ destruct (shouldBePersisted b); [|discriminate].
      unfold fs.exists_, query, settle in Hc. discriminate. }
  assert (cached = false ∧ disk w0 = disk w ∧ extends w w0
            (if shouldBePersisted b
             then [ReqExists (getFinalInstallPath config b [])] else []))
    as (-> & Hd0 & E0).
  { destruct (shouldBePersisted b).
    - destruct Hnc as [?|Hnone]; [discriminate|].
      split; [|split; [|eapply query_extends; exact Hc]].
      + unfold fs.exists_, query, settle, Fs.exists_ in Hc.
        inversion Hc; subst.
        apply bool_decide_eq_false_2. rewrite Hnone. intros [? ?]; discriminate.
      + unfold fs.exists_, query in Hc. inversion Hc; subst. reflexivity.
    - inversion Hc; subst. split; [reflexivity|]. split; [reflexivity|apply extends_refl]. }
  clear Hc Hnc.
  pose proof (removals_extends
                [ getFinalInstallPath config b []; getInstallPath config b [];
                  getBuildPath config b [] ] w0) as E1.
  pose proof (removals_disk_only
                [ getFinalInstallPath config b []; getInstallPath config b [];
                  getBuildPath config b [] ] w0 w Hd0) as Hout.
  cbn [map] in E1, Hout. fold (removal_requests config b) in E1.
  rewrite <- Hout. clear Hout Hd0.
  apply bind_inv in Hrun as [([] & w1 & H1 & Hrun)|(e & H1 & ->)];
    rewrite H1 in E1 |- *; cbn [fst snd] in E1 |- *.
  2:{ exists []. destruct (extends_trans _ _ _ _ _ E0 E1) as [Hi Hd].
      split; [now rewrite Hi, app_nil_r|].
      split; [exact Hd|]. split; [reflexivity|].
      split; [intros q Hq; inversion Hq|].
      split; [split; reflexivity|]. intros [=]. }
  enough (∃ tail,
            issued w' = issued w
                ++ (if shouldBePersisted b
                    then [ReqExists (getFinalInstallPath config b [])] else [])
                ++ (removal_requests config b ++ creation_requests config b) ++ tail
            ∧ detached w' = detached w
            ∧ forallb setup_request tail = true
            ∧ (∀ q, q ∈ tail → (∃ prog args, q = ReqSpawn prog args) →
                    mutatesSourcePath b = true ∧ q = rsync_request config b)
            ∧ (r = Done tt →
                 ∃ mid, tail = mid ++ [ReqRename (getInstallPath config b [])
                                                 (getFinalInstallPath config b [])]))
    as (tail & Hi & Hd & Hs & Hsp & Hrn).
  { exists (creation_requests config b ++ tail).
    split; [now rewrite Hi, <- !app_assoc|]. split; [exact Hd|].
    split; [rewrite forallb_app, Hs; reflexivity|].
    split.
    { intros q [Hq|Hq]%elem_of_app Hspawn; [|now apply Hsp].
      destruct Hspawn as (prog & args & ->).
      apply elem_of_app in Hq as [Hq|Hq];
        apply list_elem_of_fmap in Hq as (p & [=] & _). }
    split; [now exists tail|].
    intros Hr. destruct (Hrn Hr) as (mid & ->).
    exists (creation_requests config b ++ mid). now rewrite <- app_assoc. }
  set (skeleton_requests := removal_requests config b ++ creation_requests config b).
  unfold creation_requests in skeleton_requests.
  assert (∀ res w2,
            promise_all
              (map (λ p, fs.mkdirp (getBuildPath config b [p])) BUILD_DIRS
               ++ map (λ p, fs.mkdirp (getInstallPath config b [p])) INSTALL_DIRS) w1
            = (res, w2) →
            extends w1 w2
              (map (λ p, ReqMkdirp (getBuildPath config b [p])) BUILD_DIRS
               ++ map (λ p, ReqMkdirp (getInstallPath config b [p])) INSTALL_DIRS))
    as Hmk.
  { intros res w2 E.
    pose proof (promise_all_extends
      (map (λ p, fs.mkdirp (getBuildPath config b [p])) BUILD_DIRS
       ++ map (λ p, fs.mkdirp (getInstallPath config b [p])) INSTALL_DIRS)
      (map (λ p, ReqMkdirp (getBuildPath config b [p])) BUILD_DIRS
       ++ map (λ p, ReqMkdirp (getInstallPath config b [p])) INSTALL_DIRS)
      ltac:(repeat constructor; intros; apply update_extends_snd) w1) as HH.
    now rewrite E in HH. }
  pose (rn := ReqRename (getInstallPath config b []) (getFinalInstallPath config b [])).
  (* every continuation ends in a world that extends [w1] by the
     skeleton requests and a harmless tail *)
  assert (∀ w2 wk tail,
            extends w1 w2
              (map (λ p, ReqMkdirp (getBuildPath config b [p])) BUILD_DIRS
               ++ map (λ p, ReqMkdirp (getInstallPath config b [p])) INSTALL_DIRS) →
            extends w2 wk tail →
            (∀ q, q ∈ tail → q = rsync_request config b ∧ mutatesSourcePath b = true
                              ∨ (∃ p c, q = ReqWriteFile p c) ∨ q = rn) →
            issued wk = issued w
                ++ (if shouldBePersisted b
                    then [ReqExists (getFinalInstallPath config b [])] else [])
                ++ skeleton_requests ++ tail
            ∧ detached wk = detached w
            ∧ forallb setup_request tail = true
            ∧ (∀ q, q ∈ tail → (∃ prog args, q = ReqSpawn prog args) →
                    mutatesSourcePath b = true ∧ q = rsync_request config b))
    as Hfin.
  { intros w2 wk tail E2 Ek Ht.
    destruct (extends_trans _ _ _ _ _ (extends_trans _ _ _ _ _
               (extends_trans _ _ _ _ _ E0 E1) E2) Ek) as [Hi Hd].
    split; [rewrite Hi; unfold skeleton_requests; now rewrite <- !app_assoc|].
    split; [exact Hd|]. split.
    - apply forallb_forall. intros q Hq%list_elem_of_In.
      destruct (Ht q Hq) as [[-> _]|[(p & c & ->)| ->]]; reflexivity.
    - intros q Hq (prog & args & ->).
      destruct (Ht _ Hq) as [[-> ?]|[(p & c & ?)| ?]]; [tauto|discriminate..]. }
  clear E0 E1.
  apply bind_inv in Hrun as [([] & w2 & H2 & Hrun)|(e & H2 & ->)]; apply Hmk in H2.
  2:{ exists []. destruct (Hfin w' w' [] H2 (extends_refl _)) as (? & ? & ? & ?);
        [inversion 1|].
      repeat (split; [assumption|]). intros [=]. }
  clear Hmk. specialize (Hfin w2). 
  apply bind_inv in Hrun as [([] & w3 & H3 & Hrun)|(e & H3 & ->)].
  2:{ assert (Hm : mutatesSourcePath b = true)
        by (destruct (mutatesSourcePath b); [reflexivity|discriminate]).
      rewrite Hm in H3. apply child_extends in H3.
      fold (rsync_request config b) in H3.
      exists [rsync_request config b].
      destruct (Hfin w' _ H2 H3) as (? & ? & ? & ?).
      { intros q ->%list_elem_of_singleton. left. split; [reflexivity|exact Hm]. }
      repeat (split; [assumption|]). intros [=]. }
  assert (∃ pre, extends w2 w3 pre ∧
            ∀ q, q ∈ pre → q = rsync_request config b ∧ mutatesSourcePath b = true)
    as (pre & E3 & Hpre).
  { destruct (mutatesSourcePath b) eqn:Hm.
    - apply child_extends in H3. fold (rsync_request config b) in H3.
      exists [rsync_request config b]. split; [exact H3|].
      intros q ->%list_elem_of_singleton. tauto.
    - inversion H3; subst. exists []. split; [apply extends_refl|inversion 1]. }
  clear H3.
  assert (∀ wk tail,
            extends w3 wk tail →
            (∀ q, q ∈ tail → (∃ p c, q = ReqWriteFile p c) ∨ q = rn) →
            issued wk = issued w
                ++ (if shouldBePersisted b
                    then [ReqExists (getFinalInstallPath config b [])] else [])
                ++ skeleton_requests ++ pre ++ tail
            ∧ detached wk = detached w
            ∧ forallb setup_request (pre ++ tail) = true
            ∧ (∀ q, q ∈ pre ++ tail → (∃ prog args, q = ReqSpawn prog args) →
                    mutatesSourcePath b = true ∧ q = rsync_request config b))
    as Hfin'.
  { intros wk tail Ek Ht. apply (Hfin wk (pre ++ tail) H2).
    - exact (extends_trans _ _ _ _ _ E3 Ek).
    - intros q [Hq|Hq]%elem_of_app; [left; now apply Hpre|right; now apply Ht]. }
  clear Hfin H2 E3 Hpre.
  apply bind_inv in Hrun as [(env & w4 & H4 & Hrun)|(e & H4 & ->)].
  2:{ inversion H4; subst. exists (pre ++ []).
      destruct (Hfin' w' [] (extends_refl _)) as (? & ? & ? & ?); [inversion 1|].
      repeat (split; [assumption|]). intros [=]. }
  inversion H4; subst w4; clear H4.
  apply bind_inv in Hrun as [([] & w5 & H5 & Hrun)|(e & H5 & ->)];
    apply update_extends in H5.
  2:{ eexists (pre ++ [_]). destruct (Hfin' w' _ H5) as (? & ? & ? & ?).
      { intros q ->%list_elem_of_singleton. left; eauto. }
      repeat (split; [eassumption|]). intros [=]. }
  apply bind_inv in Hrun as [(conf & w6 & H6 & Hrun)|(e & H6 & ->)].
  2:{ inversion H6; subst. eexists (pre ++ [_]).
      destruct (Hfin' w' _ H5) as (? & ? & ? & ?).
      { intros q ->%list_elem_of_singleton. left; eauto. }
      repeat (split; [eassumption|]). intros [=]. }
  inversion H6; subst w6; clear H6.
  apply bind_inv in Hrun as [([] & w7 & H7 & Hrun)|(e & H7 & ->)];
    apply update_extends in H7;
    pose proof (extends_trans _ _ _ _ _ H5 H7) as E7; cbn [app] in E7.
  2:{ eexists (pre ++ [_; _]). destruct (Hfin' w' _ E7) as (? & ? & ? & ?).
      { intros q Hq. repeat (apply elem_of_cons in Hq as [->|Hq]); eauto.
        inversion Hq. }
      repeat (split; [eassumption|]). intros [=]. }
  apply bind_inv in Hrun as [([] & w8 & H8 & Hrun)|(e & H8 & _)]; [|discriminate].
  inversion H8; subst w8; clear H8.
  apply bind_inv in Hrun as [([] & w9 & H9 & Hrun)|(e & H9 & ->)];
    apply update_extends in H9;
    pose proof (extends_trans _ _ _ _ _ E7 H9) as E9; cbn [app] in E9.
  2:{ eexists (pre ++ [_; _; _]). destruct (Hfin' w' _ E9) as (? & ? & ? & ?).
      { intros q Hq. repeat (apply elem_of_cons in Hq as [->|Hq]); eauto.
        inversion Hq. }
      repeat (split; [eassumption|]). intros [=]. }
  inversion Hrun; subst r w9; clear Hrun.
  eexists (pre ++ [_; _; _]). destruct (Hfin' w' _ E9) as (? & ? & ? & ?).
  { intros q Hq. repeat (apply elem_of_cons in Hq as [->|Hq]); eauto.
    inversion Hq. }
  repeat (split; [eassumption|]). intros _.
  eexists (pre ++ [_; _]). rewrite <- app_assoc. reflexivity.
Qed.

Lemma for_each_child_extends (cmds : list string) (mk : string → request) :
  ∀ w w', for_each cmds (λ c, child run_process (mk c)) w = (Done tt, w') →
          extends w w' (map mk cmds).
Proof.
  induction cmds as [|c cmds IH]; intros w w' H; cbn [for_each map] in *.
  - inversion H; subst. apply extends_refl.
  - apply bind_inv in H as [([] & w1 & H1 & H)|(e & _ & [=])].
    apply child_extends in H1. apply IH in H.
    exact (extends_trans _ _ _ _ _ H1 H).
Qed.

(** Whenever a build with a command is built successfully, the walk and
    the rename are the last two requests of [performBuild], no stat or
    read of the rewrite has been issued before them, and the rewrite
    chain is left detached. *)
Lemma performBuild_rename_precedes_rewrite (b : Build) (config : BuildConfig)
    (sandbox : BuildSandbox) (commands : list string) (w w' : world) :
  command b = Some commands →
  shouldBePersisted b = false ∨ disk w !! getFinalInstallPath config b [] = None →
  performBuild calculateEnvironment run_process rimraf b config sandbox w = (Done tt, w') →
  ∃ before files,
    issued w' = issued w ++ before
                ++ [ReqWalk (getInstallPath config b []);
                    ReqRename (getInstallPath config b [])
                              (getFinalInstallPath config b [])]
    ∧ Forall (λ q, rewrite_request q = false) before
    ∧ detached w' = detached w
                    ++ [ {| job_orig := getInstallPath config b [];
                            job_dest := getFinalInstallPath config b [];
                            job_files := files |} ].
Proof.
  intros Hcmd Hnc Hrun. unfold performBuild in Hrun. rewrite Hcmd in Hrun.
  apply bind_inv in Hrun as [(cached & w0 & Hc & Hrun)|(e & _ & [=])].
  assert (cached = false ∧ ∃ l0, extends w w0 l0
            ∧ Forall (λ q, rewrite_request q = false) l0) as (-> & l0 & E0 & F0).
  { destruct (shouldBePersisted b).
    - destruct Hnc as [?|Hnone]; [discriminate|]. split.
      + unfold fs.exists_, query, settle, Fs.exists_ in Hc. inversion Hc; subst.
        apply bool_decide_eq_false_2. rewrite Hnone. intros [? ?]; discriminate.
      + eexists. split; [eapply query_extends; exact Hc|]. now repeat constructor.
    - inversion Hc; subst. split; [reflexivity|].
      exists []. split; [apply extends_refl|constructor]. }
  clear Hc Hnc.
  apply bind_inv in Hrun as [([] & w1 & H1 & Hrun)|(e & _ & [=])].
  assert (extends w0 w1 [ ReqRmtree (getFinalInstallPath config b []);
                          ReqRmtree (getInstallPath config b []);
                          ReqRmtree (getBuildPath config b []) ]) as E1.
  { pose proof (removals_extends
                  [ getFinalInstallPath config b []; getInstallPath config b [];
                    getBuildPath config b [] ] w0) as HH.
    cbn [map] in HH. now rewrite H1 in HH. }
  clear H1.
  apply bind_inv in Hrun as [([] & w2 & H2 & Hrun)|(e & _ & [=])].
  assert (extends w1 w2
            (map (λ p, ReqMkdirp (getBuildPath config b [p])) BUILD_DIRS
             ++ map (λ p, ReqMkdirp (getInstallPath config b [p])) INSTALL_DIRS)) as E2.
  { pose proof (promise_all_extends
      (map (λ p, fs.mkdirp (getBuildPath config b [p])) BUILD_DIRS
       ++ map (λ p, fs.mkdirp (getInstallPath config b [p])) INSTALL_DIRS)
      (map (λ p, ReqMkdirp (getBuildPath config b [p])) BUILD_DIRS
       ++ map (λ p, ReqMkdirp (getInstallPath config b [p])) INSTALL_DIRS)
      ltac:(repeat constructor; intros; apply update_extends_snd) w1) as HH.
    now rewrite H2 in HH. }
  clear H2.
  apply bind_inv in Hrun as [([] & w3 & H3 & Hrun)|(e & _ & [=])].
  assert (∃ l3, extends w2 w3 l3 ∧ Forall (λ q, rewrite_request q = false) l3)
    as (l3 & E3 & F3).
  { destruct (mutatesSourcePath b).
    - apply child_extends in H3. eexists. split; [exact H3|]. now repeat constructor.
    - inversion H3; subst. exists []. split; [apply extends_refl|constructor]. }
  clear H3.
  apply bind_inv in Hrun as [(env & w4 & H4 & Hrun)|(e & _ & [=])].
  inversion H4; subst w4; clear H4.
  apply bind_inv in Hrun as [([] & w5 & H5 & Hrun)|(e & _ & [=])].
  apply update_extends in H5.
  apply bind_inv in Hrun as [(conf & w6 & H6 & Hrun)|(e & _ & [=])].
  inversion H6; subst w6; clear H6.
  apply bind_inv in Hrun as [([] & w7 & H7 & Hrun)|(e & _ & [=])].
  apply update_extends in H7.
  apply bind_inv in Hrun as [([] & w8 & H8 & Hrun)|(e & _ & [=])].
  apply bind_inv in H8 as [([] & w7a & H8a & H8)|(e & _ & [=])].
  apply for_each_child_extends in H8a.
  apply bind_inv in H8 as [(files & w7b & H8b & H8)|(e & _ & [=])].
  apply query_extends in H8b.
  unfold detach in H8. inversion H8; subst w8; clear H8.
  apply bind_inv in Hrun as [([] & w9 & H9 & Hrun)|(e & _ & [=])].
  apply update_extends in H9. destruct H9 as [I9 D9]. cbn [issued detached] in I9, D9.
  inversion Hrun; subst w9; clear Hrun.
  destruct (extends_trans _ _ _ _ _ (extends_trans _ _ _ _ _ (extends_trans _ _ _ _ _
             (extends_trans _ _ _ _ _ (extends_trans _ _ _ _ _ (extends_trans _ _ _ _ _
               (extends_trans _ _ _ _ _ E0 E1) E2) E3) H5) H7) H8a) H8b) as [I D].
  match type of I with _ = _ ++ (?bf ++ _) => exists bf, files end.
  split; [|split].
  - rewrite I9, I, <- !app_assoc. reflexivity.
  - repeat (apply Forall_app; split); try assumption;
      try (apply Forall_forall; intros q (c & -> & _)%list_elem_of_fmap; reflexivity);
      now repeat constructor.
  - now rewrite D9, D.
Qed.
End BuilderProperties.

Lemma performBuild_cached_witness :
  shouldBePersisted Scenario.L = true
  ∧ is_Some (disk Scenario.store_with_L
             !! getFinalInstallPath Scenario.config Scenario.L [])
  ∧ performBuild Scenario.calculateEnvironment Scenario.run_process Scenario.rimraf
      Scenario.L Scenario.config (Scenario.sandbox Scenario.L) Scenario.store_with_L
    = (Done tt, {| disk := disk Scenario.store_with_L;
                   issued := [ReqExists "/store/_install/L"];
                   detached := [] |}).
Proof.
  split; [reflexivity|]. split; [vm_compute; eexists; reflexivity|].
  apply (performBuild_cached Scenario.calculateEnvironment Scenario.run_process Scenario.rimraf
           Scenario.L Scenario.config (Scenario.sandbox Scenario.L)
           Scenario.store_with_L).
  - reflexivity.
  - vm_compute. eexists. reflexivity.
Defined.

(** C9, as stated, fails: a build without command that is served from
    the cache creates no directory and renames nothing, and one that
    mutates its sources starts rsync. *)
Lemma performBuild_null_command_counterexample :
  command Scenario.L = None
  ∧ issued (performBuild Scenario.calculateEnvironment Scenario.run_process Scenario.rimraf
              Scenario.L Scenario.config (Scenario.sandbox Scenario.L)
              Scenario.store_with_L).2
    = [ReqExists "/store/_install/L"]
  ∧ command Scenario.M = None
  ∧ ReqSpawn "rsync" ["--archive"; "/sb/node_modules/M/"; "/store/_build/M"]
    ∈ issued (performBuild Scenario.calculateEnvironment Scenario.run_process Scenario.rimraf
                Scenario.M Scenario.config (Scenario.sandbox Scenario.M)
                Scenario.fresh_store).2.
Proof.
  split; [reflexivity|]. split; [vm_compute; reflexivity|].
  split; [reflexivity|].
  apply (bool_decide_unpack _). vm_compute. exact I.
Qed.

Lemma performBuild_null_command_witness :
  let run := performBuild Scenario.calculateEnvironment Scenario.run_process Scenario.rimraf
               Scenario.L Scenario.config (Scenario.sandbox Scenario.L)
               Scenario.fresh_store in
  command Scenario.L = None
  ∧ disk Scenario.fresh_store !! getFinalInstallPath Scenario.config Scenario.L []
    = None
  ∧ ∃ rest,
      issued run.2
      = [ReqExists "/store/_install/L"]
        ++ removal_requests Scenario.config Scenario.L
        ++ creation_requests Scenario.config Scenario.L ++ rest
      ∧ detached run.2 = []
      ∧ forallb setup_request rest = true.
Proof.
  intros run. split; [reflexivity|]. split; [vm_compute; reflexivity|].
  destruct (performBuild_null_command
              Scenario.calculateEnvironment Scenario.run_process Scenario.rimraf
              Scenario.L Scenario.config (Scenario.sandbox Scenario.L)
              Scenario.fresh_store run.2 run.1)
    as (rest & H1 & H2 & H3 & _ & H5 & _).
  - reflexivity.
  - right. vm_compute. reflexivity.
  - apply surjective_pairing.
  - clearbody run.
    assert ((promise_all
               [ rmtree Scenario.rimraf (getFinalInstallPath Scenario.config Scenario.L []);
                 rmtree Scenario.rimraf (getInstallPath Scenario.config Scenario.L []);
                 rmtree Scenario.rimraf (getBuildPath Scenario.config Scenario.L []) ]
               Scenario.fresh_store).1 = Done tt) as Hd by (vm_compute; reflexivity).
    rewrite Hd in H5. destruct H5 as (rest' & ->).
    exists rest'. split; [exact H1|]. split; [exact H2|].
    rewrite forallb_app in H3. now apply andb_prop in H3.
Defined.

(** *** The rewrite step *)

(** The effect of one rewrite task on the disk. *)
Lemma rewrite_task_disk (origPath destPath : string) (file : walk_entry) (w : world) :
  disk (rewrite_task origPath destPath file w).2
  = match disk w !! absolute file with
    | Some (Fs.File mode content) =>
        if (Str.indexOf content origPath >? -1)%Z
        then <[absolute file :=
                 Fs.File mode
                   (buffer_write content destPath
                      (Z.to_nat (Str.indexOf content origPath)))]> (disk w)
        else disk w
    | _ => disk w
    end.
Proof.
  unfold rewrite_task, mbind, io_bind, bind, fs.stat, fs.readFileBuffer, query,
    settle, issue, Fs.readFile.
  destruct (disk w !! absolute file) as [[|mode content]|] eqn:E; cbn [disk Fs.isFile negb].
  - reflexivity.
  - rewrite E. cbn [disk].
    destruct (Str.indexOf content origPath >? -1)%Z; [|reflexivity].
    unfold unawaited, fs.writeFile, update, Fs.writeFile. cbn [disk snd].
    rewrite E. reflexivity.
  - reflexivity.
Qed.

Lemma rewrite_task_untouched (origPath destPath : string) (file : walk_entry) (w : world) :
  (disk w !! absolute file = Some Fs.Dir
   ∨ ∃ mode content, disk w !! absolute file = Some (Fs.File mode content)
                     ∧ Str.includes content origPath = false) →
  disk (rewrite_task origPath destPath file w).2 = disk w.
Proof.
  rewrite rewrite_task_disk. intros [->|(mode & content & -> & Hinc)]; [reflexivity|].
  unfold Str.includes in Hinc. apply bool_decide_eq_false in Hinc.
  assert (Str.indexOf content origPath = (-1)%Z) as -> by (destruct (decide (Str.indexOf content origPath = (-1)%Z)); tauto).
  reflexivity.
Qed.

(** For the paths of a created config the overwrite is exact: the first
    occurrence of the staging prefix becomes the final prefix, and
    nothing else changes. *)
Lemma rewrite_in_place (store sandbox : string) (b : Build)
    (content : string) (k : nat) :
  let orig := getInstallPath (createConfig store sandbox) b [] in
  let dest := getFinalInstallPath (createConfig store sandbox) b [] in
  Str.indexOf content orig = Z.of_nat k →
  content = Str.take k content +:+ orig
            +:+ Str.drop (k + String.length orig) content
  ∧ buffer_write content dest k
    = Str.take k content +:+ dest
      +:+ Str.drop (k + String.length orig) content
  ∧ ∀ j, j < k → Str.starts_with orig (Str.drop j content) = false.
Proof.
  intros orig dest Hk. apply buffer_write_first_occurrence; [exact Hk|].
  symmetry. apply install_paths_same_length.
Qed.

(** Seed scenario: an empty leaf ends up installed with its eight
    empty directories and without staging directory. *)
Example empty_leaf_installed :
  let w := (performBuild Scenario.calculateEnvironment Scenario.run_process Scenario.rimraf
              Scenario.L Scenario.config (Scenario.sandbox Scenario.L)
              Scenario.fresh_store).2 in
  Forall (λ d, disk w !! ("/store/_install/L/" +:+ d) = Some Fs.Dir) INSTALL_DIRS
  ∧ Fs.walk "/store/_insttmp" (disk w) = []
  ∧ length (Fs.walk "/store/_install/L" (disk w)) = 8.
Proof.
  intros w.
  split; [apply (bool_decide_unpack _); vm_compute; exact I|].
  split; vm_compute; reflexivity.
Qed.

(** C1: the rewrite of one file replaces the first occurrence of the
    staging prefix only; a file that mentions the prefix twice still
    contains it afterwards (its mode is kept). *)
Theorem rewrite_task_first_occurrence_only :
  let origPath := getInstallPath Scenario.config Scenario.A [] in
  let destPath := getFinalInstallPath Scenario.config Scenario.A [] in
  let file := {| relative := "bin/marker";
                 absolute := "/store/_insttmp/A/bin/marker" |} in
  let run := rewrite_task origPath destPath file Scenario.staged_A in
  disk Scenario.staged_A !! absolute file = Some (Fs.File 493 Scenario.marker)
  ∧ run.1 = Done tt
  ∧ disk run.2 !! absolute file
    = Some (Fs.File 493 "PREFIX=/store/_install/A; LIB=/store/_insttmp/A/lib")
  ∧ Str.includes "PREFIX=/store/_install/A; LIB=/store/_insttmp/A/lib" origPath
    = true.
Proof.
  intros origPath destPath file run.
  split; [vm_compute; reflexivity|]. split; [vm_compute; reflexivity|].
  split; vm_compute; reflexivity.
Qed.

(** C2: [performBuild] issues the rename of the staging install while
    the rewrite chain it has started is still waiting to run.  For a
    build whose command leaves a file that mentions the staging
    prefix, the final install appears with that file unrewritten, and
    the chain, whose first request follows the rename, fails on its
    [stat] of a staging path and changes nothing. *)
Theorem performBuild_renames_before_rewrite :
  let install := getInstallPath Scenario.config Scenario.A [] in
  let final := getFinalInstallPath Scenario.config Scenario.A [] in
  let main := performBuild Scenario.calculateEnvironment Scenario.run_process Scenario.rimraf
                Scenario.A Scenario.config (Scenario.sandbox Scenario.A)
                Scenario.fresh_store in
  let settled := performBuild_settled Scenario.calculateEnvironment
                   Scenario.run_process Scenario.rimraf Scenario.A Scenario.config
                   (Scenario.sandbox Scenario.A) Scenario.fresh_store in
  main.1 = Done tt
  ∧ drop 16 (issued main.2) = [ReqWalk install; ReqRename install final]
  ∧ (∃ files, detached main.2
              = [ {| job_orig := install; job_dest := final; job_files := files |} ]
              ∧ {| relative := "bin/marker"; absolute := install +:+ "/bin/marker" |}
                ∈ files)
  ∧ disk main.2 !! (final +:+ "/bin/marker") = Some (Fs.File 493 Scenario.marker)
  ∧ Str.includes Scenario.marker install = true
  ∧ drop 16 (issued settled.2)
    = [ReqWalk install; ReqRename install final; ReqStat (install +:+ "/sbin")]
  ∧ disk settled.2 = disk main.2.
Proof.
  intros install final main settled.
  split; [vm_compute; reflexivity|]. split; [vm_compute; reflexivity|].
  split.
  { eexists. split; [vm_compute; reflexivity|].
    apply list_elem_of_In. vm_compute. tauto. }
  split; [vm_compute; reflexivity|]. split; [vm_compute; reflexivity|].
  split; [vm_compute; reflexivity|].
  apply (bool_decide_unpack _). vm_compute. exact I.
Qed.

(** Seed scenario: the builder on the diamond [R → {A, B} → L], run
    twice.  The first run installs the four builds; the second run
    only checks the store: no command, no removal, no write, and the
    disk stays as it is. *)
Example builder_second_run :
  let first := build Scenario.calculateEnvironment Scenario.run_process Scenario.rimraf
                 (Scenario.sandbox Scenario.R) Scenario.config
                 Scenario.empty_world in
  let second := build Scenario.calculateEnvironment Scenario.run_process Scenario.rimraf
                  (Scenario.sandbox Scenario.R) Scenario.config
                  {| disk := disk first.2; issued := []; detached := [] |} in
  first.1 = Done tt
  ∧ Forall (λ i, disk first.2 !! ("/store/_install/" +:+ i) = Some Fs.Dir)
      ["L"; "A"; "B"; "R"]
  ∧ second.1 = Done tt
  ∧ issued second.2
    = [ReqMkdirp "/store/_build"; ReqMkdirp "/store/_install";
       ReqMkdirp "/store/_insttmp"; ReqMkdirp "/sb/_esy/store/_build";
       ReqMkdirp "/sb/_esy/store/_install"; ReqMkdirp "/sb/_esy/store/_insttmp";
       ReqExists "/store/_install/L"; ReqExists "/store/_install/A";
       ReqExists "/store/_install/B"; ReqExists "/store/_install/R"]
  ∧ disk second.2 = disk first.2.
Proof.
  intros first second.
  split; [vm_compute; reflexivity|].
  split; [apply (bool_decide_unpack _); vm_compute; exact I|].
  split; [vm_compute; reflexivity|].
  split; [vm_compute; reflexivity|].
  apply (bool_decide_unpack _). vm_compute. exact I.
Qed.

(** ** Graph traversal *)

Lemma Build_ind' (P : Build → Prop) :
  (∀ b, Forall P (dependencies b) → P b) → ∀ b, P b.
Proof.
  intros H. fix IH 1. intros [i n v c e sp m sh deps er]. apply H. cbn.
  induction deps as [|d deps IHd]; constructor; [apply IH | apply IHd].
Qed.

Lemma nodes_unfold b : nodes b = b :: flat_map nodes (dependencies b).
Proof. destruct b; reflexivity. Qed.

Lemma Build_weight_unfold b :
  Build_weight b = S (list_sum (map Build_weight (dependencies b))).
Proof. destruct b; reflexivity. Qed.

Lemma reachable_refl b : reachable b b.
Proof. unfold reachable. rewrite nodes_unfold. left. Qed.

Lemma reachable_dep root d : d ∈ dependencies root → reachable root d.
Proof.
  intros Hd. unfold reachable. rewrite nodes_unfold. right.
  apply list_elem_of_In, in_flat_map. exists d. split; [now apply list_elem_of_In|].
  apply list_elem_of_In, reachable_refl.
Qed.

Lemma reachable_inv root n :
  reachable root n → n = root ∨ ∃ d, d ∈ dependencies root ∧ reachable d n.
Proof.
  unfold reachable. rewrite (nodes_unfold root).
  intros [->|H]%elem_of_cons; [now left|right].
  apply list_elem_of_In, in_flat_map in H as (d & Hd & Hn).
  exists d. split; now apply list_elem_of_In.
Qed.

Lemma reachable_trans c : ∀ a b, reachable c b → reachable b a → reachable c a.
Proof.
  induction c as [c IH] using Build_ind'. intros a b Hcb Hba.
  apply reachable_inv in Hcb as [->|(d & Hd & Hdb)]; [exact Hba|].
  rewrite Forall_forall in IH.
  unfold reachable. rewrite nodes_unfold. right.
  apply list_elem_of_In, in_flat_map. exists d. split; [now apply list_elem_of_In|].
  apply list_elem_of_In. eapply IH; eauto.
Qed.

Lemma weight_dep_lt b d : d ∈ dependencies b → Build_weight d < Build_weight b.
Proof.
  intros Hd. rewrite (Build_weight_unfold b).
  assert (∀ l : list Build, d ∈ l → Build_weight d ≤ list_sum (map Build_weight l)) as H.
  { induction l as [|x xs IH]; [inversion 1|].
    intros [->|Hx]%elem_of_cons; rewrite map_cons; change (list_sum (?a :: ?l)) with (a + list_sum l); [lia|].
    specialize (IH Hx). lia. }
  specialize (H _ Hd). lia.
Qed.

Lemma reachable_weight root : ∀ n, reachable root n → Build_weight n ≤ Build_weight root.
Proof.
  induction root as [root IH] using Build_ind'. intros n Hn.
  apply reachable_inv in Hn as [->|(d & Hd & Hn)]; [lia|].
  rewrite Forall_forall in IH. specialize (IH d Hd n Hn).
  pose proof (weight_dep_lt root d Hd). lia.
Qed.

(** No build is reachable from one of its own dependencies. *)
Lemma not_reachable_from_dep b d : d ∈ dependencies b → ¬ reachable d b.
Proof.
  intros Hd Hr. pose proof (weight_dep_lt b d Hd).
  pose proof (reachable_weight d b Hr). lia.
Qed.

(** Reachability is the closure of the dependency relation. *)
Lemma reachable_closed_ind (P : Build → Prop) (root : Build) :
  P root →
  (∀ m n, reachable root m → P m → n ∈ dependencies m → P n) →
  ∀ n, reachable root n → P n.
Proof.
  intros Hroot Hstep.
  assert (∀ t, reachable root t → P t → ∀ n, reachable t n → P n) as H.
  { induction t as [t IH] using Build_ind'. intros Ht HP n Hn.
    apply reachable_inv in Hn as [->|(d & Hd & Hn)]; [exact HP|].
    rewrite Forall_forall in IH. apply (IH d Hd); [|eauto|exact Hn].
    eapply reachable_trans; [exact Ht|now apply reachable_dep]. }
  intros n Hn. eapply H; eauto using reachable_refl.
Qed.

Lemma queue_weight_cons b q : queue_weight (b :: q) = Build_weight b + queue_weight q.
Proof. reflexivity. Qed.

Lemma queue_weight_app q1 q2 :
  queue_weight (q1 ++ q2) = queue_weight q1 + queue_weight q2.
Proof. unfold queue_weight. now rewrite map_app, list_sum_app. Qed.

Section Visitor.
Context {S : Type} (f : Build → S → S).

Lemma replay_cons s log b : replay f s (b :: log) = replay f (f b s) log.
Proof. reflexivity. Qed.

Lemma replay_snoc s log b : replay f s (log ++ [b]) = f b (replay f s log).
Proof. unfold replay. now rewrite fold_left_app. Qed.

(** The loop always finishes within the weight of its queue. *)
Lemma traverse_loop_total fuel : ∀ seen queue s,
  queue_weight queue ≤ fuel → is_Some (traverse_loop f fuel seen queue s).
Proof.
  induction fuel as [|fuel IH]; intros seen [|cur rest] s Hw; cbn [traverse_loop]; eauto.
  - rewrite queue_weight_cons, Build_weight_unfold in Hw. lia.
  - rewrite queue_weight_cons, Build_weight_unfold in Hw.
    case_decide; apply IH; [lia|].
    rewrite queue_weight_app. unfold queue_weight at 2. lia.
Qed.

(** Any visitor sees the calls that [record_visit] records. *)
Lemma traverse_loop_replay fuel : ∀ seen queue s0 log,
  traverse_loop f fuel seen queue (replay f s0 log)
  = replay f s0 <$> traverse_loop record_visit fuel seen queue log.
Proof.
  induction fuel as [|fuel IH]; intros seen [|cur rest] s0 log;
    cbn [traverse_loop]; try reflexivity.
  case_decide; [apply IH|].
  unfold record_visit at 2. rewrite <- replay_snoc. apply IH.
Qed.

Lemma traverseDeepFirst_go_replay b : ∀ seen s0 log,
  traverseDeepFirst_go f b (seen, replay f s0 log)
  = ((traverseDeepFirst_go record_visit b (seen, log)).1,
     replay f s0 (traverseDeepFirst_go record_visit b (seen, log)).2).
Proof.
  induction b as [b IH] using Build_ind'. intros seen s0 log.
  destruct b as [i n v c e sp m sh deps er]. cbn [traverseDeepFirst_go id dependencies fst snd] in *.
  case_decide; [reflexivity|].
  assert (∀ st log',
    fold_left (λ st d, traverseDeepFirst_go f d st) deps (st, replay f s0 log')
    = ((fold_left (λ st d, traverseDeepFirst_go record_visit d st) deps (st, log')).1,
       replay f s0 (fold_left (λ st d, traverseDeepFirst_go record_visit d st) deps (st, log')).2))
    as Hfold.
  { induction IH as [|d ds Hd _ IHds]; intros st log'; [reflexivity|].
    cbn [fold_left]. rewrite Hd.
    destruct (traverseDeepFirst_go record_visit d (st, log')) as [st1 log1].
    apply IHds. }
  rewrite Hfold. cbn [fst snd]. f_equal. symmetry. apply replay_snoc.
Qed.
End Visitor.

Lemma elem_of_ids (l : list Build) (i : string) :
  i ∈ ids l ↔ ∃ b, b ∈ l ∧ id b = i.
Proof.
  rewrite list_elem_of_fmap. split; intros (b & H1 & H2); exists b; split; congruence || assumption.
Qed.

(** What the BFS loop adds was not seen before, and the call log only
    grows. *)
Lemma traverse_loop_new fuel : ∀ seen queue log out,
  traverse_loop record_visit fuel seen queue log = Some out →
  ∃ new, out = log ++ new ∧ ∀ b, b ∈ new → id b ∉ seen.
Proof.
  induction fuel as [|fuel IH]; intros seen [|cur rest] log out; cbn [traverse_loop].
  - intros [= <-]. exists []. rewrite app_nil_r. split; [reflexivity|]. inversion 1.
  - discriminate.
  - intros [= <-]. exists []. rewrite app_nil_r. split; [reflexivity|]. inversion 1.
  - case_decide as Hseen; intros H.
    + now apply IH in H.
    + apply IH in H as (new & -> & Hnew). exists (cur :: new).
      unfold record_visit. rewrite <- app_assoc. split; [reflexivity|].
      intros b [->|Hb]%elem_of_cons; [exact Hseen|].
      specialize (Hnew b Hb). set_solver.
Qed.

Section Bfs.
Variable root : Build.

Lemma bfs_inv_preserved fuel : ∀ seen queue log out,
  (∀ i, i ∈ seen ↔ i ∈ ids log) →
  bfs_inv root queue log →
  traverse_loop record_visit fuel seen queue log = Some out →
  bfs_inv root [] out.
Proof.
  induction fuel as [|fuel IH]; intros seen [|cur rest] log out Hseen Hinv;
    cbn [traverse_loop]; try discriminate; try (intros [= <-]; exact Hinv).
  destruct Hinv as [Hnd Hlr Hqr Hdeps Hroot].
  case_decide as Hcur; intros Hrun.
  - apply (IH seen rest log out Hseen); [|exact Hrun]. split; auto.
    + intros b Hb. apply Hqr. now right.
    + intros v d Hv Hd. destruct (Hdeps v d Hv Hd) as [?|[->|?]%elem_of_cons]; auto.
      left. now apply Hseen.
    + destruct Hroot as [?|[->|?]%elem_of_cons]; auto.
      left. now apply Hseen.
  - apply (IH ({[id cur]} ∪ seen) (rest ++ dependencies cur) (record_visit cur log) out);
      [| |exact Hrun]; unfold record_visit.
    + intros i. rewrite map_app, elem_of_app, <- Hseen. cbn.
      rewrite elem_of_union, elem_of_singleton, list_elem_of_singleton. tauto.
    + split.
      * rewrite map_app. apply NoDup_app. split; [exact Hnd|]. split.
        -- intros i Hi [->|Hn]%elem_of_cons; [|inversion Hn].
           apply Hcur, Hseen, Hi.
        -- cbn. apply NoDup_singleton.
      * intros b [Hb| ->%list_elem_of_singleton]%elem_of_app; [auto|].
        apply Hqr. left.
      * intros b [Hb|Hb]%elem_of_app; [apply Hqr; now right|].
        eapply reachable_trans; [apply Hqr; left|now apply reachable_dep].
      * intros v d [Hv| ->%list_elem_of_singleton]%elem_of_app Hd.
        -- rewrite map_app, !elem_of_app.
           destruct (Hdeps v d Hv Hd) as [?|[->|?]%elem_of_cons]; auto.
           left. right. cbn. left.
        -- right. apply elem_of_app. now right.
      * rewrite map_app, !elem_of_app.
        destruct Hroot as [?|[->|?]%elem_of_cons]; auto.
        left. right. cbn. left.
Qed.

(** The loop finishes, and its invariant holds of the visit sequence. *)
Lemma bfs_order_inv :
  ∃ order, bfs_order root = Some order ∧ bfs_inv root [] order.
Proof.
  destruct (traverse_loop_total record_visit (Build_weight root) ∅ [root] [])
    as [order Horder].
  { rewrite queue_weight_cons. unfold queue_weight. cbn. lia. }
  exists order. split; [exact Horder|].
  eapply (bfs_inv_preserved _ ∅ [root] []); [| |exact Horder].
  - intros i. cbn. split; [intros H%not_elem_of_empty|intros H]; [tauto|inversion H].
  - split; cbn.
    + constructor.
    + inversion 1.
    + intros b ->%list_elem_of_singleton. apply reachable_refl.
    + inversion 1.
    + right. left.
Qed.

Hypothesis Hids : ids_consistent root.

Lemma bfs_inv_final_covers (out : list Build) :
  bfs_inv root [] out → ∀ n, reachable root n → n ∈ out.
Proof.
  intros [Hnd Hlr _ Hdeps Hroot].
  assert (∀ n, reachable root n → id n ∈ ids out → n ∈ out) as Hin.
  { intros n Hn (v & Hv & Hid)%elem_of_ids.
    now rewrite <- (Hids v n (Hlr v Hv) Hn Hid). }
  assert (∀ n, reachable root n → reachable root n ∧ id n ∈ ids out) as Hcov.
  { apply (reachable_closed_ind (λ n, reachable root n ∧ id n ∈ ids out)).
    - split; [apply reachable_refl|].
      destruct Hroot as [?|Hr]; [assumption|inversion Hr].
    - intros m n Hm [_ Hidm] Hn.
      assert (reachable root n) as Hrn
        by (eapply reachable_trans; [exact Hm|now apply reachable_dep]).
      split; [exact Hrn|].
      destruct (Hdeps m n (Hin m Hm Hidm) Hn) as [?|Hq]; [assumption|inversion Hq]. }
  intros n Hn. apply Hin; [exact Hn|]. now apply Hcov.
Qed.

Lemma bfs_order_spec :
  ∃ order, bfs_order root = Some order
    ∧ NoDup (ids order)
    ∧ (∀ n, n ∈ order ↔ reachable root n).
Proof.
  destruct bfs_order_inv as (order & Horder & Hinv).
  exists order. split; [exact Horder|].
  split; [apply Hinv|]. intros n. split.
  - apply Hinv.
  - now apply bfs_inv_final_covers.
Qed.
End Bfs.

Lemma deps_first_nil : deps_first [].
Proof. intros [|? ?] v after H; discriminate H. Qed.

Lemma deps_first_snoc (order : list Build) (b : Build) :
  deps_first order → (∀ d, d ∈ dependencies b → d ∈ order) →
  deps_first (order ++ [b]).
Proof.
  intros Hord Hb before v after E d Hd.
  destruct after as [|x after _] using rev_ind.
  - apply app_inj_tail in E as [<- <-]. now apply Hb.
  - rewrite app_comm_cons, app_assoc in E. apply app_inj_tail in E as [-> _].
    eapply Hord; eauto.
Qed.

Section Dfs.
Variable root : Build.
Hypothesis Hids : ids_consistent root.

Lemma dfs_step_refl scope stack st :
  dfs_inv root stack st.1 st.2 → dfs_step root scope stack st st.
Proof.
  intros H. exists []. rewrite app_nil_r. cbn.
  split; [reflexivity|]. split; [set_solver|]. split; [inversion 1|exact H].
Qed.

Lemma dfs_go_spec (b : Build) : ∀ stack st,
  reachable root b →
  (∀ n, reachable b n → id n ∉ stack) →
  dfs_inv root stack st.1 st.2 →
  dfs_step root (reachable b) stack st (traverseDeepFirst_go record_visit b st)
  ∧ b ∈ (traverseDeepFirst_go record_visit b st).2.
Proof.
  induction b as [b IH] using Build_ind'. intros stack [seen log] Hb Hstack Hinv.
  cbn [fst snd] in Hinv.
  assert (traverseDeepFirst_go record_visit b (seen, log)
          = if decide (id b ∈ seen) then (seen, log)
            else let st2 := fold_left (λ st d, traverseDeepFirst_go record_visit d st)
                              (dependencies b) ({[id b]} ∪ seen, log) in
                 (st2.1, record_visit b st2.2)) as -> by (destruct b; reflexivity).
  case_decide as Hseen.
  - split; [now apply dfs_step_refl|]. cbn [snd].
    destruct Hinv as [Hs _ _ Hr]. rewrite Hs in Hseen.
    apply elem_of_union in Hseen as [Hl|Hst].
    + apply elem_of_list_to_set, elem_of_ids in Hl as (v & Hv & Hid).
      now rewrite <- (Hids v b (Hr v Hv) Hb Hid).
    + exfalso. apply (Hstack b); [apply reachable_refl|exact Hst].
  - (* the dependencies, one after the other *)
    assert (∀ ds st1,
      Forall (λ d, ∀ stack st, reachable root d →
                (∀ n, reachable d n → id n ∉ stack) →
                dfs_inv root stack st.1 st.2 →
                dfs_step root (reachable d) stack st (traverseDeepFirst_go record_visit d st)
                ∧ d ∈ (traverseDeepFirst_go record_visit d st).2) ds →
      (∀ d, d ∈ ds → d ∈ dependencies b) →
      dfs_inv root ({[id b]} ∪ stack) st1.1 st1.2 →
      let st2 := fold_left (λ st d, traverseDeepFirst_go record_visit d st) ds st1 in
      dfs_step root (λ n, ∃ d, d ∈ ds ∧ reachable d n) ({[id b]} ∪ stack) st1 st2
      ∧ ∀ d, d ∈ ds → d ∈ st2.2) as Hfold.
    { clear IH Hinv Hseen seen log.
      induction ds as [|d ds IHds]; intros st1 Hall Hsub Hinv1; cbn [fold_left].
      - split; [now apply dfs_step_refl|inversion 1].
      - apply Forall_cons in Hall as [Hd Hall].
        assert (d ∈ dependencies b) as Hdb by (apply Hsub; left).
        destruct (Hd ({[id b]} ∪ stack) st1) as [(new1 & E1 & S1 & N1 & I1) Hd1].
        { eapply reachable_trans; [exact Hb|now apply reachable_dep]. }
        { intros n Hn [Hnb%elem_of_singleton|Hns]%elem_of_union.
          - assert (reachable root n) as Hrn.
            { eapply reachable_trans; [exact Hb|].
              eapply reachable_trans; [apply reachable_dep, Hdb|exact Hn]. }
            rewrite (Hids n b Hrn Hb Hnb) in Hn.
            exact (not_reachable_from_dep b d Hdb Hn).
          - apply (Hstack n); [|exact Hns].
            eapply reachable_trans; [apply reachable_dep, Hdb|exact Hn]. }
        { exact Hinv1. }
        destruct (IHds (traverseDeepFirst_go record_visit d st1) Hall)
          as [(new2 & E2 & S2 & N2 & I2) Hd2].
        { intros d' Hd'. apply Hsub. now right. }
        { exact I1. }
        split.
        + exists (new1 ++ new2). split; [now rewrite E2, E1, app_assoc|].
          split; [rewrite S2, S1, map_app, list_to_set_app_L; set_solver|].
          split; [|exact I2].
          intros n [Hn|Hn]%elem_of_app.
          * exists d. split; [left|now apply N1].
          * destruct (N2 n Hn) as (d' & Hd' & Hr'). exists d'. split; [now right|exact Hr'].
        + intros d' [->|Hd']%elem_of_cons; [|now apply Hd2].
          rewrite E2. apply elem_of_app. now left. }
    destruct (Hfold (dependencies b) ({[id b]} ∪ seen, log) IH (λ d H, H))
      as [(new & E & S & N & [Is Ind Idf Ir]) Hdeps].
    { destruct Hinv as [Hs Hnd Hdf Hr]. split; cbn [fst snd]; try assumption.
      rewrite Hs. set_solver. }
    clear Hfold.
    set (st2 := fold_left (λ st d, traverseDeepFirst_go record_visit d st)
                  (dependencies b) ({[id b]} ∪ seen, log)) in *.
    cbn [fst snd] in E, S. cbn zeta. cbn [fst snd]. unfold record_visit.
    assert (id b ∉ ids st2.2) as Hfresh.
    { rewrite E, map_app, elem_of_app. intros [Hl|Hn].
      - apply Hseen. destruct Hinv as [-> _ _ _]. set_solver.
      - apply elem_of_ids in Hn as (n & Hn & Hid).
        destruct (N n Hn) as (d & Hd & Hr).
        assert (reachable root n) as Hrn.
        { eapply reachable_trans; [exact Hb|].
          eapply reachable_trans; [apply reachable_dep; eassumption|exact Hr]. }
        rewrite (Hids n b Hrn Hb Hid) in Hr.
        exact (not_reachable_from_dep b d Hd Hr). }
    split; [|apply elem_of_app; right; left].
    exists (new ++ [b]). cbn [fst snd].
    split; [now rewrite E, app_assoc|].
    split; [rewrite S, map_app, list_to_set_app_L; cbn; set_solver|].
    split.
    + intros n [Hn| ->%list_elem_of_singleton]%elem_of_app; [|apply reachable_refl].
      destruct (N n Hn) as (d & Hd & Hr).
      eapply reachable_trans; [apply reachable_dep; eassumption|exact Hr].
    + split.
      * rewrite Is, map_app, list_to_set_app_L. cbn. set_solver.
      * rewrite map_app. apply NoDup_app. split; [exact Ind|]. split.
        -- intros i Hi [->|Hn]%elem_of_cons; [now apply Hfresh|inversion Hn].
        -- apply NoDup_singleton.
      * now apply deps_first_snoc.
      * intros v [Hv| ->%list_elem_of_singleton]%elem_of_app; [now apply Ir|exact Hb].
Qed.
End Dfs.

Lemma dfs_order_spec (root : Build) :
  ids_consistent root →
  NoDup (ids (dfs_order root))
  ∧ (∀ n, n ∈ dfs_order root ↔ reachable root n)
  ∧ deps_first (dfs_order root).
Proof.
  intros Hids.
  destruct (dfs_go_spec root Hids root ∅ (∅, [])) as [(new & E & _ & N & I) Hroot].
  - apply reachable_refl.
  - intros n _. apply not_elem_of_empty.
  - split; cbn; [set_solver|constructor|apply deps_first_nil|inversion 1].
  - unfold dfs_order, traverseDeepFirst.
    destruct I as [_ Hnd Hdf Hr].
    split; [exact Hnd|]. split; [|exact Hdf].
    intros n. split; [apply Hr|].
    apply (reachable_closed_ind
             (λ n, n ∈ (traverseDeepFirst_go record_visit root (∅, [])).2)).
    + exact Hroot.
    + intros m d _ Hm Hd.
      apply list_elem_of_split in Hm as (before & after & Hsplit).
      rewrite Hsplit. apply elem_of_app. left. exact (Hdf before m after Hsplit d Hd).
Qed.

Lemma Build_eqb_id (a b : Build) : Build_eqb a b = true → id a = id b.
Proof.
  destruct a, b. cbn [Build_eqb id]. intros H.
  repeat (apply andb_prop in H as [H _]).
  now apply bool_decide_eq_true in H.
Qed.

Lemma Build_eqb_refl (b : Build) : Build_eqb b b = true.
Proof.
  induction b as [b IH] using Build_ind'. destruct b as [i n v c e sp m sh deps er].
  cbn [Build_eqb id name version command exportedEnv sourcePath mutatesSourcePath
       shouldBePersisted dependencies errors] in *.
  rewrite !bool_decide_eq_true_2 by reflexivity. cbn [andb].
  induction IH as [|d ds Hd _ IHds]; [reflexivity|]. now rewrite Hd, IHds.
Qed.

Lemma collect_replay (build : Build) (new : list Build) : ∀ acc,
  (∀ c, c ∈ new → id c ≠ id build) →
  replay (λ cur dependencies,
            if negb (Build_eqb cur build) then dependencies ++ [cur] else dependencies)
         acc new
  = acc ++ new.
Proof.
  induction new as [|c new IH]; intros acc Hnew; cbn [replay fold_left].
  - now rewrite app_nil_r.
  - unfold replay in IH. rewrite IH by (intros c' Hc'; apply Hnew; now right).
    destruct (Build_eqb c build) eqn:E.
    + exfalso. apply (Hnew c); [left|now apply Build_eqb_id].
    + cbn [negb]. now rewrite <- app_assoc.
Qed.

(** The first build visited breadth-first is the root; no later one
    has its id. *)
Lemma bfs_order_head (build : Build) (order : list Build) :
  bfs_order build = Some order →
  ∃ rest, order = build :: rest ∧ ∀ c, c ∈ rest → id c ≠ id build.
Proof.
  unfold bfs_order, traverse. rewrite Build_weight_unfold. cbn [traverse_loop].
  rewrite decide_False by apply not_elem_of_empty.
  intros (new & -> & Hnew)%traverse_loop_new. exists new. split; [reflexivity|].
  intros c Hc E. apply (Hnew c Hc). rewrite E. set_solver.
Qed.

Lemma collectTransitiveDependencies_bfs (build : Build) :
  collectTransitiveDependencies build = tail <$> bfs_order build.
Proof.
  unfold collectTransitiveDependencies, bfs_order, traverse.
  pose proof (traverse_loop_replay
    (λ cur dependencies,
       if negb (Build_eqb cur build) then dependencies ++ [cur] else dependencies)
    (Build_weight build) ∅ [build] [] []) as H.
  change (replay _ [] []) with (@nil Build) in H. rewrite H. clear H.
  destruct (traverse_loop record_visit (Build_weight build) ∅ [build] []) as [order|] eqn:E;
    [|reflexivity].
  cbn [fmap option_fmap option_map]. f_equal.
  apply (bfs_order_head build) in E as (rest & -> & Hrest).
  cbn [tail]. rewrite replay_cons. cbn beta. rewrite Build_eqb_refl. cbn [negb].
  now rewrite (collect_replay build rest [] Hrest).
Qed.

(** C7: below a root whose builds are identified by their ids, the
    BFS traversal and the post-order DFS traversal each call the
    visitor exactly once per reachable build (the visited ids are
    pairwise distinct and the visited builds are exactly the reachable
    ones); the DFS calls it on every dependency of a build before the
    build; and [collectTransitiveDependencies] returns the BFS visit
    sequence without its first element, the root.  Any visitor sees
    the calls of the recorded sequence, in order. *)
Theorem traversal_coverage (root : Build) :
  ids_consistent root →
  ∃ rest,
    bfs_order root = Some (root :: rest)
    ∧ NoDup (ids (root :: rest))
    ∧ (∀ n, n ∈ root :: rest ↔ reachable root n)
    ∧ NoDup (ids (dfs_order root))
    ∧ (∀ n, n ∈ dfs_order root ↔ reachable root n)
    ∧ deps_first (dfs_order root)
    ∧ collectTransitiveDependencies root = Some rest
    ∧ ∀ (S : Type) (f : Build → S → S) (s : S),
        traverse f root s = Some (replay f s (root :: rest))
        ∧ traverseDeepFirst f root s = replay f s (dfs_order root).
Proof.
  intros Hids.
  destruct (bfs_order_spec root Hids) as (bfs & Hbfs & Hnd & Hcov).
  destruct (bfs_order_head root bfs Hbfs) as (rest & -> & _).
  destruct (dfs_order_spec root Hids) as (Hnd' & Hcov' & Hdf).
  exists rest. repeat split; try assumption; try (now apply Hcov); try (now apply Hcov').
  - now rewrite collectTransitiveDependencies_bfs, Hbfs.
  - unfold traverse.
    change s with (replay f s []) at 1. rewrite traverse_loop_replay.
    unfold bfs_order, traverse in Hbfs. now rewrite Hbfs.
  - unfold traverseDeepFirst, dfs_order, traverseDeepFirst.
    change (∅, s) with (∅ : gset string, replay f s []).
    now rewrite traverseDeepFirst_go_replay.
Qed.

(** The diamond [R → {A, B} → L] identifies its builds by id. *)
Lemma ids_consistent_R : ids_consistent Scenario.R.
Proof.
  intros x y Hx Hy. unfold reachable in *.
  change (nodes Scenario.R)
    with [Scenario.R; Scenario.A; Scenario.L; Scenario.B; Scenario.L] in *.
  repeat (apply elem_of_cons in Hx as [->|Hx]); try (now inversion Hx);
  repeat (apply elem_of_cons in Hy as [->|Hy]); try (now inversion Hy);
  intros E; try reflexivity; discriminate E.
Qed.

Lemma traversal_coverage_witness :
  ids_consistent Scenario.R
  ∧ ∃ rest, bfs_order Scenario.R = Some (Scenario.R :: rest)
      ∧ NoDup (ids (Scenario.R :: rest))
      ∧ (∀ n, n ∈ Scenario.R :: rest ↔ reachable Scenario.R n)
      ∧ deps_first (dfs_order Scenario.R)
      ∧ collectTransitiveDependencies Scenario.R = Some rest.
Proof.
  split; [exact ids_consistent_R|].
  destruct (traversal_coverage Scenario.R ids_consistent_R)
    as (rest & H1 & H2 & H3 & _ & _ & H6 & H7 & _).
  exists rest. repeat split; try assumption; apply H3.
Defined.

Example traversal_orders_diamond :
  (map id <$> bfs_order Scenario.R) = Some ["R"; "A"; "B"; "L"]
  ∧ map id (dfs_order Scenario.R) = ["L"; "A"; "B"; "R"]
  ∧ (map id <$> collectTransitiveDependencies Scenario.R) = Some ["A"; "B"; "L"].
Proof. repeat split; vm_compute; reflexivity. Qed.

(** ** Name normalization *)

Import Util NameSpec.

Lemma replace_char_app c r s t :
  replace_char c r (s +:+ t) = replace_char c r s +:+ replace_char c r t.
Proof.
  induction s as [|x s IH]; [reflexivity|].
  rewrite str_app_cons. cbn [replace_char]. rewrite IH. now rewrite str_app_assoc.
Qed.

Lemma plain_char_facts c :
  plain_char c = true →
  lower_char c = c ∧ c ≠ "@"%char ∧ c ≠ "_"%char ∧ c ≠ "-"%char.
Proof.
  destruct c as [[] [] [] [] [] [] [] []]; vm_compute; intros H;
    try discriminate H; repeat split; discriminate.
Qed.

Lemma normalize_plain s :
  Str.forallb plain_char s = true →
  normalizePackageName s
  = replace_char "-" "_" (replace_char "." "__dot__" (replace_char "/" "__slash__" s)).
Proof.
  intros H. unfold normalizePackageName.
  assert (replace_char "@" "" (toLowerCase s) = s ∧ extend_underscore_runs s = s) as [-> ->];
    [|reflexivity].
  induction s as [|c s IH]; [split; reflexivity|].
  cbn [Str.forallb] in H. apply andb_prop in H as [Hc Hs].
  destruct (IH Hs) as [IH1 IH2]. destruct (plain_char_facts c Hc) as (Hl & H1 & H2 & H3).
  split.
  - cbn [toLowerCase replace_char]. rewrite Hl, IH1.
    destruct (decide (c = "@"%char)); [contradiction|reflexivity].
  - cbn [extend_underscore_runs].
    destruct (decide (c = "_"%char)); [contradiction|]. now rewrite IH2.
Qed.

Lemma normalize_plain_cons c s :
  plain_char c = true → Str.forallb plain_char s = true →
  normalizePackageName (String c s) = code c +:+ normalizePackageName s.
Proof.
  intros Hc Hs.
  rewrite normalize_plain by (cbn [Str.forallb]; now rewrite Hc, Hs).
  rewrite (normalize_plain s Hs).
  change (String c s) with (String c "" +:+ s).
  rewrite !replace_char_app. f_equal.
  destruct (plain_char_facts c Hc) as (_ & _ & H2 & H3).
  unfold code. cbn [replace_char].
  destruct (decide (c = "/"%char)) as [->|]; [reflexivity|].
  rewrite str_app_cons, str_app_nil. cbn [replace_char].
  destruct (decide (c = "."%char)) as [->|]; [reflexivity|].
  rewrite str_app_cons, str_app_nil. cbn [replace_char].
  destruct (decide (c = "-"%char)); [contradiction|reflexivity].
Qed.

Lemma plain_injective x : ∀ y,
  Str.forallb plain_char x = true → Str.forallb plain_char y = true →
  normalizePackageName x = normalizePackageName y → x = y.
Proof.
  induction x as [|c x IH]; intros [|d y] Hx Hy E.
  - reflexivity.
  - cbn [Str.forallb] in Hy. apply andb_prop in Hy as [Hd Hy].
    rewrite (normalize_plain_cons d y Hd Hy) in E.
    unfold code in E. repeat case_decide; rewrite ?str_app_cons in E; discriminate E.
  - cbn [Str.forallb] in Hx. apply andb_prop in Hx as [Hc Hx].
    rewrite (normalize_plain_cons c x Hc Hx) in E.
    unfold code in E. repeat case_decide; rewrite ?str_app_cons in E; discriminate E.
  - cbn [Str.forallb] in Hx, Hy.
    apply andb_prop in Hx as [Hc Hx]. apply andb_prop in Hy as [Hd Hy].
    rewrite (normalize_plain_cons c x Hc Hx), (normalize_plain_cons d y Hd Hy) in E.
    destruct (plain_char_facts c Hc) as (_ & _ & Hc2 & _).
    destruct (plain_char_facts d Hd) as (_ & _ & Hd2 & _).
    unfold code in E.
    repeat case_decide; subst; rewrite ?str_app_cons, ?str_app_nil in E;
      try discriminate E.
    all: try (injection E as E; f_equal; now apply IH).
    all: try (injection E as E1 E; congruence).
    all: injection E as -> E; f_equal; now apply IH.
Qed.

Lemma replace_char_underscores c r n :
  c ≠ "_"%char → replace_char c r (Str.replicate n "_") = Str.replicate n "_".
Proof.
  intros Hc. induction n as [|n IH]; [reflexivity|].
  cbn [Str.replicate replace_char]. rewrite IH.
  destruct (decide ("_"%char = c)); [congruence|reflexivity].
Qed.

Lemma toLowerCase_underscores n :
  toLowerCase (Str.replicate n "_") = Str.replicate n "_".
Proof.
  induction n as [|n IH]; [reflexivity|].
  cbn [Str.replicate toLowerCase]. now rewrite IH.
Qed.

Lemma extend_underscore_run n :
  extend_underscore_runs (Str.replicate (S n) "_") = Str.replicate (S n + 2) "_".
Proof.
  induction n as [|n IH]; [reflexivity|].
  change (Str.replicate (S (S n)) "_")
    with (String "_" (String "_" (Str.replicate n "_"))).
  change (extend_underscore_runs (String "_" (String "_" (Str.replicate n "_"))))
    with (String "_" (extend_underscore_runs (Str.replicate (S n) "_"))).
  rewrite IH. reflexivity.
Qed.

Lemma normalize_underscore_run n :
  normalizePackageName (Str.replicate (S n) "_") = Str.replicate (S n + 2) "_".
Proof.
  unfold normalizePackageName.
  rewrite toLowerCase_underscores, replace_char_underscores by discriminate.
  rewrite extend_underscore_run.
  now rewrite !replace_char_underscores by discriminate.
Qed.


(** C4, as stated, fails: a single underscore becomes three, and the
    normalization identifies distinct names of the alphabet
    [a-z0-9@/._-]. *)
Lemma normalizePackageName_counterexample :
  normalizePackageName "_" = "___"
  ∧ normalizePackageName "_" ≠ "__"
  ∧ ¬ (∀ x y, Str.forallb name_char x = true → Str.forallb name_char y = true →
         normalizePackageName x = normalizePackageName y → x = y).
Proof.
  split; [reflexivity|]. split; [vm_compute; discriminate|].
  intros H. specialize (H "@a" "a" eq_refl eq_refl eq_refl). discriminate H.
Qed.

(** Collisions that involve neither [@] nor upper case. *)
Example normalizePackageName_collisions :
  normalizePackageName "--slash--" = normalizePackageName "/"
  ∧ normalizePackageName "--dot--" = normalizePackageName "."
  ∧ normalizePackageName "_._" = normalizePackageName "___dot___"
  ∧ normalizePackageName "_/_" = normalizePackageName "___slash___"
  ∧ normalizePackageName "---" = normalizePackageName "_".
Proof. repeat split. Qed.

Lemma lower_char_special (c : ascii) :
  lower_char c = lower c
  ∧ (lower_char c = "@"%char ↔ c = "@"%char)
  ∧ (lower_char c = "_"%char ↔ c = "_"%char)
  ∧ (lower_char c = "/"%char ↔ c = "/"%char)
  ∧ (lower_char c = "."%char ↔ c = "."%char)
  ∧ (lower_char c = "-"%char ↔ c = "-"%char).
Proof.
  destruct c as [[] [] [] [] [] [] [] []]; vm_compute;
    repeat split; intros; congruence.
Qed.

(** The first character of the name once it is lower-cased and freed
    of [@]. *)
Lemma run_goes_on_head (s : string) :
  run_goes_on s
  = match replace_char "@" "" (toLowerCase s) with
    | String y _ => bool_decide (y = "_"%char)
    | EmptyString => false
    end.
Proof.
  induction s as [|c s IH]; [reflexivity|].
  cbn [run_goes_on toLowerCase replace_char].
  destruct (lower_char_special c) as (_ & Hat & Hu & _).
  destruct (decide (c = "@"%char)) as [->|Hc].
  - rewrite decide_True by reflexivity. rewrite str_app_nil. exact IH.
  - rewrite decide_False by (now rewrite Hat).
    rewrite str_app_cons.
    apply bool_decide_ext. now rewrite Hu.
Qed.

Lemma extend_underscore_runs_cons (c : ascii) (r : string) :
  extend_underscore_runs (String c r)
  = String c ((if decide (c = "_"%char)
               then match r with
                    | String y _ => if decide (y = "_"%char) then "" else "__"
                    | EmptyString => "__"
                    end
               else "") +:+ extend_underscore_runs r).
Proof.
  cbn [extend_underscore_runs]. destruct (decide (c = "_"%char)); [|reflexivity].
  destruct r as [|y r']; [reflexivity|].
  destruct (decide (y = "_"%char)); reflexivity.
Qed.

(** The pipeline of replacements is the one-pass reading. *)
Lemma normalizePackageName_encode (name : string) :
  normalizePackageName name = encode name.
Proof.
  induction name as [|c name IH]; [reflexivity|].
  cbn [encode]. rewrite <- IH. rewrite run_goes_on_head.
  unfold normalizePackageName. cbn [toLowerCase replace_char].
  destruct (lower_char_special c) as (Hl & Hat & Hu & Hs & Hd & Hm).
  destruct (decide (c = "@"%char)) as [->|Hc1].
  { rewrite decide_True by reflexivity. now rewrite !str_app_nil. }
  rewrite decide_False by (now rewrite Hat).
  rewrite str_app_cons, str_app_nil, extend_underscore_runs_cons.
  set (r := replace_char "@" "" (toLowerCase name)).
  destruct (decide (c = "_"%char)) as [->|Hc2].
  { change (lower_char "_") with "_"%char. rewrite decide_True by reflexivity.
    change (String "_" ?x) with ("_" +:+ x). rewrite !replace_char_app.
    destruct r as [|y r']; [reflexivity|].
    destruct (decide (y = "_"%char)) as [->|Hy].
    - rewrite bool_decide_eq_true_2 by reflexivity. reflexivity.
    - rewrite bool_decide_eq_false_2 by exact Hy. reflexivity. }
  rewrite decide_False by (now rewrite Hu). rewrite str_app_nil.
  change (String (lower_char c) ?x) with (String (lower_char c) "" +:+ x).
  rewrite !replace_char_app. f_equal.
  cbn [replace_char].
  destruct (decide (c = "/"%char)) as [->|Hc3]; [reflexivity|].
  rewrite decide_False by (now rewrite Hs). rewrite str_app_cons, str_app_nil.
  cbn [replace_char].
  destruct (decide (c = "."%char)) as [->|Hc4]; [reflexivity|].
  rewrite decide_False by (now rewrite Hd). rewrite str_app_cons, str_app_nil.
  cbn [replace_char].
  destruct (decide (c = "-"%char)) as [->|Hc5]; [reflexivity|].
  rewrite decide_False by (now rewrite Hm). now rewrite Hl.
Qed.

(** C4 (amended): on ASCII names the normalization is the one-pass
    reading [NameSpec.encode]: it deletes [@], lower-cases [A-Z],
    appends two underscores to every run of underscores (a run is
    taken after the [@] are deleted: [_] becomes [___], [__] becomes
    [____]), replaces [/] by [__slash__], [.] by [__dot__] and [-] by
    [_], and keeps every other character; and distinct names over
    [a-z0-9/.] have distinct normalizations. *)
Theorem normalizePackageName_rewrites (x y : string) :
  Str.forallb plain_char x = true → Str.forallb plain_char y = true →
  x ≠ y →
  (∀ name, Str.forallb ascii_char name = true →
           normalizePackageName name = encode name)
  ∧ (∀ n, normalizePackageName (Str.replicate (S n) "_") = Str.replicate (S n + 2) "_")
  ∧ normalizePackageName x ≠ normalizePackageName y.
Proof.
  intros Hx Hy Hne. split; [intros name _; apply normalizePackageName_encode|].
  split; [exact normalize_underscore_run|].
  intros E. apply Hne. now apply plain_injective.
Qed.

Lemma normalizePackageName_rewrites_witness :
  normalizePackageName "@Opam/My_Pkg__x.1-beta" = "opam__slash__my___pkg____x__dot__1_beta"
  ∧ normalizePackageName "_@_" = "____"
  ∧ normalizePackageName "opam/foo.1" ≠ normalizePackageName "opam.foo/1".
Proof.
  destruct (normalizePackageName_rewrites "opam/foo.1" "opam.foo/1")
    as (H1 & _ & H3); [reflexivity|reflexivity|discriminate|].
  split; [rewrite H1 by reflexivity; reflexivity|].
  split; [rewrite H1 by reflexivity; reflexivity|exact H3].
Defined.

(** ** Findlib configuration *)






(** *** The level order is nearest first *)



Lemma reachable_within (b x : Build) :
  reachable b x → ∃ k, FindlibSpec.within b k x.
Proof.
  revert x. apply reachable_closed_ind.
  - exists 0. constructor.
  - intros c d _ [k Hk] Hd. exists (S k). econstructor; eassumption.
Qed.



Section LevelOrder.
Variable b : Build.
Hypothesis Hids : ids_consistent b.




End LevelOrder.



(** ** util: objects and maps *)

(** X1: [mapObject] maps each value with its own name and keeps the
    property names other than ["__proto__"]: for a name [k] other than
    ["__proto__"], own property [k] of the result is [f (obj[k], k)],
    and it is absent exactly when [k] is absent from [obj]; the result
    never has an own property ["__proto__"], whatever [obj] holds. *)
Theorem mapObject_lookup {S F : Type} (obj : gmap string S) (f : S → string → F)
    (k : string) :
  mapObject obj f !! k
  = if decide (k = "__proto__") then None else (λ v, f v k) <$> obj !! k.
Proof.
  unfold mapObject.
  apply (map_fold_weak_ind
           (λ (r : gmap string F) (m : gmap string S),
              r !! k = if decide (k = "__proto__") then None
                       else (λ v, f v k) <$> m !! k)).
  - rewrite !lookup_empty. now destruct (decide _).
  - intros i x m r Hi IH.
    destruct (decide (i = "__proto__")) as [->|Hp].
    + rewrite IH. destruct (decide (k = "__proto__")) as [->|Hk]; [reflexivity|].
      now rewrite lookup_insert_ne by congruence.
    + destruct (decide (i = k)) as [->|Hne].
      * rewrite !lookup_insert_eq. now rewrite decide_False by exact Hp.
      * now rewrite !lookup_insert_ne.
Qed.

(** An object that carries ["__proto__"] as a property of its own, as
    [JSON.parse] makes them, loses it. *)
Example mapObject_proto :
  mapObject ({[ "__proto__" := 5; "a" := 1 ]} : gmap string nat) (λ v _, v + 1)
  = {[ "a" := 2 ]}.
Proof. apply (bool_decide_unpack _). vm_compute. exact I. Qed.

Lemma setDefaultToMap_lookup {K : Type} `{Countable K} {V : Type}
    (map : gmap K (option V)) (key : K) (makeDefaultValue : unit → option V) :
  (setDefaultToMap map key makeDefaultValue).2 !! key
  = Some (setDefaultToMap map key makeDefaultValue).1.
Proof.
  unfold setDefaultToMap.
  destruct (map !! key) as [[v|]|] eqn:E; cbn;
    [exact E|apply lookup_insert_eq|apply lookup_insert_eq].
Qed.

(** X2: after [setDefaultToMap] the key is bound to the value that
    was returned, and no other key has changed. *)
Theorem setDefaultToMap_binds {K : Type} `{Countable K} {V : Type}
    (map : gmap K (option V)) (key : K) (makeDefaultValue : unit → option V) :
  (setDefaultToMap map key makeDefaultValue).2 !! key
    = Some (setDefaultToMap map key makeDefaultValue).1
  ∧ ∀ other, other ≠ key →
      (setDefaultToMap map key makeDefaultValue).2 !! other = map !! other.
Proof.
  split; [apply setDefaultToMap_lookup|].
  intros other Hne. unfold setDefaultToMap.
  destruct (mjoin (map !! key)); cbn [snd]; [reflexivity|].
  now apply lookup_insert_ne.
Qed.

(** X3: once [setDefaultToMap] has returned a value that is not
    [null], every later call for the same key returns that value and
    leaves the map as it is, whatever default it is given; a key
    that is bound to [null] is bound anew by the next call. *)
Theorem setDefaultToMap_stable {K : Type} `{Countable K} {V : Type}
    (map : gmap K (option V)) (key : K) (makeDefaultValue other : unit → option V) :
  let first := setDefaultToMap map key makeDefaultValue in
  setDefaultToMap first.2 key other
  = match first.1 with
    | Some v => (Some v, first.2)
    | None => (other tt, <[key := other tt]> first.2)
    end.
Proof.
  cbn zeta.
  pose proof (setDefaultToMap_lookup map key makeDefaultValue) as Hk.
  destruct (setDefaultToMap map key makeDefaultValue) as [v m]. cbn [fst snd] in *.
  unfold setDefaultToMap. rewrite Hk. now destruct v.
Qed.

(** ** The hash helper scripts *)

(** X4: after [saveHash] has written the hash of a folder,
    [doesHashExist] prints [true], the hash file holds exactly the
    saved hash, no other path has changed, and [getOldHash] on that
    folder ends with a [ReferenceError] instead of printing the hash. *)
Theorem saveHash_then_query (folderName hashToSave : string)
    (d d' : gmap string Fs.node) :
  saveHash folderName hashToSave d = Some d' →
  doesHashExist folderName d' = Printed "true"
  ∧ Fs.readFile (Path.join [folderName; ".esy_hash"]) d' = Some hashToSave
  ∧ (∀ p, p ≠ Path.join [folderName; ".esy_hash"] → d' !! p = d !! p)
  ∧ getOldHash folderName d' = Threw "ReferenceError" "Exception is not defined".
Proof.
  unfold saveHash, doesHashExist, getOldHash, Fs.writeFile, Fs.readFile, Fs.exists_.
  set (fileName := Path.join [folderName; ".esy_hash"]).
  intros Hw.
  assert (∃ mode, d' = <[fileName := Fs.File mode hashToSave]> d) as [mode ->].
  { destruct (d !! fileName) as [[|mode c]|]; [discriminate| |].
    - injection Hw as <-. now exists mode.
    - destruct (Fs.parent_is_dir fileName d); [|discriminate].
      injection Hw as <-. now exists Fs.default_mode. }
  rewrite lookup_insert_eq. rewrite bool_decide_eq_true_2 by eauto.
  repeat split. intros p Hp. now apply lookup_insert_ne.
Qed.

Lemma saveHash_then_query_witness :
  saveHash "/home/omefire/Folder" "0123abcd" {[ "/home/omefire/Folder" := Fs.Dir ]}
    = Some {[ "/home/omefire/Folder" := Fs.Dir;
              "/home/omefire/Folder/.esy_hash" := Fs.File 420 "0123abcd" ]}
  ∧ doesHashExist "/home/omefire/Folder"
      {[ "/home/omefire/Folder" := Fs.Dir;
         "/home/omefire/Folder/.esy_hash" := Fs.File 420 "0123abcd" ]}
    = Printed "true".
Proof.
  assert (saveHash "/home/omefire/Folder" "0123abcd" {[ "/home/omefire/Folder" := Fs.Dir ]}
    = Some {[ "/home/omefire/Folder" := Fs.Dir;
              "/home/omefire/Folder/.esy_hash" := Fs.File 420 "0123abcd" ]}) as Hs.
  { vm_compute. reflexivity. }
  split; [exact Hs|].
  exact (proj1 (saveHash_then_query _ _ _ _ Hs)).
Defined.

(** ** Traversals of arbitrary graphs *)

(** One call of the inner function of [traverseDeepFirst], on any
    graph: what it visits is new, reachable and closed under
    dependencies up to ids. *)
Lemma dfs_go_fresh (b : Build) : ∀ seen log,
  (∀ i, i ∈ ids log → i ∈ seen) →
  NoDup (ids log) →
  ∃ new,
    traverseDeepFirst_go record_visit b (seen, log)
      = (seen ∪ list_to_set (ids new), log ++ new)
    ∧ NoDup (ids (log ++ new))
    ∧ (∀ n, n ∈ new → reachable b n ∧ id n ∉ seen)
    ∧ (∀ v d, v ∈ new → d ∈ dependencies v → id d ∈ seen ∨ id d ∈ ids new)
    ∧ (id b ∈ seen ∨ id b ∈ ids new)
    ∧ (id b ∉ seen → ∃ before, new = before ++ [b]).
Proof.
  induction b as [b IH] using Build_ind'. intros seen log Hsub Hnd.
  assert (traverseDeepFirst_go record_visit b (seen, log)
          = if decide (id b ∈ seen) then (seen, log)
            else let st2 := fold_left (λ st d, traverseDeepFirst_go record_visit d st)
                              (dependencies b) ({[id b]} ∪ seen, log) in
                 (st2.1, record_visit b st2.2)) as -> by (destruct b; reflexivity).
  case_decide as Hseen.
  - exists []. rewrite app_nil_r. cbn.
    split; [f_equal; set_solver|]. split; [exact Hnd|].
    split; [inversion 1|]. split; [inversion 1|]. split; [now left|tauto].
  - assert (∀ ds seen1 log1,
      Forall (λ d, ∀ seen log,
        (∀ i, i ∈ ids log → i ∈ seen) → NoDup (ids log) →
        ∃ new,
          traverseDeepFirst_go record_visit d (seen, log)
            = (seen ∪ list_to_set (ids new), log ++ new)
          ∧ NoDup (ids (log ++ new))
          ∧ (∀ n, n ∈ new → reachable d n ∧ id n ∉ seen)
          ∧ (∀ v d', v ∈ new → d' ∈ dependencies v → id d' ∈ seen ∨ id d' ∈ ids new)
          ∧ (id d ∈ seen ∨ id d ∈ ids new)
          ∧ (id d ∉ seen → ∃ before, new = before ++ [d])) ds →
      (∀ i, i ∈ ids log1 → i ∈ seen1) → NoDup (ids log1) →
      ∃ new,
        fold_left (λ st d, traverseDeepFirst_go record_visit d st) ds (seen1, log1)
          = (seen1 ∪ list_to_set (ids new), log1 ++ new)
        ∧ NoDup (ids (log1 ++ new))
        ∧ (∀ n, n ∈ new → (∃ d, d ∈ ds ∧ reachable d n) ∧ id n ∉ seen1)
        ∧ (∀ v d', v ∈ new → d' ∈ dependencies v → id d' ∈ seen1 ∨ id d' ∈ ids new)
        ∧ (∀ d, d ∈ ds → id d ∈ seen1 ∨ id d ∈ ids new)) as Hfold.
    { clear. induction ds as [|d ds IHds]; intros seen1 log1 Hall Hsub Hnd; cbn [fold_left].
      - exists []. rewrite app_nil_r. cbn.
        split; [f_equal; set_solver|]. split; [exact Hnd|].
        split; [inversion 1|]. split; inversion 1.
      - apply Forall_cons in Hall as [Hd Hall].
        destruct (Hd seen1 log1 Hsub Hnd) as (new1 & E1 & Nd1 & R1 & C1 & D1 & _).
        rewrite E1.
        destruct (IHds (seen1 ∪ list_to_set (ids new1)) (log1 ++ new1) Hall)
          as (new2 & E2 & Nd2 & R2 & C2 & D2).
        { intros i. rewrite map_app, elem_of_app. intros [Hi|Hi]; [|set_solver].
          specialize (Hsub i Hi). set_solver. }
        { exact Nd1. }
        exists (new1 ++ new2). rewrite E2, map_app, list_to_set_app_L, !app_assoc.
        split; [f_equal; set_solver|]. split; [now rewrite <- app_assoc in Nd2 |- *|].
        split; [|split].
        + intros n [Hn|Hn]%elem_of_app.
          * destruct (R1 n Hn) as [Hr Hs]. split; [|exact Hs]. exists d. split; [left|exact Hr].
          * destruct (R2 n Hn) as [(d' & Hd' & Hr) Hs]. split; [|set_solver].
            exists d'. split; [now right|exact Hr].
        + intros v d' [Hv|Hv]%elem_of_app Hd'; rewrite elem_of_app.
          * destruct (C1 v d' Hv Hd'); auto.
          * destruct (C2 v d' Hv Hd') as [Hs|Hs]; [|auto]. set_solver.
        + intros d' [->|Hd']%elem_of_cons; rewrite elem_of_app.
          * destruct D1; auto.
          * destruct (D2 d' Hd') as [Hs|Hs]; [|auto]. set_solver. }
    destruct (Hfold (dependencies b) ({[id b]} ∪ seen) log IH)
      as (new & E & Nd & R & C & D).
    { intros i Hi. specialize (Hsub i Hi). set_solver. }
    { exact Hnd. }
    clear Hfold. cbn zeta. rewrite E. cbn [fst snd]. unfold record_visit.
    assert (id b ∉ ids new) as Hfresh.
    { intros (n & Hn & Hid)%elem_of_ids. destruct (R n Hn) as [_ Hs]. set_solver. }
    exists (new ++ [b]). rewrite map_app, list_to_set_app_L, !app_assoc. cbn.
    split; [f_equal; set_solver|]. split; [|split; [|split; [|split]]].
    + rewrite map_app. apply NoDup_app. split; [exact Nd|]. split; [|apply NoDup_singleton].
      intros i Hi [->|Hn]%elem_of_cons; [|inversion Hn].
      rewrite map_app, elem_of_app in Hi. destruct Hi as [Hi|Hi]; [|tauto].
      apply Hseen, Hsub, Hi.
    + intros n [Hn| ->%list_elem_of_singleton]%elem_of_app.
      * destruct (R n Hn) as [(d & Hd & Hr) Hs]. split; [|set_solver].
        eapply reachable_trans; [apply reachable_dep; eassumption|exact Hr].
      * split; [apply reachable_refl|exact Hseen].
    + intros v d [Hv| ->%list_elem_of_singleton]%elem_of_app Hd; rewrite elem_of_app.
      * destruct (C v d Hv Hd) as [[->%elem_of_singleton|Hs]%elem_of_union|Hs]; auto.
        right. right. left.
      * destruct (D d Hd) as [[->%elem_of_singleton|Hs]%elem_of_union|Hs]; auto.
        right. right. left.
    + right. rewrite elem_of_app. right. left.
    + intros _. now exists new.
Qed.

(** X5: on every graph, also one in which distinct builds share an
    id, the post-order traversal visits the root last, never visits
    two builds with the same id, visits only builds reachable from the
    root, and for every visited build the id of each of its
    dependencies is the id of a visited build. *)
Theorem traverseDeepFirst_any_graph (root : Build) :
  (∃ before, dfs_order root = before ++ [root])
  ∧ NoDup (ids (dfs_order root))
  ∧ (∀ n, n ∈ dfs_order root → reachable root n)
  ∧ (∀ v d, v ∈ dfs_order root → d ∈ dependencies v → id d ∈ ids (dfs_order root)).
Proof.
  unfold dfs_order, traverseDeepFirst.
  destruct (dfs_go_fresh root ∅ []) as (new & E & Nd & R & C & _ & L).
  { inversion 1. }
  { constructor. }
  rewrite E. cbn [snd app] in *.
  split; [apply L, not_elem_of_empty|]. split; [exact Nd|].
  split; [intros n Hn; apply R, Hn|].
  intros v d Hv Hd. destruct (C v d Hv Hd) as [Hs|Hs]; [|exact Hs].
  now apply not_elem_of_empty in Hs.
Qed.

(** X6: on every graph, the breadth-first traversal finishes, visits
    the root first, never visits two builds with the same id, visits
    only builds reachable from the root, and for every visited build
    the id of each of its dependencies is the id of a visited build. *)
Theorem traverse_any_graph (root : Build) :
  ∃ rest,
    bfs_order root = Some (root :: rest)
    ∧ NoDup (ids (root :: rest))
    ∧ (∀ n, n ∈ root :: rest → reachable root n)
    ∧ (∀ v d, v ∈ root :: rest → d ∈ dependencies v → id d ∈ ids (root :: rest)).
Proof.
  destruct (bfs_order_inv root) as (order & Horder & [Hnd Hlr _ Hdeps _]).
  destruct (bfs_order_head root order Horder) as (rest & -> & _).
  exists rest. split; [exact Horder|]. split; [exact Hnd|]. split; [exact Hlr|].
  intros v d Hv Hd. destruct (Hdeps v d Hv Hd) as [?|Hq]; [assumption|inversion Hq].
Qed.

(** X7: [collectTransitiveDependencies] always returns; the result
    never contains the build itself nor any build with its id, holds
    only builds reachable from it, holds no two builds with the same
    id, and holds a build with the id of each direct dependency whose
    id differs from the build's own. *)
Theorem collectTransitiveDependencies_any_graph (build : Build) :
  ∃ deps,
    collectTransitiveDependencies build = Some deps
    ∧ (∀ d, d ∈ deps → id d ≠ id build ∧ reachable build d)
    ∧ NoDup (ids deps)
    ∧ (∀ d, d ∈ dependencies build → id d ≠ id build → id d ∈ ids deps).
Proof.
  destruct (bfs_order_inv build) as (order & Horder & [Hnd Hlr _ Hdeps _]).
  destruct (bfs_order_head build order Horder) as (rest & -> & Hrest).
  exists rest. rewrite collectTransitiveDependencies_bfs, Horder.
  split; [reflexivity|]. split; [|split].
  - intros d Hd. split; [now apply Hrest|]. apply Hlr. now right.
  - cbn in Hnd. now apply NoDup_cons in Hnd as [_ Hnd].
  - intros d Hd Hne. destruct (Hdeps build d) as [Hi|Hq]; [left|exact Hd| |inversion Hq].
    cbn in Hi. apply elem_of_cons in Hi as [Hi|Hi]; [contradiction|exact Hi].
Qed.

(** ** Paths of plain segments *)

Lemma plain_segment_inv (s : string) :
  plain_segment s = true →
  s ≠ "" ∧ s ≠ "." ∧ s ≠ ".." ∧ Str.free_of "/" s = true.
Proof.
  unfold plain_segment. intros H.
  repeat (apply andb_prop in H as [H ?]).
  repeat match goal with
         | H : negb (bool_decide _) = true |- _ =>
             apply negb_true_iff, bool_decide_eq_false in H
         end.
  tauto.
Qed.

Lemma Forall_plain_free (segs : list string) :
  Forall (λ s, plain_segment s = true) segs →
  Forall (λ s, Str.free_of "/" s = true) segs.
Proof.
  intros H. eapply Forall_impl; [exact H|].
  intros s Hs. now apply plain_segment_inv in Hs.
Qed.

Lemma str_app_inv_head (a b c : string) : a +:+ b = a +:+ c → b = c.
Proof.
  induction a as [|x a IH]; [now rewrite !str_app_nil|].
  rewrite !str_app_cons. intros [= E]. now apply IH.
Qed.

Lemma str_app_nonempty_r (a b : string) : b ≠ "" → a +:+ b ≠ "".
Proof. destruct a; [now rewrite str_app_nil|discriminate]. Qed.

Lemma join_app (l1 l2 : list string) :
  l1 ≠ [] → l2 ≠ [] →
  Str.join "/" (l1 ++ l2) = Str.join "/" l1 +:+ "/" +:+ Str.join "/" l2.
Proof.
  intros H1 H2. induction l1 as [|x l1 IH]; [contradiction|].
  destruct l1 as [|y l1].
  - destruct l2 as [|z l2]; [contradiction|]. reflexivity.
  - change (Str.join "/" ((x :: y :: l1) ++ l2))
      with (x +:+ "/" +:+ Str.join "/" ((y :: l1) ++ l2)).
    change (Str.join "/" (x :: y :: l1)) with (x +:+ "/" +:+ Str.join "/" (y :: l1)).
    rewrite IH by discriminate. now rewrite !str_app_assoc.
Qed.

Lemma free_of_no_trailing (s : string) :
  Str.free_of "/" s = true → Str.ends_with_char "/" s = false.
Proof.
  unfold Str.free_of. induction s as [|x s IH]; [reflexivity|].
  cbn [Str.forallb Str.ends_with_char]. intros [Hx Hs]%andb_prop.
  apply negb_true_iff, bool_decide_eq_false in Hx.
  destruct s; [now rewrite decide_False|now apply IH].
Qed.

Lemma free_of_not_absolute (s : string) :
  Str.free_of "/" s = true → Str.starts_with "/" s = false.
Proof.
  destruct s as [|c s]; [reflexivity|]. unfold Str.free_of. cbn.
  intros [Hc _]%andb_prop. apply negb_true_iff, bool_decide_eq_false in Hc.
  now rewrite decide_False by congruence.
Qed.

(** The glued form of a non-empty list of plain segments. *)
Lemma join_plain_shape (segs : list string) :
  segs ≠ [] → Forall (λ s, plain_segment s = true) segs →
  Str.join "/" segs ≠ ""
  ∧ Str.starts_with "/" (Str.join "/" segs) = false
  ∧ Str.ends_with_char "/" (Str.join "/" segs) = false.
Proof.
  intros Hne Hall. induction Hall as [|x l Hx Hl IH]; [contradiction|].
  apply plain_segment_inv in Hx as (Hx & _ & _ & Hfree).
  destruct l as [|y l].
  - change (Str.join "/" [x]) with x. split; [exact Hx|].
    split; [now apply free_of_not_absolute|now apply free_of_no_trailing].
  - destruct (IH ltac:(discriminate)) as (N & _ & T).
    change (Str.join "/" (x :: y :: l)) with (x +:+ "/" +:+ Str.join "/" (y :: l)).
    split; [destruct x; [contradiction|discriminate]|]. split.
    + rewrite head_char_app by exact Hx. now apply free_of_not_absolute.
    + rewrite ends_with_char_app by (apply str_app_nonempty_r, N).
      rewrite ends_with_char_app by exact N. exact T.
Qed.

Lemma fold_normalize_plain (allow : bool) (segs : list string) :
  Forall (λ s, plain_segment s = true) segs →
  ∀ stack, fold_left (Path.normalize_step allow) segs stack = rev segs ++ stack.
Proof.
  induction 1 as [|x l Hx Hl IH]; intros stack; [reflexivity|].
  apply plain_segment_inv in Hx as (H1 & H2 & H3 & _).
  cbn [fold_left rev]. unfold Path.normalize_step at 2.
  rewrite !decide_False by assumption. now rewrite IH, <- app_assoc.
Qed.

Lemma filter_plain (segs : list string) :
  Forall (λ s, plain_segment s = true) segs →
  filter (λ a : string, a ≠ "") segs = segs.
Proof.
  induction 1 as [|x l Hx Hl IH]; [reflexivity|].
  apply plain_segment_inv in Hx as (H1 & _).
  now rewrite filter_cons_True, IH.
Qed.

(** Joining plain segments to a base only appends them: the base
    alone decides what comes before. *)
Lemma join_plain_tail (base : string) :
  ∃ prefix, ∀ segs,
    segs ≠ [] → Forall (λ s, plain_segment s = true) segs →
    Path.join (base :: segs) = prefix +:+ Str.join "/" segs.
Proof.
  destruct (decide (base = "")) as [->|Hbase].
  - exists "". intros segs Hne Hall.
    destruct (join_plain_shape segs Hne Hall) as (N & A & T).
    unfold Path.join. rewrite filter_cons_False by tauto.
    rewrite filter_plain by exact Hall.
    destruct segs as [|x l]; [contradiction|].
    unfold Path.normalize. rewrite decide_False by exact N. cbn zeta.
    rewrite A, T. cbn [negb]. unfold Path.normalizeString.
    rewrite split_join by (try discriminate; now apply Forall_plain_free).
    rewrite fold_normalize_plain by exact Hall.
    rewrite app_nil_r, rev_involutive, decide_False by exact N.
    now rewrite str_app_nil.
  - set (abs := Str.starts_with "/" base).
    set (stack := fold_left (Path.normalize_step (negb abs)) (Str.split "/" base) []).
    exists ((if abs then "/" else "")
            +:+ match stack with
                | [] => ""
                | _ => Str.join "/" (rev stack) +:+ "/"
                end).
    intros segs Hne Hall.
    destruct (join_plain_shape segs Hne Hall) as (N & A & T).
    unfold Path.join. rewrite filter_cons_True by exact Hbase.
    rewrite filter_plain by exact Hall.
    replace (Str.join "/" (base :: segs))
      with (base +:+ String "/" (Str.join "/" segs))
      by (destruct segs; [contradiction|reflexivity]).
    unfold Path.normalize.
    rewrite decide_False by (destruct base; [contradiction|discriminate]).
    cbn zeta. rewrite head_char_app by exact Hbase. fold abs.
    rewrite ends_with_char_app by discriminate.
    replace (Str.ends_with_char "/" (String "/" (Str.join "/" segs))) with false
      by (cbn [Str.ends_with_char]; destruct (Str.join "/" segs); [contradiction|now symmetry]).
    unfold Path.normalizeString.
    rewrite split_at_sep, fold_left_app. fold stack.
    rewrite split_join by (try assumption; now apply Forall_plain_free).
    rewrite fold_normalize_plain by exact Hall.
    rewrite rev_app_distr, rev_involutive.
    assert (Str.join "/" (rev stack ++ segs)
            = match stack with
              | [] => ""
              | _ => Str.join "/" (rev stack) +:+ "/"
              end +:+ Str.join "/" segs) as ->.
    { destruct stack as [|t stack']; [now rewrite str_app_nil|].
      rewrite join_app; [now rewrite !str_app_assoc| |exact Hne].
      cbn [rev]. intros E. apply app_eq_nil in E as [_ E]. discriminate E. }
    rewrite decide_False by (apply str_app_nonempty_r, N).
    destruct abs; now rewrite ?str_app_assoc, ?str_app_nil.
Qed.

Lemma starts_with_app (a b : string) : Str.starts_with a (a +:+ b) = true.
Proof.
  induction a as [|x a IH]; [reflexivity|].
  rewrite str_app_cons. cbn [Str.starts_with]. now rewrite decide_True.
Qed.

(** The three trees of a build with a plain id, below the base that
    its persistence selects. *)
Lemma createConfig_plain (store sandbox : string) (persisted : bool) :
  ∃ prefix, ∀ i g,
    tree_paths (createConfig store sandbox) !! i = Some g →
    ∃ tree,
      ["_build"; "_insttmp"; "_install"] !! i = Some tree
      ∧ plain_segment tree = true
      ∧ ∀ b segs,
          shouldBePersisted b = persisted →
          plain_segment (id b) = true →
          Forall (λ s, plain_segment s = true) segs →
          g b segs = prefix +:+ Str.join "/" (tree :: id b :: segs).
Proof.
  destruct (join_plain_tail (if persisted then store
                             else Path.join [sandbox; "_esy"; "store"]))
    as [prefix Hprefix].
  exists prefix. intros i g Hg.
  destruct i as [|[|[|i]]]; cbn in Hg; try discriminate Hg; injection Hg as <-;
    (eexists; split; [reflexivity|]; split; [reflexivity|]);
    intros b segs Hp Hid Hsegs;
    rewrite <- Hprefix by (discriminate || now repeat constructor);
    rewrite Hp; now destruct persisted.
Qed.

(** X8: for a build whose id is a plain path segment, every path
    that a tree generator ([getBuildPath], [getInstallPath],
    [getFinalInstallPath]) makes from plain segments is the path of the
    tree itself followed by [/] and the segments: it lies strictly
    below the directory of the build in that tree. *)
Theorem tree_paths_nest (store sandbox : string) (b : Build) (segs : list string)
    (g : Build → list string → string) :
  plain_segment (id b) = true →
  segs ≠ [] →
  Forall (λ s, plain_segment s = true) segs →
  g ∈ tree_paths (createConfig store sandbox) →
  g b segs = g b [] +:+ "/" +:+ Str.join "/" segs
  ∧ Fs.strictly_under (g b []) (g b segs) = true.
Proof.
  intros Hid Hne Hsegs [i Hg]%list_elem_of_lookup_1.
  destruct (createConfig_plain store sandbox (shouldBePersisted b)) as [prefix H].
  destruct (H i g Hg) as (tree & _ & _ & E).
  assert (g b segs = g b [] +:+ "/" +:+ Str.join "/" segs) as E1.
  { rewrite (E b segs), (E b []) by (reflexivity || assumption || constructor).
    change (tree :: id b :: segs) with ([tree; id b] ++ segs).
    rewrite join_app by (assumption || discriminate). now rewrite !str_app_assoc. }
  split; [exact E1|].
  unfold Fs.strictly_under. rewrite E1, <- str_app_assoc. apply starts_with_app.
Qed.

Lemma tree_paths_nest_witness :
  getInstallPath (createConfig "/store" "/sb") Scenario.A ["lib"; "ocaml"]
  = getInstallPath (createConfig "/store" "/sb") Scenario.A [] +:+ "/" +:+ "lib/ocaml".
Proof.
  refine (proj1 (tree_paths_nest "/store" "/sb" Scenario.A ["lib"; "ocaml"]
                   (getInstallPath (createConfig "/store" "/sb")) _ _ _ _)).
  - reflexivity.
  - discriminate.
  - repeat constructor.
  - right. left.
Defined.

(** X9: for two builds with plain ids that use the same base (both
    persisted, or both not), the trees do not overlap: the directory
    of the first build in one tree neither is nor contains a path made
    for the second build in another tree, nor, when the two ids
    differ, in any tree.  (Builds on different bases can overlap, when
    the store lies inside the sandbox: [tree_paths_nested_store].) *)
Theorem tree_paths_disjoint (store sandbox : string) (b1 b2 : Build)
    (segs : list string) (i j : nat) (g1 g2 : Build → list string → string) :
  plain_segment (id b1) = true →
  plain_segment (id b2) = true →
  shouldBePersisted b1 = shouldBePersisted b2 →
  Forall (λ s, plain_segment s = true) segs →
  tree_paths (createConfig store sandbox) !! i = Some g1 →
  tree_paths (createConfig store sandbox) !! j = Some g2 →
  i ≠ j ∨ id b1 ≠ id b2 →
  Fs.under (g1 b1 []) (g2 b2 segs) = false.
Proof.
  intros Hid1 Hid2 Hp Hsegs Hg1 Hg2 Hne.
  destruct (createConfig_plain store sandbox (shouldBePersisted b1)) as [prefix H].
  destruct (H i g1 Hg1) as (t1 & Ht1 & Hpt1 & P1).
  destruct (H j g2 Hg2) as (t2 & Ht2 & Hpt2 & P2).
  specialize (P1 b1 [] eq_refl Hid1 ltac:(constructor)).
  specialize (P2 b2 segs (eq_sym Hp) Hid2 Hsegs).
  assert (t1 = t2 → i = j) as Hij.
  { clear P1 P2 Hpt1 Hpt2. intros <-.
    destruct i as [|[|[|i]]]; cbn in Ht1; try discriminate Ht1;
      injection Ht1 as <-;
      destruct j as [|[|[|j]]]; cbn in Ht2; try discriminate Ht2; reflexivity. }
  assert (∀ rest, t2 :: id b2 :: segs = [t1; id b1] ++ rest → False) as Hclash.
  { intros rest [= Et Ei _]. destruct Hne as [Hne|Hne]; [apply Hne, Hij|]; congruence. }
  assert (Forall (λ s, Str.free_of "/" s = true) (t2 :: id b2 :: segs)) as Hfree2.
  { apply Forall_plain_free. now repeat constructor. }
  assert (Forall (λ s, Str.free_of "/" s = true) [t1; id b1]) as Hfree1.
  { apply Forall_plain_free. now repeat constructor. }
  unfold Fs.under. rewrite P1, P2. apply orb_false_intro.
  - apply bool_decide_eq_false. intros E%str_app_inv_head.
    apply (f_equal (Str.split "/")) in E.
    rewrite !split_join in E by (assumption || discriminate).
    apply (Hclash []). now rewrite app_nil_r.
  - apply not_true_is_false. intros E%starts_with_split.
    rewrite !str_app_assoc in E. apply str_app_inv_head in E.
    apply (f_equal (Str.split "/")) in E.
    rewrite str_app_cons, str_app_nil, split_at_sep in E.
    rewrite !split_join in E by (assumption || discriminate).
    exact (Hclash _ E).
Qed.

Lemma tree_paths_disjoint_witness :
  Fs.under (getInstallPath (createConfig "/store" "/sb") Scenario.A [])
           (getFinalInstallPath (createConfig "/store" "/sb") Scenario.L ["lib"])
  = false.
Proof.
  refine (tree_paths_disjoint "/store" "/sb" Scenario.A Scenario.L ["lib"] 1 2
            _ _ _ _ _ _ _ _ _).
  - reflexivity.
  - reflexivity.
  - reflexivity.
  - repeat constructor.
  - reflexivity.
  - reflexivity.
  - left. discriminate.
Defined.

(** A store inside the final install of a development build: the
    trees of a persisted build lie below that install. *)
Example tree_paths_nested_store :
  let config := createConfig "/sb/_esy/store/_install/D" "/sb" in
  Fs.under (getFinalInstallPath config Broken.D [])
           (getBuildPath config Scenario.B ["lib"]) = true.
Proof. vm_compute. reflexivity. Qed.

(** ** The builder as a whole *)

Lemma bind_assoc_at {A B C} (m : io A) (k : A → io B) (h : B → io C) (w : world) :
  ((m ≫= k) ≫= h) w = (m ≫= (λ a, k a ≫= h)) w.
Proof. unfold mbind, io_bind, bind. destruct (m w) as [[a|e] w1]; reflexivity. Qed.

Lemma bind_ext_at {A B} (m : io A) (k k' : A → io B) (w : world) :
  (∀ a w1, k a w1 = k' a w1) → (m ≫= k) w = (m ≫= k') w.
Proof.
  intros H. unfold mbind, io_bind, bind. destruct (m w) as [[a|e] w1]; [apply H|reflexivity].
Qed.

(** A chain of [then] callbacks, one per visited build, is the
    sequential loop over the visit sequence. *)
Lemma chain_replay (step : Build → io unit) (order : list Build) :
  ∀ (chain : io unit) (w : world),
    replay (λ b (buildInProgress : io unit), buildInProgress;; step b) chain order w
    = (chain;; for_each order step) w.
Proof.
  induction order as [|b order IH]; intros chain w; cbn [replay fold_left for_each].
  - unfold mbind, io_bind, bind, ret. destruct (chain w) as [[[]|e] w1]; reflexivity.
  - unfold replay in IH. rewrite IH. apply bind_assoc_at.
Qed.

Lemma for_each_app {A} (l1 l2 : list A) (step : A → io unit) (w : world) :
  for_each (l1 ++ l2) step w = (for_each l1 step;; for_each l2 step) w.
Proof.
  revert w. induction l1 as [|a l1 IH]; intros w; cbn [app for_each].
  - reflexivity.
  - rewrite bind_assoc_at. apply bind_ext_at. intros [] w1. apply IH.
Qed.

Section BuilderAsAWhole.
Variable calculateEnvironment :
  BuildConfig → Build → list EnvironmentVar → outcome Environment.
Variable run_process :
  request → gmap string Fs.node → outcome unit * gmap string Fs.node.
Variable rimraf :
  string → gmap string Fs.node → outcome unit * gmap string Fs.node.

Lemma build_unfold (sandbox : BuildSandbox) (config : BuildConfig) (w : world) :
  build calculateEnvironment run_process rimraf sandbox config w
  = (initStore (storePath config);;
     initStore (Path.join [sandboxPath config; "_esy"; "store"]);;
     for_each (dfs_order (root sandbox))
       (λ b, performBuild_settled calculateEnvironment run_process rimraf b config sandbox)) w.
Proof.
  unfold build. apply bind_ext_at. intros _ w1. apply bind_ext_at. intros _ w2.
  unfold traverseDeepFirst, dfs_order, traverseDeepFirst.
  change (∅, mret tt) with (∅ : gset string, replay
    (λ b (buildInProgress : io unit),
       buildInProgress;; performBuild_settled calculateEnvironment run_process rimraf b config sandbox)
    (mret tt) []).
  rewrite traverseDeepFirst_go_replay. cbn [snd]. rewrite chain_replay. reflexivity.
Qed.

(** X10: the builder sets up the store and the sandbox-local store
    and then runs [performBuild], each with the rewrite chain it
    leaves behind, once for every build of the post-order visit
    sequence of the root, in that order, each one after the previous
    one has finished. *)
Theorem build_post_order (sandbox : BuildSandbox) (config : BuildConfig) (w : world) :
  build calculateEnvironment run_process rimraf sandbox config w
  = (initStore (storePath config);;
     initStore (Path.join [sandboxPath config; "_esy"; "store"]);;
     for_each (dfs_order (root sandbox))
       (λ b, performBuild_settled calculateEnvironment run_process rimraf b config sandbox)) w.
Proof. apply build_unfold. Qed.

(** X11: when the build of one package fails, the builder fails with
    that error and stops there: no request is issued and nothing is
    changed for the builds that come later in the visit sequence, among
    them every build that depends on the failed one. *)
Theorem build_stops_at_failure (sandbox : BuildSandbox) (config : BuildConfig)
    (before after : list Build) (b : Build) (e : string) (w w0 w1 w2 : world) :
  (initStore (storePath config);;
   initStore (Path.join [sandboxPath config; "_esy"; "store"])) w = (Done tt, w0) →
  dfs_order (root sandbox) = before ++ b :: after →
  for_each before
    (λ b, performBuild_settled calculateEnvironment run_process rimraf b config sandbox) w0
    = (Done tt, w1) →
  performBuild_settled calculateEnvironment run_process rimraf b config sandbox w1
    = (Failed e, w2) →
  build calculateEnvironment run_process rimraf sandbox config w = (Failed e, w2).
Proof.
  intros Hinit Horder Hbefore Hfail.
  rewrite build_unfold, Horder.
  rewrite <- bind_assoc_at.
  unfold mbind at 1, io_bind at 1, bind at 1. rewrite Hinit.
  rewrite for_each_app. unfold mbind at 1, io_bind at 1, bind at 1. rewrite Hbefore.
  cbn [for_each]. unfold mbind at 1, io_bind at 1, bind at 1. now rewrite Hfail.
Qed.
End BuilderAsAWhole.

Lemma build_stops_at_failure_witness :
  ∃ w2,
    build Scenario.calculateEnvironment Broken.run_process Scenario.rimraf
      (Scenario.sandbox Scenario.T) Scenario.config Scenario.empty_world
    = (Failed "exit 1", w2).
Proof.
  eexists.
  eapply (build_stops_at_failure Scenario.calculateEnvironment Broken.run_process Scenario.rimraf
            (Scenario.sandbox Scenario.T) Scenario.config
            [Scenario.L] [Scenario.T] Scenario.A).
  - vm_compute. reflexivity.
  - vm_compute. reflexivity.
  - vm_compute. reflexivity.
  - vm_compute. reflexivity.
Defined.

(** ** The store skeleton *)

Lemma fold_insert_dir_lookup (l : list string) : ∀ (d : gmap string Fs.node) (k : string),
  fold_left (λ d a, <[a := Fs.Dir]> d) l d !! k
  = if decide (k ∈ l) then Some Fs.Dir else d !! k.
Proof.
  induction l as [|a l IH]; intros d k; cbn [fold_left].
  - rewrite decide_False by inversion 1. reflexivity.
  - rewrite IH. destruct (decide (k ∈ l)) as [Hl|Hl].
    + rewrite decide_True by now right. reflexivity.
    + destruct (decide (k = a)) as [->|Hne].
      * rewrite decide_True by left. apply lookup_insert_eq.
      * rewrite decide_False by (intros [?|?]%elem_of_cons; tauto).
        now apply lookup_insert_ne.
Qed.

Lemma mkdirp_inv (p : string) (d d' : gmap string Fs.node) :
  Fs.mkdirp p d = Some d' →
  (∀ a, a ∈ Fs.ancestors p → d !! a = None ∨ d !! a = Some Fs.Dir)
  ∧ ∀ k, d' !! k = if decide (k ∈ Fs.ancestors p) then Some Fs.Dir else d !! k.
Proof.
  unfold Fs.mkdirp.
  destruct (forallb _ (Fs.ancestors p)) eqn:Hall; [|discriminate].
  intros [= <-]. split; [|intros k; apply fold_insert_dir_lookup].
  intros a Ha. rewrite forallb_forall in Hall.
  specialize (Hall a (proj1 (list_elem_of_In _ _) Ha)).
  now apply bool_decide_eq_true in Hall.
Qed.

(** [mkdirp] keeps every entry of the disk. *)
Lemma mkdirp_preserves (p : string) (d d' : gmap string Fs.node) (k : string)
    (n : Fs.node) :
  Fs.mkdirp p d = Some d' → d !! k = Some n → d' !! k = Some n.
Proof.
  intros [Hchk Hlook]%mkdirp_inv Hk. rewrite Hlook.
  case_decide as Ha; [|exact Hk].
  destruct (Hchk k Ha) as [E|E]; congruence.
Qed.

(** On a disk that has all the directories, [mkdirp] changes nothing. *)
Lemma mkdirp_existing (p : string) (d : gmap string Fs.node) :
  (∀ a, a ∈ Fs.ancestors p → d !! a = Some Fs.Dir) → Fs.mkdirp p d = Some d.
Proof.
  intros Hall. unfold Fs.mkdirp.
  assert (forallb (λ a, bool_decide (d !! a = None ∨ d !! a = Some Fs.Dir))
            (Fs.ancestors p) = true) as ->.
  { apply forallb_forall. intros a Ha%list_elem_of_In.
    apply bool_decide_eq_true. right. now apply Hall. }
  f_equal. apply map_eq. intros k. rewrite fold_insert_dir_lookup.
  case_decide as Ha; [symmetry; now apply Hall|reflexivity].
Qed.

Lemma join_split (s : string) : Str.join "/" (Str.split "/" s) = s.
Proof.
  induction s as [|c s IH]; [reflexivity|]. cbn [Str.split].
  pose proof (split_nonempty "/" s) as Hne.
  destruct (Str.split "/" s) as [|h t] eqn:E; [contradiction|].
  case_decide as Hc.
  - subst c. change (Str.join "/" ("" :: h :: t)) with ("" +:+ "/" +:+ Str.join "/" (h :: t)).
    now rewrite IH.
  - rewrite <- IH. destruct t; reflexivity.
Qed.

Lemma inits_self {A} (l : list A) : l ≠ [] → l ∈ Fs.inits l.
Proof.
  induction l as [|x l IH]; [contradiction|]. intros _. cbn [Fs.inits].
  destruct l as [|y l]; [left|]. right.
  apply list_elem_of_fmap. exists (y :: l). split; [reflexivity|]. now apply IH.
Qed.

Lemma ancestors_self (p : string) : p ≠ "" → p ∈ Fs.ancestors p.
Proof.
  intros Hp. unfold Fs.ancestors. apply list_elem_of_filter. split; [exact Hp|].
  apply list_elem_of_fmap. exists (Str.split "/" p).
  split; [symmetry; apply join_split|apply inits_self, split_nonempty].
Qed.

Lemma normalize_nonempty (p : string) : Path.normalize p ≠ "".
Proof.
  unfold Path.normalize. case_decide; [discriminate|]. cbn zeta.
  case_decide as Hn.
  - destruct (Str.starts_with "/" p), (Str.ends_with_char "/" p); discriminate.
  - destruct (Str.starts_with "/" p); [discriminate|].
    destruct (Str.ends_with_char "/" p); [|exact Hn].
    now apply str_app_nonempty_r.
Qed.

Lemma path_join_nonempty (args : list string) : Path.join args ≠ "".
Proof.
  unfold Path.join. destruct (filter _ args); [discriminate|apply normalize_nonempty].
Qed.

Lemma fs_mkdirp_inv (p : string) (w w' : world) :
  fs.mkdirp p w = (Done tt, w') →
  Fs.mkdirp p (disk w) = Some (disk w')
  ∧ issued w' = issued w ++ [ReqMkdirp p] ∧ detached w' = detached w.
Proof.
  unfold fs.mkdirp, update. destruct (Fs.mkdirp p (disk w)); [|discriminate].
  intros [= <-]. repeat split.
Qed.

Lemma fs_mkdirp_keeps (p : string) (w : world) (k : string) (n : Fs.node) :
  disk w !! k = Some n → disk (fs.mkdirp p w).2 !! k = Some n.
Proof.
  unfold fs.mkdirp, update. destruct (Fs.mkdirp p (disk w)) eqn:E; cbn; [|tauto].
  now apply (mkdirp_preserves p).
Qed.

Lemma promise_all_keeps (ps : list (io unit)) (k : string) (n : Fs.node) :
  Forall (λ m : io unit, ∀ w, disk w !! k = Some n → disk (m w).2 !! k = Some n) ps →
  ∀ w, disk w !! k = Some n → disk (promise_all ps w).2 !! k = Some n.
Proof.
  induction 1 as [|m ps Hm _ IH]; intros w Hk; cbn [promise_all]; [exact Hk|].
  specialize (Hm w Hk). destruct (m w) as [r w1]. cbn [snd] in Hm.
  specialize (IH w1 Hm). destruct (promise_all ps w1) as [r' w2]. exact IH.
Qed.

(** X12: whether it succeeds or fails, [initStore] never removes or
    replaces anything: every entry of the disk is still there, with the
    same content, afterwards. *)
Theorem initStore_keeps_entries (store : string) (w : world) (k : string) (n : Fs.node) :
  disk w !! k = Some n → disk (initStore store w).2 !! k = Some n.
Proof.
  unfold initStore. apply promise_all_keeps.
  cbn [map]. repeat constructor; intros w'; apply fs_mkdirp_keeps.
Qed.

Lemma initStore_keeps_entries_witness :
  disk (initStore "/store" Scenario.staged_A).2 !! "/store/_insttmp/A/bin/marker"
  = Some (Fs.File 493 Scenario.marker).
Proof.
  apply (initStore_keeps_entries "/store" Scenario.staged_A). reflexivity.
Defined.

(** X13: when [initStore] succeeds, the three trees of the store
    exist as directories; and running it again on the result succeeds
    and leaves the disk as it is. *)
Theorem initStore_creates_skeleton (store : string) (w w' : world) :
  initStore store w = (Done tt, w') →
  Forall (λ tree, disk w' !! Path.join [store; tree] = Some Fs.Dir)
    ["_build"; "_install"; "_insttmp"]
  ∧ ∃ w'', initStore store w' = (Done tt, w'') ∧ disk w'' = disk w'.
Proof.
  unfold initStore. cbn [map promise_all].
  set (p1 := Path.join [store; "_build"]).
  set (p2 := Path.join [store; "_install"]).
  set (p3 := Path.join [store; "_insttmp"]).
  destruct (fs.mkdirp p1 w) as [[[]|e1] w1] eqn:E1.
  2:{ destruct (fs.mkdirp p2 w1) as [r2 w2], (fs.mkdirp p3 w2) as [r3 w3]. discriminate. }
  destruct (fs.mkdirp p2 w1) as [[[]|e2] w2] eqn:E2.
  2:{ destruct (fs.mkdirp p3 w2) as [r3 w3]. discriminate. }
  destruct (fs.mkdirp p3 w2) as [[[]|e3] w3] eqn:E3; [|discriminate].
  intros [= <-].
  apply fs_mkdirp_inv in E1 as (M1 & _ & _).
  apply fs_mkdirp_inv in E2 as (M2 & _ & _).
  apply fs_mkdirp_inv in E3 as (M3 & _ & _).
  assert (∀ a, a ∈ Fs.ancestors p1 ∨ a ∈ Fs.ancestors p2 ∨ a ∈ Fs.ancestors p3 →
               disk w3 !! a = Some Fs.Dir) as Hdirs.
  { intros a Ha.
    assert (∀ p d d', Fs.mkdirp p d = Some d' → a ∈ Fs.ancestors p →
                      d' !! a = Some Fs.Dir) as Hset.
    { intros p d d' [_ Hl]%mkdirp_inv Hin. rewrite Hl. now rewrite decide_True. }
    destruct Ha as [Ha|[Ha|Ha]].
    - apply (mkdirp_preserves p3 (disk w2)); [exact M3|].
      apply (mkdirp_preserves p2 (disk w1)); [exact M2|].
      exact (Hset _ _ _ M1 Ha).
    - apply (mkdirp_preserves p3 (disk w2)); [exact M3|].
      exact (Hset _ _ _ M2 Ha).
    - exact (Hset _ _ _ M3 Ha). }
  split.
  - repeat constructor; apply Hdirs; [left|right; left|right; right];
      apply ancestors_self, path_join_nonempty.
  - unfold fs.mkdirp, update. cbn [disk].
    rewrite (mkdirp_existing p1) by (intros a Ha; apply Hdirs; tauto). cbn [disk].
    rewrite (mkdirp_existing p2) by (intros a Ha; apply Hdirs; tauto). cbn [disk].
    rewrite (mkdirp_existing p3) by (intros a Ha; apply Hdirs; tauto).
    eexists. split; reflexivity.
Qed.

Lemma initStore_creates_skeleton_witness :
  ∃ w', initStore "/store" Scenario.empty_world = (Done tt, w')
        ∧ disk w' !! "/store/_install" = Some Fs.Dir.
Proof.
  eexists. split; [vm_compute; reflexivity|].
  pose proof (initStore_creates_skeleton "/store" Scenario.empty_world _
                ltac:(vm_compute; reflexivity)) as [H _].
  apply Forall_cons in H as [_ H]. apply Forall_cons in H as [H _]. exact H.
Defined.

(** ** Joining an already joined path *)

(** The stacks that [normalizeString] builds: no empty segment, no
    [.], and [..] only at the bottom, and only when the path may
    climb. *)
Inductive normal_stack (allow : bool) : list string → Prop :=
| normal_nil : normal_stack allow []
| normal_dots (stack : list string) :
    allow = true → normal_stack allow stack →
    stack = [] ∨ head stack = Some ".." →
    normal_stack allow (".." :: stack)
| normal_seg (seg : string) (stack : list string) :
    seg ≠ "" → seg ≠ "." → seg ≠ ".." → normal_stack allow stack →
    normal_stack allow (seg :: stack).

Lemma normalize_step_normal (allow : bool) (stack : list string) (seg : string) :
  normal_stack allow stack → normal_stack allow (Path.normalize_step allow stack seg).
Proof.
  intros H. unfold Path.normalize_step.
  destruct (decide (seg = "")); [exact H|].
  destruct (decide (seg = ".")); [exact H|].
  destruct (decide (seg = "..")).
  - destruct stack as [|top below].
    + destruct allow eqn:E; [|constructor]. apply normal_dots; auto.
    + destruct (decide (top = "..")) as [->|Hne].
      * destruct allow eqn:E; [|exact H]. apply normal_dots; auto.
      * inversion H; subst; [contradiction|assumption].
  - now apply normal_seg.
Qed.

Lemma fold_normalize_normal (allow : bool) (segs : list string) : ∀ stack,
  normal_stack allow stack →
  normal_stack allow (fold_left (Path.normalize_step allow) segs stack).
Proof.
  induction segs as [|seg segs IH]; intros stack H; [exact H|].
  cbn [fold_left]. apply IH. now apply normalize_step_normal.
Qed.

(** Normalising a normal stack, read bottom up, gives it back. *)
Lemma normal_stack_replay (allow : bool) (stack : list string) :
  normal_stack allow stack →
  fold_left (Path.normalize_step allow) (rev stack) [] = stack.
Proof.
  induction 1 as [|stack Ha H IH Hd|seg stack H1 H2 H3 H IH]; [reflexivity| |];
    cbn [rev]; rewrite fold_left_app, IH; cbn [fold_left]; unfold Path.normalize_step.
  - rewrite !decide_False by discriminate. rewrite decide_True by reflexivity.
    subst allow. destruct Hd as [->|Hd]; [reflexivity|].
    destruct stack as [|top below]; [discriminate Hd|]. injection Hd as ->.
    now rewrite decide_True.
  - now rewrite !decide_False by assumption.
Qed.

Lemma split_all_free (c : ascii) (s : string) :
  Forall (λ seg, Str.free_of c seg = true) (Str.split c s).
Proof.
  induction s as [|x s IH]; [repeat constructor|]. cbn [Str.split].
  case_decide as Hx; [constructor; [reflexivity|exact IH]|].
  destruct (Str.split c s) as [|h t]; [repeat constructor|].
  - unfold Str.free_of. cbn. now rewrite bool_decide_eq_false_2.
  - apply Forall_cons in IH as [Hh Ht]. constructor; [|exact Ht].
    unfold Str.free_of in *. cbn [Str.forallb]. now rewrite bool_decide_eq_false_2.
Qed.

Lemma normalize_step_free (allow : bool) (stack : list string) (seg : string) :
  Str.free_of "/" seg = true →
  Forall (λ s, Str.free_of "/" s = true) stack →
  Forall (λ s, Str.free_of "/" s = true) (Path.normalize_step allow stack seg).
Proof.
  intros Hseg H. unfold Path.normalize_step.
  repeat case_decide; try assumption.
  - destruct stack as [|top below].
    + destruct allow; repeat constructor.
    + case_decide; [destruct allow; [constructor; [reflexivity|]|]; assumption|].
      now apply Forall_cons in H as [_ H].
  - now constructor.
Qed.

Lemma fold_normalize_free (allow : bool) (segs : list string) : ∀ stack,
  Forall (λ s, Str.free_of "/" s = true) segs →
  Forall (λ s, Str.free_of "/" s = true) stack →
  Forall (λ s, Str.free_of "/" s = true)
    (fold_left (Path.normalize_step allow) segs stack).
Proof.
  induction segs as [|seg segs IH]; intros stack Hs H; [exact H|].
  apply Forall_cons in Hs as [Hseg Hs]. cbn [fold_left].
  apply IH; [exact Hs|]. now apply normalize_step_free.
Qed.

Lemma normal_stack_nonempty (allow : bool) (stack : list string) :
  normal_stack allow stack → Forall (λ s, s ≠ "") stack.
Proof. induction 1; constructor; (assumption || discriminate). Qed.

(** What [path.join] puts before the plain segments that follow
    [base]. *)
Lemma join_plain_tail_prefix (base : string) (segs : list string) :
  base ≠ "" → segs ≠ [] → Forall (λ s, plain_segment s = true) segs →
  let abs := Str.starts_with "/" base in
  let stack := fold_left (Path.normalize_step (negb abs)) (Str.split "/" base) [] in
  Path.join (base :: segs)
  = (if abs then "/" else "") +:+ Str.join "/" (rev stack ++ segs).
Proof.
  intros Hbase Hne Hall abs stack.
  destruct (join_plain_shape segs Hne Hall) as (N & A & T).
  unfold Path.join. rewrite filter_cons_True by exact Hbase.
  rewrite filter_plain by exact Hall.
  replace (Str.join "/" (base :: segs))
    with (base +:+ String "/" (Str.join "/" segs))
    by (destruct segs; [contradiction|reflexivity]).
  unfold Path.normalize.
  rewrite decide_False by (destruct base; [contradiction|discriminate]).
  cbn zeta. rewrite head_char_app by exact Hbase. fold abs.
  rewrite ends_with_char_app by discriminate.
  replace (Str.ends_with_char "/" (String "/" (Str.join "/" segs))) with false
    by (cbn [Str.ends_with_char]; destruct (Str.join "/" segs); [contradiction|now symmetry]).
  unfold Path.normalizeString.
  rewrite split_at_sep, fold_left_app. fold stack.
  rewrite split_join by (try assumption; now apply Forall_plain_free).
  rewrite fold_normalize_plain by exact Hall.
  rewrite rev_app_distr, rev_involutive.
  assert (Str.join "/" (rev stack ++ segs) ≠ "") as Hj.
  { destruct (rev stack) as [|t l] eqn:E; [exact N|].
    rewrite join_app by (assumption || discriminate).
    apply str_app_nonempty_r. rewrite str_app_cons. discriminate. }
  rewrite decide_False by exact Hj. now destruct abs.
Qed.

(** Joining plain segments to a path that was itself joined from plain
    segments is joining them all at once. *)
Lemma join_join (base : string) (segs1 segs2 : list string) :
  segs1 ≠ [] → Forall (λ s, plain_segment s = true) segs1 →
  segs2 ≠ [] → Forall (λ s, plain_segment s = true) segs2 →
  Path.join (Path.join (base :: segs1) :: segs2) = Path.join (base :: segs1 ++ segs2).
Proof.
  intros Hne1 Hall1 Hne2 Hall2.
  assert (Forall (λ s, plain_segment s = true) (segs1 ++ segs2)) as Hall
    by (apply Forall_app; tauto).
  assert (segs1 ++ segs2 ≠ []) as Hne by (destruct segs1; [contradiction|discriminate]).
  (* the joined path as a prefix and a normal list of segments *)
  assert (∃ (abs : bool) (front : list string),
            (∀ segs, segs ≠ [] → Forall (λ s, plain_segment s = true) segs →
               Path.join (base :: segs)
               = (if abs then "/" else "") +:+ Str.join "/" (front ++ segs))
            ∧ normal_stack (negb abs) (rev front)
            ∧ Forall (λ s, Str.free_of "/" s = true) front) as (abs & front & Hjoin & Hnorm & Hfree).
  { destruct (decide (base = "")) as [->|Hbase].
    - exists false, []. split; [|split; constructor].
      intros segs Hn Ha. destruct (join_plain_tail "") as [prefix Hp].
      unfold Path.join. rewrite filter_cons_False by tauto.
      rewrite filter_plain by exact Ha.
      destruct (join_plain_shape segs Hn Ha) as (N & A & T).
      destruct segs as [|x l]; [contradiction|].
      unfold Path.normalize. rewrite decide_False by exact N. cbn zeta.
      rewrite A, T. cbn [negb]. unfold Path.normalizeString.
      rewrite split_join by (try discriminate; now apply Forall_plain_free).
      rewrite fold_normalize_plain by exact Ha.
      rewrite app_nil_r, rev_involutive, decide_False by exact N.
      now rewrite str_app_nil.
    - exists (Str.starts_with "/" base),
        (rev (fold_left (Path.normalize_step (negb (Str.starts_with "/" base)))
                (Str.split "/" base) [])).
      split; [|split].
      + intros segs Hn Ha. now apply join_plain_tail_prefix.
      + rewrite rev_involutive. apply fold_normalize_normal. constructor.
      + apply Forall_rev, fold_normalize_free; [apply split_all_free|constructor]. }
  rewrite (Hjoin (segs1 ++ segs2) Hne Hall), (Hjoin segs1 Hne1 Hall1).
  set (B := (if abs then "/" else "") +:+ Str.join "/" (front ++ segs1)).
  assert (front ++ segs1 ≠ []) as Hfs by (destruct front; [assumption|discriminate]).
  assert (Forall (λ s, Str.free_of "/" s = true) (front ++ segs1)) as Hfree1
    by (apply Forall_app; split; [exact Hfree|now apply Forall_plain_free]).
  assert (Forall (λ s, s ≠ "") (front ++ segs1)) as Hnon.
  { apply Forall_app. split.
    - apply normal_stack_nonempty in Hnorm. apply Forall_rev in Hnorm.
      now rewrite rev_involutive in Hnorm.
    - eapply Forall_impl; [exact Hall1|]. intros s Hs. now apply plain_segment_inv in Hs. }
  assert (Str.join "/" (front ++ segs1) ≠ ""
          ∧ Str.starts_with "/" (Str.join "/" (front ++ segs1)) = false) as [Hjn Hjs].
  { destruct (front ++ segs1) as [|x l]; [contradiction|].
    apply Forall_cons in Hnon as [Hx _]. apply Forall_cons in Hfree1 as [Hfx _].
    destruct l as [|y l].
    - split; [exact Hx|now apply free_of_not_absolute].
    - change (Str.join "/" (x :: y :: l)) with (x +:+ "/" +:+ Str.join "/" (y :: l)).
      split; [destruct x; [contradiction|discriminate]|].
      rewrite head_char_app by exact Hx. now apply free_of_not_absolute. }
  assert (B ≠ "") as HB by (apply str_app_nonempty_r, Hjn).
  assert (Str.starts_with "/" B = abs) as Habs.
  { unfold B. destruct abs; [reflexivity|]. now rewrite str_app_nil. }
  rewrite (join_plain_tail_prefix B segs2 HB Hne2 Hall2). cbn zeta. rewrite Habs.
  f_equal. f_equal.
  assert (fold_left (Path.normalize_step (negb abs)) (Str.split "/" B) []
          = rev segs1 ++ rev front) as ->.
  { assert (fold_left (Path.normalize_step (negb abs))
              (Str.split "/" (Str.join "/" (front ++ segs1))) []
            = rev segs1 ++ rev front) as Hfold.
    { rewrite split_join by assumption.
      rewrite fold_left_app.
      rewrite <- (rev_involutive front) at 1. rewrite normal_stack_replay by exact Hnorm.
      now rewrite fold_normalize_plain by exact Hall1. }
    unfold B. destruct abs; [|now rewrite str_app_nil].
    change ("/" +:+ ?s) with (String "/" s). cbn [Str.split].
    rewrite decide_True by reflexivity. cbn [fold_left].
    unfold Path.normalize_step at 2. rewrite decide_True by reflexivity. exact Hfold. }
  now rewrite rev_app_distr, !rev_involutive, app_assoc.
Qed.

(** ** Installing is all or nothing *)

(** *** The path scheme on paths in normal form *)








Lemma under_refl (p : string) : Fs.under p p = true.
Proof. unfold Fs.under. now rewrite bool_decide_eq_true_2. Qed.

Lemma under_inv (dir p : string) :
  Fs.under dir p = true → p = dir ∨ ∃ z, p = dir +:+ "/" +:+ z.
Proof.
  unfold Fs.under. intros [H|H]%orb_prop.
  - left. now apply bool_decide_eq_true in H.
  - right. apply starts_with_split in H. rewrite str_app_assoc in H. eauto.
Qed.

Lemma under_below (dir z : string) : Fs.under dir (dir +:+ "/" +:+ z) = true.
Proof.
  unfold Fs.under. rewrite <- str_app_assoc, starts_with_app. apply orb_true_r.
Qed.

Lemma under_trans (a b c : string) :
  Fs.under a b = true → Fs.under b c = true → Fs.under a c = true.
Proof.
  intros [->|(z & ->)]%under_inv Hbc; [exact Hbc|].
  apply under_inv in Hbc as [->|(z' & ->)]; [apply under_below|].
  rewrite !str_app_assoc. apply under_below.
Qed.

Lemma inits_prefix {A} (l L : list A) : l ∈ Fs.inits L → l ≠ [] ∧ ∃ r, L = l ++ r.
Proof.
  revert l. induction L as [|x L IH]; intros l; cbn [Fs.inits]; [inversion 1|].
  intros [->|H]%elem_of_cons.
  - split; [discriminate|]. now exists L.
  - apply list_elem_of_fmap in H as (l' & -> & Hl').
    split; [discriminate|]. destruct (IH l' Hl') as [_ (r & ->)]. now exists r.
Qed.

(** A path lies at or below each of its ancestors. *)
Lemma ancestors_under (a p : string) : a ∈ Fs.ancestors p → Fs.under a p = true.
Proof.
  unfold Fs.ancestors. intros [_ H]%list_elem_of_filter.
  apply list_elem_of_fmap in H as (l & -> & Hl).
  apply inits_prefix in Hl as [Hne (r & Hr)].
  rewrite <- (join_split p), Hr. destruct r as [|y r].
  - rewrite app_nil_r. apply under_refl.
  - rewrite join_app by (assumption || discriminate). apply under_below.
Qed.

Lemma rmtree_absent (q : string) (d : gmap string Fs.node) :
  absent_below q (Fs.rmtree q d).
Proof.
  intros k Hk. unfold Fs.rmtree. apply map_lookup_filter_None. right.
  intros n _. cbn. now rewrite Hk.
Qed.

Lemma rmtree_keeps_absent (p q : string) (d : gmap string Fs.node) :
  absent_below q d → absent_below q (Fs.rmtree p d).
Proof.
  intros H k Hk. unfold Fs.rmtree. apply map_lookup_filter_None. left. now apply H.
Qed.

Lemma mkdirp_keeps_absent (p q : string) (d d' : gmap string Fs.node) :
  Fs.under q p = false → Fs.mkdirp p d = Some d' →
  absent_below q d → absent_below q d'.
Proof.
  intros Hp [_ Hl]%mkdirp_inv H k Hk. rewrite Hl.
  case_decide as Ha; [|now apply H].
  apply ancestors_under in Ha. rewrite (under_trans q k p Hk Ha) in Hp. discriminate.
Qed.

Lemma writeFile_keeps_absent (p c q : string) (d d' : gmap string Fs.node) :
  Fs.under q p = false → Fs.writeFile p c d = Some d' →
  absent_below q d → absent_below q d'.
Proof.
  intros Hp Hw H k Hk.
  assert (k ≠ p) as Hne by (intros ->; congruence).
  unfold Fs.writeFile in Hw.
  destruct (d !! p) as [[|mode c0]|]; [discriminate| |].
  - injection Hw as <-. rewrite lookup_insert_ne by congruence. now apply H.
  - destruct (Fs.parent_is_dir p d); [|discriminate].
    injection Hw as <-. rewrite lookup_insert_ne by congruence. now apply H.
Qed.

Section Invariants.
Context (P : gmap string Fs.node → Prop).

Lemma keeps_ret {A} (a : A) : keeps P (mret a : io A).
Proof. intros w H. exact H. Qed.

Lemma keeps_pure {A} (r : outcome A) : keeps P (λ w, (r, w)).
Proof. intros w H. exact H. Qed.

Lemma keeps_bind {A B} (m : io A) (k : A → io B) :
  keeps P m → (∀ a, keeps P (k a)) → keeps P (m ≫= k).
Proof.
  intros Hm Hk w H. specialize (Hm w H).
  unfold mbind, io_bind, bind. destruct (m w) as [[a|e] w1]; [|exact Hm].
  now apply Hk.
Qed.

Lemma keeps_update (r : request) (err : string)
    (f : gmap string Fs.node → option (gmap string Fs.node)) :
  (∀ d d', f d = Some d' → P d → P d') → keeps P (update r err f).
Proof.
  intros Hf w H. unfold update. destruct (f (disk w)) eqn:E; [|exact H].
  now apply (Hf (disk w)).
Qed.

Lemma keeps_query {A} (r : request) (err : string)
    (f : gmap string Fs.node → option A) :
  keeps P (query r err f).
Proof. intros w H. exact H. Qed.

Lemma keeps_promise_all (ps : list (io unit)) :
  Forall (keeps P) ps → keeps P (promise_all ps).
Proof.
  induction 1 as [|m ps Hm _ IH]; intros w H; cbn [promise_all]; [exact H|].
  specialize (Hm w H). destruct (m w) as [r w1]. cbn [snd] in Hm.
  specialize (IH w1 Hm). destruct (promise_all ps w1) as [r' w2]. exact IH.
Qed.

Lemma keeps_for_each {A} (l : list A) (step : A → io unit) :
  (∀ a, keeps P (step a)) → keeps P (for_each l step).
Proof.
  intros Hstep. induction l as [|a l IH]; cbn [for_each]; [apply keeps_ret|].
  apply keeps_bind; [apply Hstep|intros _; exact IH].
Qed.

Lemma keeps_fails_within {A} (m : io A) : keeps P m → fails_within P m.
Proof. intros Hm w e w' H E. specialize (Hm w H). now rewrite E in Hm. Qed.

Lemma fails_within_bind {A B} (m : io A) (k : A → io B) :
  keeps P m → (∀ a, fails_within P (k a)) → fails_within P (m ≫= k).
Proof.
  intros Hm Hk w e w' H E. specialize (Hm w H).
  apply bind_inv in E as [(a & w1 & E1 & E2)|(e' & E1 & _)]; rewrite E1 in Hm.
  - exact (Hk a w1 e w' Hm E2).
  - exact Hm.
Qed.
End Invariants.

Lemma succeeds_with_bind (Q : world → Prop) {A B} (m : io A) (k : A → io B) :
  (∀ a, succeeds_with Q (k a)) → succeeds_with Q (m ≫= k).
Proof.
  intros Hk w b w' E.
  apply bind_inv in E as [(a & w1 & _ & E2)|(e' & _ & [=])].
  exact (Hk a w1 b w' E2).
Qed.

(** A rewrite task writes only files that exist: it creates and
    removes nothing. *)
Lemma rewrite_task_domain (origPath destPath : string) (file : walk_entry)
    (w : world) (k : string) :
  is_Some (disk (rewrite_task origPath destPath file w).2 !! k)
  ↔ is_Some (disk w !! k).
Proof.
  rewrite rewrite_task_disk.
  destruct (disk w !! absolute file) as [[|mode content]|] eqn:E; try reflexivity.
  destruct (Str.indexOf content origPath >? -1)%Z; [|reflexivity].
  destruct (decide (k = absolute file)) as [->|Hne].
  - rewrite lookup_insert_eq, E. split; eauto.
  - now rewrite lookup_insert_ne.
Qed.

Lemma run_jobs_domain (jobs : list rewrite_job) (k : string) : ∀ w0,
  is_Some (disk (fold_left (λ w job, (run_job job w).2) jobs w0) !! k)
  ↔ is_Some (disk w0 !! k).
Proof.
  induction jobs as [|job jobs IH]; intros w0; cbn [fold_left]; [reflexivity|].
  rewrite IH. unfold run_job.
  apply (keeps_for_each (λ d, is_Some (d !! k) ↔ is_Some (disk w0 !! k))
           (job_files job) (rewrite_task (job_orig job) (job_dest job))); [|reflexivity].
  intros file w1 H. now rewrite rewrite_task_domain.
Qed.

Lemma settle_detached_domain (w : world) (k : string) :
  is_Some (disk (settle_detached w) !! k) ↔ is_Some (disk w !! k).
Proof. unfold settle_detached. now rewrite run_jobs_domain. Qed.

Lemma split_tree_head (t i s : string) :
  Str.free_of "/" t = true → Str.free_of "/" i = true →
  s = "" ∨ (∃ z, s = "/" +:+ z) →
  ∃ rest, Str.split "/" (Str.join "/" [t; i] +:+ s) = t :: i :: rest.
Proof.
  intros Ht Hi [->|(z & ->)].
  - exists []. rewrite str_app_nil_r. apply split_join; [discriminate|now repeat constructor].
  - exists (Str.split "/" z). rewrite str_app_cons, str_app_nil, split_at_sep.
    rewrite split_join by (discriminate || now repeat constructor). reflexivity.
Qed.

(** No path lies in two different trees, nor, under one base, in the
    directories of two builds with different plain ids. *)
Lemma tree_dirs_apart (store sandbox : string) (b1 b2 : Build) (i j : nat)
    (g1 g2 : Build → list string → string) (k : string) :
  plain_segment (id b1) = true →
  plain_segment (id b2) = true →
  shouldBePersisted b1 = shouldBePersisted b2 →
  tree_paths (createConfig store sandbox) !! i = Some g1 →
  tree_paths (createConfig store sandbox) !! j = Some g2 →
  i ≠ j ∨ id b1 ≠ id b2 →
  Fs.under (g1 b1 []) k = true → Fs.under (g2 b2 []) k = true → False.
Proof.
  intros Hid1 Hid2 Hp Hg1 Hg2 Hne H1 H2.
  destruct (createConfig_plain store sandbox (shouldBePersisted b1)) as [prefix H].
  destruct (H i g1 Hg1) as (t1 & Ht1 & Hpt1 & P1).
  destruct (H j g2 Hg2) as (t2 & Ht2 & Hpt2 & P2).
  specialize (P1 b1 [] eq_refl Hid1 ltac:(constructor)).
  specialize (P2 b2 [] (eq_sym Hp) Hid2 ltac:(constructor)).
  assert (t1 = t2 → i = j) as Hij.
  { clear P1 P2 Hpt1 Hpt2. intros <-.
    destruct i as [|[|[|i]]]; cbn in Ht1; try discriminate Ht1;
      injection Ht1 as <-;
      destruct j as [|[|[|j]]]; cbn in Ht2; try discriminate Ht2; reflexivity. }
  assert (∃ s1, k = prefix +:+ Str.join "/" [t1; id b1] +:+ s1
                ∧ (s1 = "" ∨ ∃ z, s1 = "/" +:+ z)) as (s1 & E1 & Hs1).
  { apply under_inv in H1 as [->|(z & ->)]; rewrite P1.
    - exists "". rewrite str_app_nil_r. split; [reflexivity|now left].
    - exists ("/" +:+ z). rewrite !str_app_assoc. split; [reflexivity|right; eauto]. }
  assert (∃ s2, k = prefix +:+ Str.join "/" [t2; id b2] +:+ s2
                ∧ (s2 = "" ∨ ∃ z, s2 = "/" +:+ z)) as (s2 & E2 & Hs2).
  { apply under_inv in H2 as [->|(z & ->)]; rewrite P2.
    - exists "". rewrite str_app_nil_r. split; [reflexivity|now left].
    - exists ("/" +:+ z). rewrite !str_app_assoc. split; [reflexivity|right; eauto]. }
  rewrite E1 in E2. apply str_app_inv_head in E2.
  apply plain_segment_inv in Hpt1 as (_ & _ & _ & F1).
  apply plain_segment_inv in Hpt2 as (_ & _ & _ & F2).
  apply plain_segment_inv in Hid1 as (_ & _ & _ & F3).
  apply plain_segment_inv in Hid2 as (_ & _ & _ & F4).
  destruct (split_tree_head t1 (id b1) s1 F1 F3 Hs1) as [r1 S1].
  destruct (split_tree_head t2 (id b2) s2 F2 F4 Hs2) as [r2 S2].
  rewrite E2, S2 in S1. injection S1 as Et Ei _.
  destruct Hne as [Hne|Hne]; [apply Hne, Hij|]; congruence.
Qed.

Lemma tree_path_under (store sandbox : string) (b : Build) (segs : list string)
    (i : nat) (g : Build → list string → string) :
  plain_segment (id b) = true →
  Forall (λ s, plain_segment s = true) segs →
  tree_paths (createConfig store sandbox) !! i = Some g →
  Fs.under (g b []) (g b segs) = true.
Proof.
  intros Hid Hsegs Hg.
  destruct (createConfig_plain store sandbox (shouldBePersisted b)) as [prefix H].
  destruct (H i g Hg) as (tree & _ & _ & E).
  destruct segs as [|s segs]; [apply under_refl|].
  rewrite (E b (s :: segs)), (E b []) by (reflexivity || assumption || constructor).
  change (tree :: id b :: s :: segs) with ([tree; id b] ++ s :: segs).
  rewrite join_app by discriminate. rewrite <- str_app_assoc. apply under_below.
Qed.

Section AllOrNothing.
Variable calculateEnvironment :
  BuildConfig → Build → list EnvironmentVar → outcome Environment.
Variable run_process :
  request → gmap string Fs.node → outcome unit * gmap string Fs.node.
Variable rimraf :
  string → gmap string Fs.node → outcome unit * gmap string Fs.node.

Lemma keeps_child (P : gmap string Fs.node → Prop) (r : request) :
  (∀ r d, P d → P (run_process r d).2) → keeps P (child run_process r).
Proof.
  intros Hp w H. unfold child. specialize (Hp r (disk w) H).
  destruct (run_process r (disk w)) as [res d']. exact Hp.
Qed.

(** X14: installs are all or nothing on failure, once the old install
    is gone.  For a build with a plain id, under a config made by
    [createConfig], with a [rimraf] that creates nothing and leaves
    nothing at a path it removes successfully, and with processes that
    create nothing at or below the final install path: when the
    removal of the final install path succeeds and [performBuild]
    fails at any step (one of the two other removals, the skeleton,
    rsync, the environment, a write, a command, the walk or the
    rename), nothing exists at the final install path or below it,
    also after the rewrite chain has run.  When the removal of the
    final install path itself fails, an old install stays
    ([performBuild_failed_removal_keeps_old_install]). *)
Theorem performBuild_failure_leaves_no_install (store sandbox : string)
    (b : Build) (sb : BuildSandbox) (w w' : world) (e : string) :
  plain_segment (id b) = true →
  rimraf_removes rimraf →
  process_spares (getFinalInstallPath (createConfig store sandbox) b []) run_process →
  (rimraf (getFinalInstallPath (createConfig store sandbox) b []) (disk w)).1 = Done tt →
  performBuild_settled calculateEnvironment run_process rimraf b
    (createConfig store sandbox) sb w = (Failed e, w') →
  absent_below (getFinalInstallPath (createConfig store sandbox) b []) (disk w').
Proof.
  intros Hid Hrim Hproc Hfirst Hrun.
  set (config := createConfig store sandbox) in *.
  set (final := getFinalInstallPath config b []) in *.
  assert (∀ j g segs, j ≠ 2 → tree_paths config !! j = Some g →
            Forall (λ s, plain_segment s = true) segs →
            Fs.under final (g b segs) = false) as Hapart.
  { intros j g segs Hj Hg Hsegs. apply not_true_is_false. intros Hu.
    apply (tree_dirs_apart store sandbox b b 2 j (getFinalInstallPath config) g (g b segs));
      auto.
    now apply (tree_path_under store sandbox b segs j). }
  assert (∀ name, plain_segment name = true →
            Fs.under final (Path.join [getBuildPath config b []; "_esy"; name]) = false)
    as Henv.
  { intros name Hname.
    replace (Path.join [getBuildPath config b []; "_esy"; name])
      with (getBuildPath config b ["_esy"; name]).
    - apply (Hapart 0); [discriminate|reflexivity|now repeat constructor].
    - cbn [config createConfig getBuildPath].
      destruct (shouldBePersisted b); symmetry;
        apply (join_join _ ["_build"; id b] ["_esy"; name]);
        (discriminate || now repeat constructor). }
  unfold performBuild_settled in Hrun.
  destruct (performBuild calculateEnvironment run_process rimraf b config sb w) as [r w1] eqn:E.
  injection Hrun as -> <-.
  assert (absent_below final (disk w1)) as Habs.
  { unfold performBuild in E.
    apply bind_inv in E as [(cached & w0 & Hc & E)|(e' & Hc & _)].
    2:{ destruct (shouldBePersisted b); [unfold fs.exists_, query, settle in Hc|];
          discriminate. }
    assert (disk w0 = disk w) as Hd0.
    { destruct (shouldBePersisted b); [unfold fs.exists_, query in Hc|];
        inversion Hc; reflexivity. }
    destruct cached; [discriminate E|].
    assert (∀ res wa,
              promise_all
                [ rmtree rimraf (getFinalInstallPath config b []);
                  rmtree rimraf (getInstallPath config b []);
                  rmtree rimraf (getBuildPath config b []) ] w0 = (res, wa) →
              absent_below final (disk wa)) as Hgone.
    { intros res wa Hrm. cbn [promise_all] in Hrm. unfold rmtree in Hrm.
      rewrite Hd0 in Hrm. fold final in Hrm.
      pose proof (proj2 (Hrim final (disk w)) Hfirst) as H1.
      destruct (rimraf final (disk w)) as [r1 d1]. cbn [disk snd] in Hrm, H1.
      pose proof (proj1 (Hrim (getInstallPath config b []) d1)) as H2.
      destruct (rimraf (getInstallPath config b []) d1) as [r2 d2].
      cbn [disk snd] in Hrm, H2.
      pose proof (proj1 (Hrim (getBuildPath config b []) d2)) as H3.
      destruct (rimraf (getBuildPath config b []) d2) as [r3 d3].
      cbn [disk snd] in Hrm, H3.
      injection Hrm as _ <-. cbn [disk].
      intros k Hk. apply H3, H2, H1, Hk. }
    apply bind_inv in E as [([] & wa & Hrm & E)|(e' & Hrm & _)];
      [|exact (Hgone _ _ Hrm)].
    pose proof (Hgone _ _ Hrm) as Ha.
    revert E. apply (fails_within_bind (absent_below final)); [| |exact Ha].
    { apply keeps_promise_all, Forall_app. split.
      - apply Forall_forall. intros m (p & -> & Hp)%list_elem_of_fmap.
        apply keeps_update. intros d d'. apply mkdirp_keeps_absent.
        apply (Hapart 0); [discriminate|reflexivity|].
        repeat (apply elem_of_cons in Hp as [->|Hp]); [now repeat constructor|inversion Hp].
      - apply Forall_forall. intros m (p & -> & Hp)%list_elem_of_fmap.
        apply keeps_update. intros d d'. apply mkdirp_keeps_absent.
        apply (Hapart 1); [discriminate|reflexivity|].
        repeat (apply elem_of_cons in Hp as [->|Hp]);
          try (now repeat constructor); inversion Hp. }
    intros _. apply fails_within_bind.
    { destruct (mutatesSourcePath b); [|apply keeps_ret].
      apply keeps_child. exact Hproc. }
    intros _. apply fails_within_bind; [apply keeps_pure|].
    intros env. apply fails_within_bind.
    { apply keeps_update. intros d d'. apply writeFile_keeps_absent, Henv. reflexivity. }
    intros _. apply fails_within_bind; [apply keeps_pure|].
    intros conf. apply fails_within_bind.
    { apply keeps_update. intros d d'. apply writeFile_keeps_absent, Henv. reflexivity. }
    intros _. apply fails_within_bind.
    { destruct (command b) as [commands|]; [|apply keeps_ret].
      apply keeps_bind; [apply keeps_for_each; intros c; apply keeps_child, Hproc|].
      intros _. apply keeps_bind; [apply keeps_query|].
      intros files w2 H. exact H. }
    intros _ w2 e2 w3 H2 E2.
    apply bind_inv in E2 as [([] & w4 & _ & E2)|(e' & E2 & _)]; [discriminate E2|].
    unfold fs.rename, update in E2.
    destruct (Fs.rename _ _ (disk w2)); [discriminate|].
    injection E2 as _ <-. exact H2. }
  intros k Hk. specialize (Habs k Hk).
  destruct (disk (settle_detached w1) !! k) as [n|] eqn:E2; [|reflexivity].
  assert (is_Some (disk w1 !! k)) as [n' Hn'] by (apply settle_detached_domain; eauto).
  congruence.
Qed.
End AllOrNothing.

Lemma performBuild_failure_leaves_no_install_witness :
  ∃ w',
    performBuild_settled Scenario.calculateEnvironment Broken.run_process Scenario.rimraf
      Scenario.A (createConfig "/store" "/sb") (Scenario.sandbox Scenario.A)
      Scenario.fresh_store
    = (Failed "exit 1", w')
    ∧ disk w' !! "/store/_install/A" = None.
Proof.
  eexists. split; [vm_compute; reflexivity|].
  apply (performBuild_failure_leaves_no_install
           Scenario.calculateEnvironment Broken.run_process Scenario.rimraf
           "/store" "/sb"
           Scenario.A (Scenario.sandbox Scenario.A) Scenario.fresh_store _ "exit 1").
  - reflexivity.
  - intros p d. split.
    + intros k Hk. unfold Scenario.rimraf, Fs.rmtree. cbn [snd].
      apply map_lookup_filter_None. now left.
    + intros _. apply rmtree_absent.
  - intros r d H. destruct r; exact H.
  - reflexivity.
  - vm_compute. reflexivity.
  - reflexivity.
Defined.

(** When the removal of the final install path fails, [performBuild]
    fails before any directory is created, and an old install is still
    there. *)
Example performBuild_failed_removal_keeps_old_install :
  let run := performBuild_settled Scenario.calculateEnvironment Scenario.run_process
               Broken.rimraf Broken.D Scenario.config (Scenario.sandbox Broken.D)
               Broken.old_install in
  run.1 = Failed "EPERM"
  ∧ issued run.2 = removal_requests Scenario.config Broken.D
  ∧ disk run.2 !! getFinalInstallPath Scenario.config Broken.D [] = Some Fs.Dir.
Proof. intros run. repeat split; vm_compute; reflexivity. Qed.

Lemma str_drop_app (p s : string) : Str.drop (String.length p) (p +:+ s) = s.
Proof. induction p as [|x p IH]; [now destruct s|]. rewrite str_app_cons. exact IH. Qed.

(** What [rename] moves ends up at or below the target. *)
Lemma rename_moved_keys (p q : string) (d : gmap string Fs.node) (k : string) :
  k ∈ (map (λ kv : string * Fs.node, (q +:+ Str.drop (String.length p) kv.1, kv.2))
         (filter (λ kv : string * Fs.node, Fs.under p kv.1 = true) (map_to_list d))).*1 →
  Fs.under q k = true.
Proof.
  intros ([k1 n1] & -> & H)%list_elem_of_fmap.
  apply list_elem_of_fmap in H as ([k0 n0] & [= -> ->] & H).
  apply list_elem_of_filter in H as [Hu _]. cbn [fst] in *.
  apply under_inv in Hu as [->|(z & ->)].
  - rewrite <- (str_app_nil_r p) at 2. rewrite str_drop_app, str_app_nil_r.
    apply under_refl.
  - rewrite str_drop_app. apply under_below.
Qed.

Lemma rename_target (p q : string) (d d' : gmap string Fs.node) :
  Fs.rename p q d = Some d' → is_Some (d' !! q).
Proof.
  unfold Fs.rename. destruct (d !! p) as [n|] eqn:Hp; [|discriminate].
  destruct (bool_decide _ && _); [|discriminate]. intros [= <-].
  apply lookup_union_is_Some. left.
  match goal with |- is_Some (?m !! q) => destruct (m !! q) eqn:E; [eauto|] end.
  exfalso. apply not_elem_of_list_to_map in E. apply E.
  apply list_elem_of_fmap. exists (q, n). split; [reflexivity|].
  apply list_elem_of_fmap. exists (p, n). split.
  - cbn [fst snd]. rewrite <- (str_app_nil_r p) at 2.
    now rewrite str_drop_app, str_app_nil_r.
  - apply list_elem_of_filter. split; [apply under_refl|].
    now apply elem_of_map_to_list.
Qed.

Lemma rename_source_gone (p q : string) (d d' : gmap string Fs.node) :
  (∀ k, Fs.under p k = true → Fs.under q k = true → False) →
  Fs.rename p q d = Some d' → absent_below p d'.
Proof.
  intros Hapart. unfold Fs.rename. destruct (d !! p) as [n|] eqn:Hp; [|discriminate].
  destruct (bool_decide _ && _); [|discriminate]. intros [= <-] k Hk.
  apply lookup_union_None. split; [|now apply rmtree_absent].
  apply not_elem_of_list_to_map. intros Hin%rename_moved_keys.
  exact (Hapart k Hk Hin).
Qed.

Section AllOrNothingSuccess.
Variable calculateEnvironment :
  BuildConfig → Build → list EnvironmentVar → outcome Environment.
Variable run_process :
  request → gmap string Fs.node → outcome unit * gmap string Fs.node.
Variable rimraf :
  string → gmap string Fs.node → outcome unit * gmap string Fs.node.

(** After the cache check has said no, [performBuild] can only
    succeed through its rename. *)
Lemma performBuild_ends_in_rename (b : Build) (config : BuildConfig)
    (sb : BuildSandbox) (w w' : world) :
  shouldBePersisted b = false ∨ disk w !! getFinalInstallPath config b [] = None →
  performBuild calculateEnvironment run_process rimraf b config sb w = (Done tt, w') →
  ∃ d, Fs.rename (getInstallPath config b []) (getFinalInstallPath config b []) d
       = Some (disk w').
Proof.
  intros Hnc E. unfold performBuild in E.
  apply bind_inv in E as [(cached & w0 & Hc & E)|(e' & _ & [=])].
  assert (cached = false) as ->.
  { destruct (shouldBePersisted b).
    - destruct Hnc as [?|Hnone]; [discriminate|].
      unfold fs.exists_, query, settle, Fs.exists_ in Hc. inversion Hc; subst.
      apply bool_decide_eq_false_2. rewrite Hnone. intros [? ?]; discriminate.
    - now inversion Hc. }
  revert E.
  apply (succeeds_with_bind
           (λ w', ∃ d, Fs.rename (getInstallPath config b [])
                         (getFinalInstallPath config b []) d = Some (disk w'))).
  do 7 (intros ?; apply succeeds_with_bind).
  intros _ w2 [] w3 E.
  apply bind_inv in E as [([] & w4 & E1 & E2)|(e' & _ & [=])].
  injection E2 as <-. unfold fs.rename, update in E1.
  destruct (Fs.rename _ _ (disk w2)) as [d'|] eqn:Hr; [|discriminate].
  injection E1 as <-. now exists (disk w2).
Qed.

(** X15: whenever [performBuild] succeeds, be it from the cache or
    by building, the final install path of the build exists, also
    after the rewrite chain has run. *)
Theorem performBuild_success_final_exists (b : Build) (config : BuildConfig)
    (sb : BuildSandbox) (w w' : world) :
  performBuild_settled calculateEnvironment run_process rimraf b config sb w = (Done tt, w') →
  is_Some (disk w' !! getFinalInstallPath config b []).
Proof.
  unfold performBuild_settled.
  destruct (performBuild calculateEnvironment run_process rimraf b config sb w) as [r w1] eqn:E.
  intros [= -> <-]. apply settle_detached_domain.
  destruct (decide (shouldBePersisted b = true
                    ∧ is_Some (disk w !! getFinalInstallPath config b []))) as [[Hp Hex]|Hn].
  - unfold performBuild in E. rewrite Hp in E.
    unfold mbind, io_bind, bind, fs.exists_, query, Fs.exists_, settle in E.
    rewrite bool_decide_eq_true_2 in E by exact Hex.
    injection E as <-. exact Hex.
  - destruct (performBuild_ends_in_rename b config sb w w1) as [d Hd]; [|exact E|].
    + destruct (shouldBePersisted b); [right|now left].
      destruct (disk w !! getFinalInstallPath config b []) eqn:El; [|reflexivity].
      exfalso. apply Hn. eauto.
    + now apply rename_target in Hd.
Qed.

(** X16: when [performBuild] has built a build with a plain id
    (it was not served from the cache) and succeeds, nothing is left at
    the staging install path or below it: the staged tree has been
    moved to the final install path as a whole. *)
Theorem performBuild_success_staging_gone (store sandbox : string) (b : Build)
    (sb : BuildSandbox) (w w' : world) :
  plain_segment (id b) = true →
  shouldBePersisted b = false
  ∨ disk w !! getFinalInstallPath (createConfig store sandbox) b [] = None →
  performBuild_settled calculateEnvironment run_process rimraf b
    (createConfig store sandbox) sb w = (Done tt, w') →
  absent_below (getInstallPath (createConfig store sandbox) b []) (disk w').
Proof.
  intros Hid Hnc. unfold performBuild_settled.
  destruct (performBuild calculateEnvironment run_process rimraf b
              (createConfig store sandbox) sb w) as [r w1] eqn:E.
  intros [= -> <-].
  destruct (performBuild_ends_in_rename b _ sb w w1 Hnc E) as [d Hd].
  apply rename_source_gone in Hd.
  - intros k Hk. specialize (Hd k Hk).
    destruct (disk (settle_detached w1) !! k) as [n|] eqn:E2; [|reflexivity].
    assert (is_Some (disk w1 !! k)) as [n' Hn'] by (apply settle_detached_domain; eauto).
    congruence.
  - intros k. apply (tree_dirs_apart store sandbox b b 1 2); auto.
Qed.
End AllOrNothingSuccess.

Lemma performBuild_success_final_exists_witness :
  ∃ w',
    performBuild_settled Scenario.calculateEnvironment Scenario.run_process Scenario.rimraf Scenario.A
      Scenario.config (Scenario.sandbox Scenario.A) Scenario.fresh_store
    = (Done tt, w')
    ∧ is_Some (disk w' !! "/store/_install/A").
Proof.
  eexists. split; [vm_compute; reflexivity|].
  apply (performBuild_success_final_exists
           Scenario.calculateEnvironment Scenario.run_process Scenario.rimraf Scenario.A
           Scenario.config (Scenario.sandbox Scenario.A) Scenario.fresh_store).
  vm_compute. reflexivity.
Defined.

Lemma performBuild_success_staging_gone_witness :
  ∃ w',
    performBuild_settled Scenario.calculateEnvironment Scenario.run_process Scenario.rimraf Scenario.A
      (createConfig "/store" "/sb") (Scenario.sandbox Scenario.A) Scenario.fresh_store
    = (Done tt, w')
    ∧ disk w' !! "/store/_insttmp/A/bin/marker" = None.
Proof.
  eexists. split; [vm_compute; reflexivity|].
  apply (performBuild_success_staging_gone
           Scenario.calculateEnvironment Scenario.run_process Scenario.rimraf "/store" "/sb" Scenario.A
           (Scenario.sandbox Scenario.A) Scenario.fresh_store).
  - reflexivity.
  - right. vm_compute. reflexivity.
  - vm_compute. reflexivity.
  - vm_compute. reflexivity.
Defined.

(** ** The ejecting builder *)

Lemma collectTransitiveDependencies_total (build : Build) :
  ∃ rest, bfs_order build = Some (build :: rest)
          ∧ collectTransitiveDependencies build = Some rest.
Proof.
  destruct (bfs_order_inv build) as (order & Horder & _).
  destruct (bfs_order_head build order Horder) as (rest & -> & _).
  exists rest. split; [exact Horder|].
  now rewrite collectTransitiveDependencies_bfs, Horder.
Qed.

Section MakefileBuilderProperties.
Variable calculateEnvironment :
  BuildConfig → Build → list EnvironmentVar → outcome Environment.
Variable env_CI : option string.
Variable RUNTIME : string.
Variable renderMakefile : list MakeItem → string.

(** One visit whose environment composes. *)
Lemma visitBuild_done (sandbox : BuildSandbox) (outputPath : string) (build : Build)
    (env : Environment) (st : eject) :
  calculateEnvironment buildConfig build (sandbox_env sandbox) = Done env →
  ∃ findlib profile,
    renderFindlibConf build buildConfig = Some findlib
    ∧ visitBuild calculateEnvironment env_CI sandbox outputPath build st
      = {| ruleSet := ruleSet st ++ build_items env_CI build;
           calls := calls st
             ++ emitFile outputPath {| filename := packagePath build ++ ["eject-env"];
                                       contents := renderEnv env;
                                       executable := false |}
             ++ emitFile outputPath {| filename := packagePath build ++ ["findlib.conf.in"];
                                       contents := findlib;
                                       executable := false |}
             ++ emitFile outputPath {| filename := packagePath build ++ ["sandbox.sb.in"];
                                       contents := profile;
                                       executable := false |};
           thrown := thrown st |}.
Proof.
  intros Henv. unfold visitBuild. rewrite Henv.
  destruct (collectTransitiveDependencies_total build) as (rest & _ & Hrest).
  unfold renderFindlibConf, findLibPath. rewrite Hrest.
  cbn [mbind option_bind]. eexists. eexists. split; [reflexivity|].
  unfold push, emit, build_items. cbn [ruleSet calls thrown].
  f_equal; now rewrite <- ?app_assoc.
Qed.

Lemma written_paths_emitFile (outputPath : string) (file : file_to_emit) :
  written_paths (emitFile outputPath file) = [Path.join (outputPath :: filename file)].
Proof. unfold emitFile. now destruct (executable file). Qed.

Lemma chmod_paths_emitFile (outputPath : string) (file : file_to_emit) :
  chmod_paths (emitFile outputPath file)
  = if executable file then [(Path.join (outputPath :: filename file), S_IRWXU)] else [].
Proof. unfold emitFile. now destruct (executable file). Qed.

Lemma written_paths_app (a b : list sync_call) :
  written_paths (a ++ b) = written_paths a ++ written_paths b.
Proof. apply omap_app. Qed.

Lemma chmod_paths_app (a b : list sync_call) :
  chmod_paths (a ++ b) = chmod_paths a ++ chmod_paths b.
Proof. apply omap_app. Qed.

(** Once an exception is pending, the remaining visits do nothing. *)
Lemma replay_thrown (sandbox : BuildSandbox) (outputPath : string)
    (order : list Build) (st : eject) :
  thrown st ≠ None →
  replay (λ build, running (visitBuild calculateEnvironment env_CI sandbox outputPath build))
    st order = st.
Proof.
  intros H. induction order as [|b order IH]; [reflexivity|].
  rewrite replay_cons. unfold running at 2.
  destruct (thrown st); [exact IH|contradiction].
Qed.

(** The visits of a sequence of builds whose environments compose. *)
Lemma replay_visits (sandbox : BuildSandbox) (outputPath : string)
    (order : list Build) : ∀ st,
  thrown st = None →
  (∀ b, b ∈ order →
     ∃ env, calculateEnvironment buildConfig b (sandbox_env sandbox) = Done env) →
  let st' :=
    replay (λ build, running (visitBuild calculateEnvironment env_CI sandbox outputPath build))
      st order in
  thrown st' = None
  ∧ ruleSet st' = ruleSet st ++ flat_map (build_items env_CI) order
  ∧ written_paths (calls st')
    = written_paths (calls st) ++ flat_map (build_file_paths outputPath) order
  ∧ chmod_paths (calls st') = chmod_paths (calls st)
  ∧ (∀ c, c ∈ calls st → c ∈ calls st')
  ∧ ∀ b, b ∈ order →
      ∃ findlib,
        renderFindlibConf b buildConfig = Some findlib
        ∧ SyncWriteFile (Path.join (outputPath :: packagePath b ++ ["findlib.conf.in"]))
            findlib ∈ calls st'.
Proof.
  induction order as [|b order IH]; intros st Hst Henv.
  - cbn. rewrite !app_nil_r. repeat split; auto. inversion 1.
  - destruct (Henv b ltac:(left)) as [env Hb].
    destruct (visitBuild_done sandbox outputPath b env st Hb)
      as (findlib & profile & Hfind & Hvisit).
    assert (running (visitBuild calculateEnvironment env_CI sandbox outputPath b) st
            = visitBuild calculateEnvironment env_CI sandbox outputPath b st) as Hrun
      by (unfold running; now rewrite Hst).
    cbn zeta. rewrite replay_cons, Hrun, Hvisit.
    match goal with |- context [replay _ ?s order] => set (st1 := s) end.
    destruct (IH st1 Hst) as (H1 & H2 & H3 & H4 & H5 & H6).
    { intros b' Hb'. apply Henv. now right. }
    cbn zeta in *.
    split; [exact H1|]. split; [|split; [|split; [|split]]].
    + rewrite H2. unfold st1. cbn [ruleSet flat_map]. now rewrite <- app_assoc.
    + rewrite H3. unfold st1. cbn [calls flat_map].
      rewrite !written_paths_app, !written_paths_emitFile. cbn [filename].
      unfold build_file_paths at 2. cbn [map]. now rewrite <- !app_assoc.
    + rewrite H4. unfold st1. cbn [calls].
      rewrite !chmod_paths_app, !chmod_paths_emitFile. cbn [executable].
      now rewrite !app_nil_r.
    + intros c Hc. apply H5. unfold st1. cbn [calls]. apply elem_of_app. now left.
    + intros b' [->|Hb']%elem_of_cons; [|now apply H6].
      exists findlib. split; [exact Hfind|]. apply H5. unfold st1. cbn [calls].
      rewrite !elem_of_app. right. right. left.
      unfold emitFile. cbn [filename contents executable app]. right. left.
Qed.

Lemma renderToMakefile_traverse (sandbox : BuildSandbox) (outputPath : string) :
  ∃ rest,
    bfs_order (root sandbox) = Some (root sandbox :: rest)
    ∧ collectTransitiveDependencies (root sandbox) = Some rest
    ∧ traverse (λ build, running (visitBuild calculateEnvironment env_CI sandbox outputPath build))
        (root sandbox)
        {| ruleSet := initial_ruleSet sandbox; calls := []; thrown := None |}
      = Some (replay
                (λ build, running (visitBuild calculateEnvironment env_CI sandbox outputPath build))
                {| ruleSet := initial_ruleSet sandbox; calls := []; thrown := None |}
                (root sandbox :: rest)).
Proof.
  destruct (collectTransitiveDependencies_total (root sandbox)) as (rest & Hbfs & Hrest).
  exists rest. split; [exact Hbfs|]. split; [exact Hrest|].
  unfold traverse.
  match goal with |- traverse_loop ?f _ _ _ ?s = _ =>
    change s with (replay f s []) at 1 end.
  rewrite traverse_loop_replay.
  unfold bfs_order, traverse in Hbfs. now rewrite Hbfs.
Qed.

(** A run in which every environment composes. *)
Lemma renderToMakefile_run (sandbox : BuildSandbox) (outputPath : string) :
  (∀ b, reachable (root sandbox) b →
     ∃ env, calculateEnvironment buildConfig b (sandbox_env sandbox) = Done env) →
  ∃ rest st,
    bfs_order (root sandbox) = Some (root sandbox :: rest)
    ∧ collectTransitiveDependencies (root sandbox) = Some rest
    ∧ renderToMakefile calculateEnvironment env_CI RUNTIME renderMakefile sandbox outputPath
      = Some st
    ∧ thrown st = None
    ∧ ruleSet st
      = initial_ruleSet sandbox ++ flat_map (build_items env_CI) (root sandbox :: rest)
    ∧ written_paths (calls st)
      = flat_map (build_file_paths outputPath) (root sandbox :: rest)
        ++ shared_file_paths outputPath
    ∧ chmod_paths (calls st)
      = [ (Path.join [outputPath; "bin/replace-string"], 448%N);
          (Path.join [outputPath; "bin/render-env"], 448%N) ]
    ∧ last (calls st)
      = Some (SyncWriteFile (Path.join [outputPath; "Makefile"])
                (renderMakefile (ruleSet st)))
    ∧ ∀ b, b ∈ root sandbox :: rest →
        ∃ findlib,
          renderFindlibConf b buildConfig = Some findlib
          ∧ SyncWriteFile (Path.join (outputPath :: packagePath b ++ ["findlib.conf.in"]))
              findlib ∈ calls st.
Proof.
  intros Henv.
  destruct (renderToMakefile_traverse sandbox outputPath) as (rest & Hbfs & Hrest & Htr).
  exists rest. unfold renderToMakefile. rewrite Htr. cbn [mbind option_bind].
  destruct (bfs_order_inv (root sandbox)) as (order & Horder & [_ Hlr _ _ _]).
  rewrite Hbfs in Horder. injection Horder as <-.
  destruct (replay_visits sandbox outputPath (root sandbox :: rest)
              {| ruleSet := initial_ruleSet sandbox; calls := []; thrown := None |}
              eq_refl) as (H1 & H2 & H3 & H4 & _ & H6).
  { intros b Hb. apply Henv, Hlr, Hb. }
  cbn zeta in *.
  set (st1 := replay _ _ (root sandbox :: rest)) in *.
  eexists. split; [exact Hbfs|]. split; [exact Hrest|]. split; [reflexivity|].
  unfold running. rewrite H1. unfold emit. cbn [ruleSet calls thrown].
  split; [exact H1|]. split; [exact H2|]. split; [|split; [|split]].
  - rewrite !written_paths_app, !written_paths_emitFile, H3. cbn [filename calls].
    unfold shared_file_paths. cbn [map written_paths omap list_omap].
    now rewrite <- !app_assoc.
  - rewrite !chmod_paths_app, !chmod_paths_emitFile, H4. cbn [executable filename calls].
    reflexivity.
  - rewrite last_app. reflexivity.
  - intros b Hb. destruct (H6 b Hb) as (findlib & Hf & Hin).
    exists findlib. split; [exact Hf|]. rewrite !elem_of_app. tauto.
Qed.


(** X18: the [findlib.conf.in] that [renderToMakefile] writes for a
    visited build holds exactly what [renderFindlibConf] returns for
    that build under the config of ejected builds: the ejecting builder
    and the in-process builder render the same findlib configuration,
    up to the store and sandbox paths. *)
Theorem ejected_findlib_conf (sandbox : BuildSandbox) (outputPath : string) :
  (∀ b, reachable (root sandbox) b →
     ∃ env, calculateEnvironment buildConfig b (sandbox_env sandbox) = Done env) →
  ∃ rest st,
    collectTransitiveDependencies (root sandbox) = Some rest
    ∧ renderToMakefile calculateEnvironment env_CI RUNTIME renderMakefile sandbox outputPath
      = Some st
    ∧ ∀ b, b ∈ root sandbox :: rest →
        ∃ findlib,
          renderFindlibConf b buildConfig = Some findlib
          ∧ SyncWriteFile (Path.join (outputPath :: packagePath b ++ ["findlib.conf.in"]))
              findlib ∈ calls st.
Proof.
  intros Henv.
  destruct (renderToMakefile_run sandbox outputPath Henv)
    as (rest & st & _ & H1 & H2 & _ & _ & _ & _ & _ & H8).
  exists rest, st. repeat split; assumption.
Qed.

(** X19: when the environment of one visited build cannot be
    composed, [renderToMakefile] ends with that exception: what was
    pushed and written for the builds visited before stays, and nothing
    is pushed or written for that build or a later one; in particular
    no shared file and no [Makefile] is written and nothing is made
    executable. *)
Theorem renderToMakefile_stops_at_failure (sandbox : BuildSandbox)
    (outputPath : string) (before after : list Build) (b : Build) (e : string) :
  bfs_order (root sandbox) = Some (before ++ b :: after) →
  (∀ v, v ∈ before →
     ∃ env, calculateEnvironment buildConfig v (sandbox_env sandbox) = Done env) →
  calculateEnvironment buildConfig b (sandbox_env sandbox) = Failed e →
  ∃ st,
    renderToMakefile calculateEnvironment env_CI RUNTIME renderMakefile sandbox outputPath
    = Some st
    ∧ thrown st = Some e
    ∧ ruleSet st = initial_ruleSet sandbox ++ flat_map (build_items env_CI) before
    ∧ written_paths (calls st) = flat_map (build_file_paths outputPath) before
    ∧ chmod_paths (calls st) = [].
Proof.
  intros Hbfs Hbefore Hfail.
  destruct (renderToMakefile_traverse sandbox outputPath) as (rest & Hbfs' & _ & Htr).
  rewrite Hbfs in Hbfs'. injection Hbfs' as Horder.
  unfold renderToMakefile. rewrite Htr, <- Horder. cbn [mbind option_bind].
  unfold replay. rewrite fold_left_app. fold (@replay eject).
  destruct (replay_visits sandbox outputPath before
              {| ruleSet := initial_ruleSet sandbox; calls := []; thrown := None |}
              eq_refl Hbefore) as (H1 & H2 & H3 & H4 & _ & _).
  cbn zeta in *. unfold replay in *.
  set (st1 := fold_left _ before _) in *.
  cbn [fold_left]. unfold running at 3. rewrite H1.
  unfold visitBuild at 2. rewrite Hfail.
  fold (replay (λ build, running (visitBuild calculateEnvironment env_CI sandbox outputPath build))
          (throw e st1) after).
  rewrite replay_thrown by discriminate.
  eexists. split; [reflexivity|]. unfold running. cbn [throw thrown ruleSet calls].
  repeat split; assumption.
Qed.

(** X20: when the builds below the root are identified by their ids
    and their environments compose, no rule of the rule set has a
    dangling prerequisite: every prerequisite is the target of a rule of
    the set, or one of the six store directories that the [mkdir] rule
    makes, or the emitted [bin/realpath.c]. *)
Theorem ruleSet_prerequisites_defined (sandbox : BuildSandbox) (outputPath : string) :
  ids_consistent (root sandbox) →
  (∀ b, reachable (root sandbox) b →
     ∃ env, calculateEnvironment buildConfig b (sandbox_env sandbox) = Done env) →
  ∃ st,
    renderToMakefile calculateEnvironment env_CI RUNTIME renderMakefile sandbox outputPath
    = Some st
    ∧ ∀ item p, item ∈ ruleSet st → p ∈ rule_prerequisites item →
        (∃ rule, rule ∈ ruleSet st ∧ rule_target rule = Some p)
        ∨ p ∈ [ "$(ESY_EJECT__STORE)/_install"; "$(ESY_EJECT__STORE)/_build";
                "$(ESY_EJECT__STORE)/_insttmp";
                "$(ESY_EJECT__SANDBOX)/_esy/store/_install";
                "$(ESY_EJECT__SANDBOX)/_esy/store/_insttmp";
                "$(ESY_EJECT__SANDBOX)/_esy/store/_build";
                "$(ESY_EJECT__ROOT)/bin/realpath.c" ].
Proof.
  intros Hids Henv.
  destruct (renderToMakefile_run sandbox outputPath Henv)
    as (rest & st & Hbfs & _ & Hrun & _ & Hrules & _).
  exists st. split; [exact Hrun|]. rewrite Hrules.
  destruct (bfs_order_spec (root sandbox) Hids) as (order & Horder & _ & Hcov).
  rewrite Hbfs in Horder. injection Horder as <-.
  (* the rule of a visited build *)
  assert (∀ v target command env_,
            v ∈ root sandbox :: rest →
            createBuildRule v target command env_
              ∈ build_items env_CI v →
            ∃ rule, rule ∈ initial_ruleSet sandbox
                           ++ flat_map (build_items env_CI) (root sandbox :: rest)
                    ∧ rule_target rule = Some (createBuildRuleName v target)) as Hrule.
  { intros v target command env_ Hv Hin.
    exists (createBuildRule v target command env_). split; [|reflexivity].
    apply elem_of_app. right. apply list_elem_of_In, in_flat_map.
    exists v. split; apply list_elem_of_In; eassumption. }
  assert (∀ name, name ∈ ["esy-store"; "esy-root"; "$(ESY_EJECT__ROOT)/bin/realpath"] →
            ∃ rule, rule ∈ initial_ruleSet sandbox
                           ++ flat_map (build_items env_CI) (root sandbox :: rest)
                    ∧ rule_target rule = Some name) as Hfixed.
  { intros name Hname. unfold initial_ruleSet.
    repeat (apply elem_of_cons in Hname as [->|Hname]); [| | |inversion Hname];
      (eexists; split; [apply elem_of_app; left|]);
      [do 8 right; left|reflexivity|do 10 right; left|reflexivity|do 9 right; left|reflexivity]. }
  intros item p [Hitem|Hitem]%elem_of_app Hp.
  - unfold initial_ruleSet in Hitem.
    repeat (apply elem_of_cons in Hitem as [->|Hitem]); try (now inversion Hitem);
      cbn [rule_prerequisites] in Hp; try (now inversion Hp).
    + apply list_elem_of_singleton in Hp as ->. left.
      apply (Hrule (root sandbox) "build" "esy-build" true); [left|]. right. left.
    + apply list_elem_of_singleton in Hp as ->. left.
      apply (Hrule (root sandbox) "shell" "esy-shell" true); [left|]. do 2 right. left.
    + right. repeat (apply elem_of_cons in Hp as [->|Hp]); [..|inversion Hp];
        apply list_elem_of_In; cbn; tauto.
    + right. apply list_elem_of_singleton in Hp as ->. do 6 right. left.
    + left. apply Hfixed. apply list_elem_of_singleton in Hp as ->. do 2 right. left.
  - apply list_elem_of_In, in_flat_map in Hitem as (v & Hv%list_elem_of_In & Hitem%list_elem_of_In).
    assert (p ∈ "esy-store" :: "esy-root"
                :: map (λ dep, createBuildRuleName dep "build") (dependencies v)) as Hp'.
    { unfold build_items in Hitem.
      repeat (apply elem_of_cons in Hitem as [->|Hitem]); [| | | |inversion Hitem];
        [inversion Hp|exact Hp..]. }
    clear Hp Hitem. left.
    apply elem_of_cons in Hp' as [->|Hp']; [apply Hfixed; left|].
    apply elem_of_cons in Hp' as [->|Hp']; [apply Hfixed; right; left|].
    apply list_elem_of_fmap in Hp' as (d & -> & Hd).
    apply (Hrule d "build" "esy-build" true); [|right; left].
    apply Hcov. eapply reachable_trans; [apply Hcov, Hv|now apply reachable_dep].
Qed.
End MakefileBuilderProperties.


Lemma ejected_findlib_conf_witness :
  ∃ st findlib,
    renderToMakefile Scenario.calculateEnvironment None "" (λ _, "")
      (Scenario.sandbox Scenario.R) "/out" = Some st
    ∧ renderFindlibConf Scenario.R buildConfig = Some findlib
    ∧ SyncWriteFile "/out/node_modules/R/findlib.conf.in" findlib ∈ calls st.
Proof.
  destruct (ejected_findlib_conf Scenario.calculateEnvironment None "" (λ _, "")
              (Scenario.sandbox Scenario.R) "/out")
    as (rest & st & _ & Hrun & Hfind).
  { intros b _. eexists. reflexivity. }
  destruct (Hfind Scenario.R ltac:(left)) as (findlib & Hf & Hin).
  exists st, findlib. repeat split; assumption.
Defined.

Lemma renderToMakefile_stops_at_failure_witness :
  ∃ st,
    renderToMakefile Broken.calculateEnvironment None "" (λ _, "")
      (Scenario.sandbox Scenario.R) "/out" = Some st
    ∧ thrown st = Some "bad environment"
    ∧ written_paths (calls st)
      = [ "/out/node_modules/R/eject-env"; "/out/node_modules/R/findlib.conf.in";
          "/out/node_modules/R/sandbox.sb.in" ].
Proof.
  destruct (renderToMakefile_stops_at_failure Broken.calculateEnvironment None ""
              (λ _, "") (Scenario.sandbox Scenario.R) "/out"
              [Scenario.R] [Scenario.B; Scenario.L] Scenario.A "bad environment")
    as (st & Hrun & Hthrown & _ & Hw & _).
  - vm_compute. reflexivity.
  - intros v ->%list_elem_of_singleton. eexists. reflexivity.
  - reflexivity.
  - exists st. repeat split; assumption.
Defined.

Lemma ruleSet_prerequisites_defined_witness :
  ∃ st,
    renderToMakefile Scenario.calculateEnvironment None "" (λ _, "")
      (Scenario.sandbox Scenario.R) "/out" = Some st
    ∧ ∃ rule, rule ∈ ruleSet st ∧ rule_target rule = Some "L.build".
Proof.
  destruct (ruleSet_prerequisites_defined Scenario.calculateEnvironment None ""
              (λ _, "") (Scenario.sandbox Scenario.R) "/out" ids_consistent_R)
    as (st & Hrun & Hdef).
  { intros b _. eexists. reflexivity. }
  exists st. split; [exact Hrun|].
  destruct (Hdef (createBuildRule Scenario.A "build" "esy-build" true) "L.build")
    as [H|H].
  - pose proof Hrun as Hst. vm_compute in Hst. injection Hst as <-.
    apply list_elem_of_In. vm_compute. tauto.
  - do 2 right. left.
  - exact H.
  - exfalso. repeat (apply elem_of_cons in H as [H|H]; [discriminate H|]). inversion H.
Defined.

(** ** The build command of an ejected build *)

Lemma join_empty (sep : string) (l : list string) :
  sep ≠ "" → Str.join sep l = "" → l = [] ∨ l = [""].
Proof.
  intros Hsep. destruct l as [|x [|y l]]; [now left| |].
  - cbn. intros ->. now right.
  - change (Str.join sep (x :: y :: l)) with (x +:+ sep +:+ Str.join sep (y :: l)).
    intros E. exfalso. destruct x; [|discriminate E]. rewrite str_app_nil in E.
    destruct sep; [contradiction|discriminate E].
Qed.

(** X21: the [esy_build__command] of the [define] item of a build
    is never empty: it is [true] for a build without command, with an
    empty command list or with the single empty command, and otherwise
    the commands of the build joined by [ && ]. *)
Theorem esy_build__command_never_empty (env_CI : option string) (build : Build) :
  ∃ value,
    define_binding "esy_build__command" (shell_env_define env_CI build) = Some (Some value)
    ∧ value ≠ ""
    ∧ match command build with
      | None | Some [] | Some [""] => value = "true"
      | Some commands => value = Str.join " && " commands
      end.
Proof.
  exists (js_or (renderBuildCommand build) "true").
  split; [reflexivity|].
  unfold js_or, renderBuildCommand.
  destruct (command build) as [commands|]; [|split; [discriminate|reflexivity]].
  case_decide as E.
  - split; [discriminate|].
    apply join_empty in E; [|discriminate]. destruct E as [->| ->]; reflexivity.
  - split; [exact E|].
    destruct commands as [|c [|c' l]].
    + now contradiction E.
    + destruct c; [now contradiction E|reflexivity].
    + destruct c; reflexivity.
Qed.

(** ** The rewrite step and the order of the last requests *)

(** X22: whatever the store path, the sandbox path and the build,
    the staging install path and the final install path have the same
    length. *)
Theorem staging_and_final_paths_same_length (store sandbox : string) (b : Build) :
  String.length (getInstallPath (createConfig store sandbox) b [])
  = String.length (getFinalInstallPath (createConfig store sandbox) b []).
Proof. apply install_paths_same_length. Qed.

(** X23: one task of the rewrite chain changes at most the file it is
    given: a regular file that contains the staging path gets its first
    occurrence overwritten and keeps its mode; a directory, a missing
    path or a file without the staging path leaves the disk as it
    is. *)
Theorem rewrite_task_effect (origPath destPath : string) (file : walk_entry) (w : world) :
  disk (rewrite_task origPath destPath file w).2
  = match disk w !! absolute file with
    | Some (Fs.File mode content) =>
        if (Str.indexOf content origPath >? -1)%Z
        then <[absolute file :=
                 Fs.File mode
                   (buffer_write content destPath
                      (Z.to_nat (Str.indexOf content origPath)))]> (disk w)
        else disk w
    | _ => disk w
    end.
Proof. apply rewrite_task_disk. Qed.

(** X24: for the paths of a created config the overwrite of the
    rewrite step is exact: the bytes of the first occurrence of the
    staging path become the final path, every byte before and after
    stays, and no earlier position holds the staging path. *)
Theorem rewrite_overwrites_in_place (store sandbox : string) (b : Build)
    (content : string) (k : nat) :
  let orig := getInstallPath (createConfig store sandbox) b [] in
  let dest := getFinalInstallPath (createConfig store sandbox) b [] in
  Str.indexOf content orig = Z.of_nat k →
  content = Str.take k content +:+ orig
            +:+ Str.drop (k + String.length orig) content
  ∧ buffer_write content dest k
    = Str.take k content +:+ dest
      +:+ Str.drop (k + String.length orig) content
  ∧ ∀ j, j < k → Str.starts_with orig (Str.drop j content) = false.
Proof. apply rewrite_in_place. Qed.

Lemma rewrite_overwrites_in_place_witness :
  buffer_write "PREFIX=/store/_insttmp/A;" (getFinalInstallPath Scenario.config Scenario.A []) 7
  = "PREFIX=/store/_install/A;".
Proof.
  destruct (rewrite_overwrites_in_place "/store" "/sb" Scenario.A
              "PREFIX=/store/_insttmp/A;" 7) as (_ & H & _).
  - reflexivity.
  - exact H.
Defined.

(** X25: whenever a build with a command is built successfully, the
    walk of the staging install and the rename to the final install are
    the last two requests of [performBuild], no [stat] or read of the
    rewrite has been issued before them, and the rewrite chain is left
    behind, not awaited. *)
Theorem performBuild_walk_then_rename
    (calculateEnvironment : BuildConfig → Build → list EnvironmentVar → outcome Environment)
    (run_process : request → gmap string Fs.node → outcome unit * gmap string Fs.node)
    (rimraf : string → gmap string Fs.node → outcome unit * gmap string Fs.node)
    (b : Build) (config : BuildConfig) (sandbox : BuildSandbox)
    (commands : list string) (w w' : world) :
  command b = Some commands →
  shouldBePersisted b = false ∨ disk w !! getFinalInstallPath config b [] = None →
  performBuild calculateEnvironment run_process rimraf b config sandbox w = (Done tt, w') →
  ∃ before files,
    issued w' = issued w ++ before
                ++ [ReqWalk (getInstallPath config b []);
                    ReqRename (getInstallPath config b [])
                              (getFinalInstallPath config b [])]
    ∧ Forall (λ q, rewrite_request q = false) before
    ∧ detached w' = detached w
                    ++ [ {| job_orig := getInstallPath config b [];
                            job_dest := getFinalInstallPath config b [];
                            job_files := files |} ].
Proof. apply performBuild_rename_precedes_rewrite. Qed.

Lemma performBuild_walk_then_rename_witness :
  ∃ before files w',
    performBuild Scenario.calculateEnvironment Scenario.run_process Scenario.rimraf Scenario.A
      Scenario.config (Scenario.sandbox Scenario.A) Scenario.fresh_store = (Done tt, w')
    ∧ issued w' = before ++ [ReqWalk "/store/_insttmp/A";
                             ReqRename "/store/_insttmp/A" "/store/_install/A"]
    ∧ detached w' = [ {| job_orig := "/store/_insttmp/A";
                         job_dest := "/store/_install/A";
                         job_files := files |} ].
Proof.
  destruct (performBuild_walk_then_rename Scenario.calculateEnvironment
              Scenario.run_process Scenario.rimraf Scenario.A Scenario.config
              (Scenario.sandbox Scenario.A) ["make install"] Scenario.fresh_store
              (performBuild Scenario.calculateEnvironment Scenario.run_process Scenario.rimraf Scenario.A
                 Scenario.config (Scenario.sandbox Scenario.A) Scenario.fresh_store).2)
    as (before & files & H1 & _ & H3).
  - reflexivity.
  - right. vm_compute. reflexivity.
  - rewrite (surjective_pairing (performBuild _ _ _ _ _ _ _)) at 1.
    f_equal; vm_compute; reflexivity.
  - exists before, files. eexists. split; [|split; [exact H1|exact H3]].
    rewrite (surjective_pairing (performBuild _ _ _ _ _ _ _)) at 1.
    f_equal; vm_compute; reflexivity.
Defined.

(** ** More on the rendered environment *)

(** X26: for an environment in which at least one variable has a value
    and in which no name and no value contains a newline, the rendered
    environment split at the newlines gives back the [export] entries,
    one per variable with a value, in order.  (Without any valued
    variable the rendering is the empty text, which splits into one
    empty piece.) *)
Theorem renderEnv_one_line_per_variable (groups : Environment) :
  (∀ v, v ∈ concat (map envVars groups) →
        Str.free_of (ascii_of_nat 10) (var_name v) = true
        ∧ ∀ value, var_value v = Some value → Str.free_of (ascii_of_nat 10) value = true) →
  EnvSpec.lines groups ≠ [] →
  Str.split (ascii_of_nat 10) (renderEnv groups) = EnvSpec.lines groups.
Proof. apply renderEnv_one_line_each. Qed.

Lemma renderEnv_one_line_per_variable_witness :
  Str.split (ascii_of_nat 10)
    (renderEnv [ {| envVars := [ {| var_name := "A"; var_value := Some "1" |};
                                 {| var_name := "B"; var_value := None |} ] |};
                 {| envVars := [ {| var_name := "C"; var_value := Some "3" |} ] |} ])
  = [ "export A=" +:+ dq +:+ "1" +:+ dq +:+ ";";
      "export C=" +:+ dq +:+ "3" +:+ dq +:+ ";" ].
Proof.
  apply (renderEnv_one_line_per_variable
           [ {| envVars := [ {| var_name := "A"; var_value := Some "1" |};
                             {| var_name := "B"; var_value := None |} ] |};
             {| envVars := [ {| var_name := "C"; var_value := Some "3" |} ] |} ]).
  - intros v Hv. cbn in Hv.
    repeat (apply elem_of_cons in Hv as [->|Hv]); [| | |inversion Hv];
      (split; [reflexivity|]); intros value [= <-]; reflexivity.
  - discriminate.
Defined.

Lemma var_lines_nil (vars : list EnvironmentVar) :
  EnvSpec.var_lines vars = [] ↔ ∀ v, v ∈ vars → var_value v = None.
Proof.
  induction vars as [|x vars IH]; cbn [EnvSpec.var_lines].
  - split; [inversion 2|reflexivity].
  - destruct (var_value x) as [value|] eqn:E.
    + split; [discriminate|]. intros H. specialize (H x ltac:(left)). congruence.
    + rewrite IH. split.
      * intros H v [->|Hv]%elem_of_cons; [exact E|now apply H].
      * intros H v Hv. apply H. now right.
Qed.

(** X27: the rendered environment is the empty string exactly when
    no variable of any group has a value. *)
Theorem renderEnv_empty (groups : Environment) :
  renderEnv groups = "" ↔ ∀ v, v ∈ concat (map envVars groups) → var_value v = None.
Proof.
  rewrite renderEnv_join, <- lines_flatten, <- var_lines_nil. unfold flattenArray.
  destruct (EnvSpec.var_lines (concat (map envVars groups))) as [|l ls] eqn:E.
  - split; reflexivity.
  - split; [|discriminate]. intros H. exfalso.
    assert (∃ rest, l = "export " +:+ rest) as [rest ->].
    { clear H. revert E. induction (concat (map envVars groups)) as [|v vars IH];
        cbn [EnvSpec.var_lines]; [discriminate|].
      destruct (var_value v); [|exact IH]. intros [= <- _].
      unfold EnvSpec.export_line. eauto. }
    destruct ls; discriminate H.
Qed.

(** ** More on the hash helper and on rsync *)

(** X28: whatever the folder and the disk, [getOldHash] never prints
    anything: it always ends with an exception. *)
Theorem getOldHash_prints_nothing (folderName : string) (d : gmap string Fs.node) :
  ∃ error message, getOldHash folderName d = Threw error message.
Proof.
  pose proof (getOldHash_never_prints folderName d) as H.
  destruct (getOldHash folderName d) as [error message|text]; [eauto|].
  now contradiction (H text).
Qed.

(** [rsync] starts exactly one process, [rsync --archive] from
    the source to the target, without exclusion; the source it passes
    always ends with a slash: a source that ends with one is passed as
    it is, any other gets one appended. *)
Lemma rsync_source_ends_with_slash
    (run_process : request → gmap string Fs.node → outcome unit * gmap string Fs.node)
    (from to : string) (w : world) :
  ∃ source,
    issued (rsync run_process from to w).2
    = issued w ++ [ReqSpawn "rsync" ["--archive"; source; to]]
    ∧ Str.ends_with_char "/" source = true
    ∧ source = (if Str.ends_with_char "/" from then from else from +:+ "/").
Proof.
  exists (if Str.ends_with_char "/" from then from else from +:+ "/").
  split; [|split; [|reflexivity]].
  - unfold rsync, child. now destruct (run_process _ (disk w)).
  - destruct (Str.ends_with_char "/" from) eqn:E; [exact E|].
    now rewrite ends_with_char_app.
Qed.

(** [path.dirname] on the shapes of paths that [emitFile] meets. *)
Example path_dirname_examples :
  map path_dirname ["/out/bin/realpath.c"; "out/Makefile"; "Makefile"; "/Makefile";
                    "/out/pkg/"; "//x"; ""]
  = ["/out/bin"; "out"; "."; "/"; "/out"; "//"; "."].
Proof. reflexivity. Qed.

(** The calls of one [emitFile] of an executable. *)
Example emitFile_example :
  emitFile "/out" {| filename := ["bin/render-env"]; contents := "#!/bin/bash";
                     executable := true |}
  = [ SyncMkdirp "/out/bin"; SyncWriteFile "/out/bin/render-env" "#!/bin/bash";
      SyncChmod "/out/bin/render-env" 448 ].
Proof. reflexivity. Qed.

(** ** The alphabet of normalized names *)

Lemma forallb_app (p : ascii → bool) (a b : string) :
  Str.forallb p (a +:+ b) = Str.forallb p a && Str.forallb p b.
Proof.
  induction a as [|x a IH]; [reflexivity|].
  rewrite str_app_cons. cbn [Str.forallb]. now rewrite IH, andb_assoc.
Qed.

Lemma forallb_replace_char (p q : ascii → bool) (c : ascii) (by_ s : string) :
  (∀ x, p x = true → x ≠ c → q x = true) →
  Str.forallb q by_ = true →
  Str.forallb p s = true →
  Str.forallb q (Util.replace_char c by_ s) = true.
Proof.
  intros Hpq Hby. induction s as [|x s IH]; [reflexivity|].
  cbn [Str.forallb Util.replace_char]. intros [Hx Hs]%andb_prop.
  rewrite forallb_app, (IH Hs), andb_true_r.
  case_decide as E; [exact Hby|]. cbn. now rewrite (Hpq x Hx E).
Qed.

Lemma forallb_toLowerCase (p q : ascii → bool) (s : string) :
  (∀ x, p x = true → q (Util.lower_char x) = true) →
  Str.forallb p s = true → Str.forallb q (Util.toLowerCase s) = true.
Proof.
  intros Hpq. induction s as [|x s IH]; [reflexivity|].
  cbn [Str.forallb Util.toLowerCase]. intros [Hx Hs]%andb_prop.
  now rewrite (Hpq x Hx), (IH Hs).
Qed.

Lemma forallb_extend_underscore_runs (p : ascii → bool) (s : string) :
  p "_"%char = true →
  Str.forallb p s = true → Str.forallb p (Util.extend_underscore_runs s) = true.
Proof.
  intros Hu. induction s as [|x s IH]; [reflexivity|].
  cbn [Str.forallb Util.extend_underscore_runs]. intros [Hx Hs]%andb_prop.
  specialize (IH Hs).
  case_decide as E; [|cbn [Str.forallb]; now rewrite Hx, IH].
  destruct s as [|y s]; [cbn; now rewrite Hx, Hu|].
  case_decide; cbn [Str.forallb]; rewrite Hx; [exact IH|].
  rewrite forallb_app. cbn [Str.forallb]. now rewrite Hu, IH.
Qed.

Lemma lower_char_name (x : ascii) :
  package_name_char x = true → NameSpec.name_char (Util.lower_char x) = true.
Proof.
  destruct x as [[] [] [] [] [] [] [] []]; vm_compute; intros H;
    first [reflexivity | discriminate H].
Qed.

(** X29: a package name over [A-Za-z0-9@/._-] is normalized to a
    name over [a-z0-9_]: the name of the [define] item of a build is a
    lower-case identifier. *)
Theorem normalizePackageName_identifier (name : string) :
  Str.forallb package_name_char name = true →
  Str.forallb identifier_char (Util.normalizePackageName name) = true.
Proof.
  intros H. unfold Util.normalizePackageName.
  set (p1 := NameSpec.name_char).
  set (p2 := λ x, p1 x && negb (bool_decide (x = "@"%char))).
  set (p3 := λ x, p2 x && negb (bool_decide (x = "/"%char))).
  set (p4 := λ x, p3 x && negb (bool_decide (x = "."%char))).
  assert (∀ (p : ascii → bool) (c : ascii) x,
            p x = true → x ≠ c → p x && negb (bool_decide (x = c)) = true) as Hstep.
  { intros p c x Hp Hne. now rewrite Hp, bool_decide_eq_false_2. }
  apply (forallb_replace_char p4); [|reflexivity|].
  { intros x Hx Hne. unfold p4, p3, p2, p1, identifier_char, NameSpec.name_char in *.
    repeat (apply andb_prop in Hx as [Hx ?]).
    repeat match goal with
           | H : negb (bool_decide _) = true |- _ =>
               apply negb_true_iff, bool_decide_eq_false in H
           end.
    repeat (apply orb_prop in Hx as [Hx|Hx]);
      try (apply bool_decide_eq_true in Hx; contradiction).
    - now rewrite Hx.
    - rewrite Hx. now rewrite orb_true_r.
    - rewrite Hx. now rewrite !orb_true_r. }
  apply (forallb_replace_char p3); [now apply Hstep|reflexivity|].
  apply (forallb_replace_char p2); [now apply Hstep|reflexivity|].
  apply forallb_extend_underscore_runs; [reflexivity|].
  apply (forallb_replace_char p1); [now apply Hstep|reflexivity|].
  apply (forallb_toLowerCase package_name_char); [exact lower_char_name|exact H].
Qed.

Lemma normalizePackageName_identifier_witness :
  Str.forallb identifier_char (Util.normalizePackageName "@opam/Ocaml-base.4_02") = true.
Proof. apply normalizePackageName_identifier. reflexivity. Defined.

(** ** A store that already holds every build *)

Section AllCached.
Variable calculateEnvironment :
  BuildConfig → Build → list EnvironmentVar → outcome Environment.
Variable run_process :
  request → gmap string Fs.node → outcome unit * gmap string Fs.node.
Variable rimraf :
  string → gmap string Fs.node → outcome unit * gmap string Fs.node.

Lemma for_each_cached (config : BuildConfig) (sandbox : BuildSandbox)
    (order : list Build) : ∀ w,
  detached w = [] →
  (∀ b, b ∈ order →
     shouldBePersisted b = true ∧ is_Some (disk w !! getFinalInstallPath config b [])) →
  for_each order
    (λ b, performBuild_settled calculateEnvironment run_process rimraf b config sandbox) w
  = (Done tt,
     {| disk := disk w;
        issued := issued w ++ map (λ b, ReqExists (getFinalInstallPath config b [])) order;
        detached := [] |}).
Proof.
  induction order as [|b order IH]; intros w Hdet Hall; cbn [for_each map].
  - destruct w as [d i j]. cbn in *. subst j. now rewrite app_nil_r.
  - destruct (Hall b ltac:(left)) as [Hp Hex].
    assert (performBuild_settled calculateEnvironment run_process rimraf b config sandbox w
            = (Done tt, {| disk := disk w;
                           issued := issued w ++ [ReqExists (getFinalInstallPath config b [])];
                           detached := [] |})) as Hb.
    { unfold performBuild_settled, performBuild. rewrite Hp.
      unfold mbind, io_bind, bind, fs.exists_, query, Fs.exists_, settle.
      rewrite bool_decide_eq_true_2 by exact Hex.
      unfold mret, io_ret, ret, issue, settle_detached. cbn [disk issued detached].
      now rewrite Hdet. }
    unfold mbind, io_bind, bind. rewrite Hb, IH.
    + cbn [disk issued]. now rewrite <- app_assoc.
    + reflexivity.
    + intros b' Hb'. apply Hall. now right.
Qed.

(** X30: when every build of the post-order sequence is persisted
    and its final install path exists once the store is set up, the
    builder succeeds without building anything: after the store setup
    its only requests are one existence check per build, in post-order;
    no process is started, nothing is removed or written, no rewrite
    chain is started, and the disk stays as the store setup left
    it. *)
Theorem build_all_cached (sandbox : BuildSandbox) (config : BuildConfig)
    (w w0 : world) :
  (initStore (storePath config);;
   initStore (Path.join [sandboxPath config; "_esy"; "store"])) w = (Done tt, w0) →
  detached w0 = [] →
  (∀ b, b ∈ dfs_order (root sandbox) →
     shouldBePersisted b = true ∧ is_Some (disk w0 !! getFinalInstallPath config b [])) →
  build calculateEnvironment run_process rimraf sandbox config w
  = (Done tt,
     {| disk := disk w0;
        issued := issued w0
                  ++ map (λ b, ReqExists (getFinalInstallPath config b []))
                       (dfs_order (root sandbox));
        detached := [] |}).
Proof.
  intros Hinit Hdet Hall.
  rewrite build_unfold, <- bind_assoc_at.
  unfold mbind at 1, io_bind at 1, bind at 1. rewrite Hinit.
  now apply for_each_cached.
Qed.
End AllCached.

Lemma build_all_cached_witness :
  ∃ w',
    build Scenario.calculateEnvironment Scenario.run_process Scenario.rimraf
      (Scenario.sandbox Scenario.L) Scenario.config Scenario.store_with_L = (Done tt, w')
    ∧ drop 6 (issued w') = [ReqExists "/store/_install/L"].
Proof.
  eexists. split.
  - eapply (build_all_cached Scenario.calculateEnvironment Scenario.run_process Scenario.rimraf
              (Scenario.sandbox Scenario.L) Scenario.config Scenario.store_with_L).
    + vm_compute. reflexivity.
    + reflexivity.
    + intros b Hb. change (dfs_order (root (Scenario.sandbox Scenario.L)))
        with [Scenario.L] in Hb.
      apply list_elem_of_singleton in Hb as ->.
      split; [reflexivity|]. vm_compute. eexists. reflexivity.
  - reflexivity.
Defined.
